(** * NAS file manager: path confinement and filesystem operations

    A shallow embedding of the file-browser server of [server.js]:
    [safePath], [formatSize], [getItemInfo] and the handlers of the routes
    [/], [/upload], [/download], [/preview], [/move], [/delete],
    [/create-folder] and [/rename].  The later variant of the server in the
    same file repeats them, with an upload handler that takes nested paths
    and a terminal route added; those two follow the first handlers, and
    with them the address look-up of the server and of the advertiser, the
    escaping and the port search of the advertiser ([advertise.cjs]), the
    choice of the port in the launcher ([start-all.js]) and the theme
    switch of the page ([theme.js]).

    The parts of the platform the handlers call are embedded with them: the
    POSIX flavour of the [path] module of Node.js, the [sanitize-filename]
    package, [String.prototype.startsWith] and [includes],
    [Array.prototype.sort] and [Number.prototype.toFixed].  The calls of
    [fs] are events of a free monad, answered either by a model of a
    filesystem or by anything else. *)

From Stdlib Require Import ZArith QArith Qround Ascii String List Bool Lia.
From Stdlib Require Import DecimalString Sorted.
From stdpp Require Import gmap strings list fin_maps.

Close Scope Q_scope.
Open Scope string_scope.
Open Scope list_scope.

(** ** JavaScript strings

    Strings are sequences of code units; the model keeps the code units
    below 256 (the [ascii] type), which covers every separator, dot and
    control character the code inspects. *)

Module Js.

Definition is_slash (c : ascii) : bool := Ascii.eqb c "/".

(** [s.length === 0] *)
Definition isEmpty (s : string) : bool :=
  match s with EmptyString => true | String _ _ => false end.

(** [s.split("/")] *)
Fixpoint split (s : string) : list string :=
  match s with
  | EmptyString => [EmptyString]
  | String c s' =>
      if is_slash c then EmptyString :: split s'
      else match split s' with
           | [] => [String c EmptyString]
           | h :: t => String c h :: t
           end
  end.

(** [l.join("/")] *)
Fixpoint join (l : list string) : string :=
  match l with
  | [] => EmptyString
  | [x] => x
  | x :: rest => x +:+ "/" +:+ join rest
  end.

(** [s.startsWith(p)] *)
Definition startsWith (s p : string) : bool := String.prefix p s.

(** [s.includes(sub)] *)
Definition includes (s sub : string) : bool :=
  match String.index 0 sub s with Some _ => true | None => false end.

(** [s.charCodeAt(0) === CHAR_FORWARD_SLASH] *)
Definition firstIsSlash (s : string) : bool :=
  match s with String c _ => is_slash c | EmptyString => false end.

(** [s.charCodeAt(s.length - 1) === CHAR_FORWARD_SLASH] *)
Fixpoint lastIsSlash (s : string) : bool :=
  match s with
  | EmptyString => false
  | String c EmptyString => is_slash c
  | String _ s' => lastIsSlash s'
  end.

Definition has_slash (s : string) : bool :=
  existsb is_slash (list_ascii_of_string s).

End Js.

(** ** The POSIX [path] module of Node.js *)

Module Path.

Import Js.

(** One step of [normalizeString]: the segment that ends at a separator is
    dropped when it is empty or [.], pops the last kept segment when it is
    [..] (or is kept as [..] above the start of a relative path), and is
    appended otherwise.  The kept segments are held last-first. *)
Definition step (allowAboveRoot : bool) (res : list string) (seg : string)
  : list string :=
  if String.eqb seg "" || String.eqb seg "." then res
  else if String.eqb seg ".." then
    match res with
    | top :: rest =>
        if String.eqb top ".." then
          (if allowAboveRoot then ".." :: res else res)
        else rest
    | [] => if allowAboveRoot then [".."] else []
    end
  else seg :: res.

Definition normSegs (allowAboveRoot : bool) (res : list string)
  (segs : list string) : list string :=
  fold_left (step allowAboveRoot) segs res.

(** [normalizeString(path, allowAboveRoot, "/", isPosixPathSeparator)] *)
Definition normalizeString (path : string) (allowAboveRoot : bool) : string :=
  Js.join (rev (normSegs allowAboveRoot [] (split path))).

(** [path.normalize] *)
Definition normalize (path : string) : string :=
  if isEmpty path then "."
  else
    let isAbsolute := firstIsSlash path in
    let trailingSeparator := lastIsSlash path in
    let p := normalizeString path (negb isAbsolute) in
    if isEmpty p then
      (if isAbsolute then "/" else if trailingSeparator then "./" else ".")
    else
      let p := if trailingSeparator then p +:+ "/" else p in
      if isAbsolute then "/" +:+ p else p.

(** The loop of [path.join] that glues the non-empty arguments. *)
Fixpoint joined (args : list string) : option string :=
  match args with
  | [] => None
  | arg :: rest =>
      if isEmpty arg then joined rest
      else match joined rest with
           | None => Some arg
           | Some j => Some (arg +:+ "/" +:+ j)
           end
  end.

(** [path.join] *)
Definition join (args : list string) : string :=
  match joined args with
  | None => "."
  | Some j => normalize j
  end.

(** The right-to-left loop of [path.resolve]; [rargs] is the argument list
    reversed, followed by the working directory. *)
Fixpoint resolveLoop (rargs : list string) (resolvedPath : string)
  : string * bool :=
  match rargs with
  | [] => (resolvedPath, false)
  | p :: rest =>
      if isEmpty p then resolveLoop rest resolvedPath
      else
        let resolvedPath := p +:+ "/" +:+ resolvedPath in
        if firstIsSlash p then (resolvedPath, true)
        else resolveLoop rest resolvedPath
  end.

(** [path.resolve], with [process.cwd()] as [cwd]. *)
Definition resolve (cwd : string) (args : list string) : string :=
  let '(resolvedPath, resolvedAbsolute) :=
    resolveLoop (rev args ++ [cwd]) "" in
  if resolvedAbsolute then "/" +:+ normalizeString resolvedPath false
  else
    let r := normalizeString resolvedPath true in
    if isEmpty r then "." else r.

(** [path.basename(path)]: the last non-empty segment, or the empty string. *)
Definition basename (path : string) : string :=
  match filter (fun s => negb (isEmpty s) = true) (rev (split path)) with
  | [] => ""
  | s :: _ => s
  end.

Fixpoint dropWhile (f : ascii -> bool) (l : list ascii) : list ascii :=
  match l with
  | [] => []
  | c :: l' => if f c then dropWhile f l' else l
  end.

(** [path.dirname(path)]: the scan runs from the last code unit down to
    index 1, skips the trailing separators, then the last segment, and cuts
    at the separator before it. *)
Definition dirname (path : string) : string :=
  match path with
  | EmptyString => "."
  | String c0 tail =>
      let hasRoot := is_slash c0 in
      let back := rev (list_ascii_of_string tail) in
      let back := dropWhile is_slash back in
      let back := dropWhile (fun c => negb (is_slash c)) back in
      match back with
      | [] => if hasRoot then "/" else "."
      | _ :: before =>
          match before with
          | [] => if hasRoot then "//" else String c0 EmptyString
          | _ => String c0 (string_of_list_ascii (rev before))
          end
      end
  end.

(** The segments of an absolute, resolved path (what follows the leading
    separator). *)
Definition segments (resolved : string) : list string :=
  match resolved with
  | EmptyString => []
  | String _ rest => if isEmpty rest then [] else split rest
  end.

Fixpoint stripCommon (a b : list string) : list string * list string :=
  match a, b with
  | x :: a', y :: b' => if String.eqb x y then stripCommon a' b' else (a, b)
  | _, _ => (a, b)
  end.

(** [path.relative(from, to)]: both are resolved, the common leading
    segments are dropped, every segment left of [from] becomes [..] and the
    rest of [to] follows. *)
Definition relative (cwd : string) (from to : string) : string :=
  if String.eqb from to then EmptyString
  else
    let from := resolve cwd [from] in
    let to := resolve cwd [to] in
    if String.eqb from to then EmptyString
    else
      let '(fromRest, toRest) := stripCommon (segments from) (segments to) in
      Js.join (map (fun _ => "..") fromRest ++ toRest).

End Path.


(** ** The [sanitize-filename] package

    [sanitize(input)] with the default (empty) replacement: the illegal and
    control characters are removed, a name made of dots only or a reserved
    Windows device name is emptied, trailing dots and spaces are removed,
    and the result is cut to 255 bytes of UTF-8. *)

Module Sanitize.

Definition code (c : ascii) : N := N_of_ascii c.

(** [illegalRe]: slash, question mark, angle brackets, backslash, colon,
    star, bar and double quote. *)
Definition illegal (c : ascii) : bool :=
  existsb (N.eqb (code c)) [47; 63; 60; 62; 92; 58; 42; 124; 34]%N.

(** [controlRe]: the ranges 00-1f and 80-9f. *)
Definition control (c : ascii) : bool :=
  (code c <=? 31)%N || ((128 <=? code c)%N && (code c <=? 159)%N).

(** [reservedRe]: one or more dots and nothing else. *)
Definition reserved (s : string) : bool :=
  negb (Js.isEmpty s) && forallb (Ascii.eqb ".") (list_ascii_of_string s).

Definition lower (c : ascii) : ascii :=
  if ((65 <=? code c)%N && (code c <=? 90)%N)%bool
  then ascii_of_N (code c + 32) else c.

Definition isDigit (c : ascii) : bool :=
  (48 <=? code c)%N && (code c <=? 57)%N.

(** [windowsReservedRe]: con, prn, aux, nul, com0-9 or lpt0-9, ignoring
    case, alone or followed by a dot and anything. *)
Definition windowsReserved (s : string) : bool :=
  let l := map lower (list_ascii_of_string s) in
  let stem3 := string_of_list_ascii (take 3 l) in
  let extOk (rest : list ascii) :=
    match rest with
    | [] => true
    | c :: _ => Ascii.eqb c "."
    end in
  (existsb (String.eqb stem3) ["con"; "prn"; "aux"; "nul"] && extOk (drop 3 l))
  || (existsb (String.eqb stem3) ["com"; "lpt"]
      && match drop 3 l with
         | d :: rest => isDigit d && extOk rest
         | [] => false
         end).

(** [windowsTrailingRe]: the dots and spaces at the end. *)
Definition stripTrailing (s : string) : string :=
  string_of_list_ascii
    (rev (Path.dropWhile (fun c => Ascii.eqb c "." || Ascii.eqb c " ")
            (rev (list_ascii_of_string s)))).

(** [truncate(sanitized, 255)]: the longest prefix of whole characters whose
    UTF-8 encoding fits in 255 bytes; a code unit from 128 on takes two. *)
Fixpoint truncate (budget : N) (l : list ascii) : list ascii :=
  match l with
  | [] => []
  | c :: l' =>
      let w := if (code c <? 128)%N then 1%N else 2%N in
      if (w <=? budget)%N then c :: truncate (budget - w) l' else []
  end.

Definition sanitize (input : string) : string :=
  let s := list_ascii_of_string input in
  let s := filter (fun c => negb (illegal c) = true) s in
  let s := filter (fun c => negb (control c) = true) s in
  let s := string_of_list_ascii s in
  let s := if reserved s then "" else s in
  let s := if windowsReserved s then "" else s in
  let s := stripTrailing s in
  string_of_list_ascii (truncate 255 (list_ascii_of_string s)).

End Sanitize.


(** ** The host: configuration and library functions *)

Class Host := {
  (** [process.env.STORAGE_DIR || path.join(__dirname, "storage")] *)
  STORAGE_DIR : string;
  (** [process.cwd()] *)
  cwd : string;
  (** [import sanitize from "sanitize-filename"] *)
  sanitize : string -> string;
  (** [a.localeCompare(b)] *)
  localeCompare : string -> string -> Z;
  (** [date.toLocaleString()] of a modification time *)
  toLocaleString : Z -> string;
  (** [mime.lookup(path)], [None] standing for [false] *)
  mimeLookup : string -> option string
}.

(** ** Exceptions and results *)

Inductive errno :=
| ENOENT | ENOTDIR | EISDIR | EEXIST | ENOTEMPTY | EINVAL | EXDEV | EACCES.

Definition errnoName (c : errno) : string :=
  match c with
  | ENOENT => "ENOENT" | ENOTDIR => "ENOTDIR" | EISDIR => "EISDIR"
  | EEXIST => "EEXIST" | ENOTEMPTY => "ENOTEMPTY" | EINVAL => "EINVAL"
  | EXDEV => "EXDEV" | EACCES => "EACCES"
  end.

Definition errnoText (c : errno) : string :=
  match c with
  | ENOENT => "no such file or directory"
  | ENOTDIR => "not a directory"
  | EISDIR => "illegal operation on a directory"
  | EEXIST => "file already exists"
  | ENOTEMPTY => "directory not empty"
  | EINVAL => "invalid argument"
  | EXDEV => "cross-device link not permitted"
  | EACCES => "permission denied"
  end.

Inductive exn :=
(** [new Error("Path traversal attempt detected")] *)
| TraversalError
(** an argument that is not a string: [path.join(undefined)],
    [sanitize(undefined)] *)
| TypeError (what : string)
(** an error of an [fs] call, with its [code] *)
| SystemError (code : errno) (syscall : string) (path : string)
    (dest : option string).

(** [error.message] *)
Definition message (e : exn) : string :=
  match e with
  | TraversalError => "Path traversal attempt detected"
  | TypeError what => what
  | SystemError c syscall p dest =>
      errnoName c +:+ ": " +:+ errnoText c +:+ ", " +:+ syscall +:+ " '"
      +:+ p +:+ "'"
      +:+ match dest with Some d => " -> '" +:+ d +:+ "'" | None => EmptyString end
  end.

(** [error.code] *)
Definition errorCode (e : exn) : option string :=
  match e with
  | SystemError c _ _ _ => Some (errnoName c)
  | _ => None
  end.

Inductive result (A : Type) : Type :=
| Ok (a : A)
| Err (e : exn).
Arguments Ok {A} a.
Arguments Err {A} e.

(** ** The resolver *)

Section Resolver.
Context `{Host}.

(** [path.resolve(STORAGE_DIR, path.normalize(path.join(...paths)))] *)
Definition resolvedPath (paths : list string) : string :=
  let normalized := Path.normalize (Path.join paths) in
  Path.resolve cwd [STORAGE_DIR; normalized].

Definition safePath (paths : list string) : result string :=
  if negb (Js.startsWith (resolvedPath paths) STORAGE_DIR)
  then Err TraversalError
  else Ok (resolvedPath paths).

End Resolver.

(** ** [formatSize]

    [bytes] is the size of a file, an integer a Number holds exactly.
    Dividing such a number by 1024 only lowers its binary exponent, so every
    value of [size] in the loop is the exact quotient; the sizes are
    rationals here. *)

(** [n.toString()] of a natural number *)
Definition decimal (n : N) : string :=
  DecimalString.NilEmpty.string_of_uint (N.to_uint n).

(** [x.toFixed(1)] for a non-negative [x]: the integer [n] closest to
    [10 x], the larger one on a tie, printed with one digit after the
    point. *)
Definition toFixed1 (x : Q) : string :=
  let n := Z.to_N (Qfloor (x * 10 + (1 # 2))%Q) in
  decimal (n / 10) +:+ "." +:+ decimal (n mod 10).

Definition units : list string := ["B"; "KB"; "MB"; "GB"; "TB"].

(** The [while] loop of [formatSize]; [fuel] bounds the iterations, which
    [unitIndex < units.length - 1] limits to four. *)
Fixpoint formatLoop (fuel : nat) (size : Q) (unitIndex : nat) : Q * nat :=
  match fuel with
  | O => (size, unitIndex)
  | S fuel' =>
      if Qle_bool 1024%Q size && (unitIndex <? length units - 1)%nat
      then formatLoop fuel' (size / 1024)%Q (S unitIndex)
      else (size, unitIndex)
  end.

Definition formatSize (bytes : N) : string :=
  let '(size, unitIndex) := formatLoop (length units) (inject_Z (Z.of_N bytes)) 0 in
  toFixed1 size +:+ " " +:+ nth unitIndex units EmptyString.


(** ** Filesystem calls as events *)

(** [fs.Stats], as far as the handlers read it. *)
Record Stats := {
  isDirectory : bool;
  isFile : bool;
  size : N;
  mtime : Z
}.

Inductive fsE : Type -> Type :=
(** [fs.stat(p)] *)
| Stat (p : string) : fsE (result Stats)
(** [fs.readdir(p)] *)
| Readdir (p : string) : fsE (result (list string))
(** [existsSync(p)] *)
| ExistsSync (p : string) : fsE bool
(** [fs.rename(oldPath, newPath)] *)
| Rename (oldPath newPath : string) : fsE (result unit)
(** [fs.mkdir(p, { recursive: true })] *)
| Mkdir (p : string) : fsE (result unit)
(** [fs.rm(p, { recursive: true })] *)
| Rm (p : string) : fsE (result unit)
(** [fs.unlink(p)] *)
| Unlink (p : string) : fsE (result unit)
(** [fs.readFile(p)] *)
| ReadFile (p : string) : fsE (result string)
(** [createReadStream(p)], read to its end *)
| CreateReadStream (p : string) : fsE (result string)
(** [file.mv(dest)] of an uploaded file with content [data] *)
| Mv (data : string) (dest : string) : fsE (result unit).

(** Calls that can change the tree. *)
Definition mutates {X : Type} (ev : fsE X) : bool :=
  match ev with
  | Rename _ _ | Mkdir _ | Rm _ | Unlink _ | Mv _ _ => true
  | _ => false
  end.

(** A handler body: a tree of filesystem calls that ends in a value or in
    a thrown exception. *)
Inductive prog (A : Type) : Type :=
| Ret (a : A)
| Throw (e : exn)
| Vis {X : Type} (ev : fsE X) (k : X -> prog A).
Arguments Ret {A} a.
Arguments Throw {A} e.
Arguments Vis {A X} ev k.

Fixpoint bind {A B : Type} (m : prog A) (f : A -> prog B) : prog B :=
  match m with
  | Ret a => f a
  | Throw e => Throw e
  | Vis ev k => Vis ev (fun x => bind (k x) f)
  end.

#[global] Instance prog_ret : MRet prog := fun A a => Ret a.
#[global] Instance prog_bind : MBind prog := fun A B f m => bind m f.

(** [try { m } catch (error) { h(error) }] *)
Fixpoint tryCatch {A : Type} (m : prog A) (h : exn -> prog A) : prog A :=
  match m with
  | Ret a => Ret a
  | Throw e => h e
  | Vis ev k => Vis ev (fun x => tryCatch (k x) h)
  end.

(** [await call]: the answer, or the rejection thrown. *)
Definition await {A : Type} (ev : fsE (result A)) : prog A :=
  Vis ev (fun r => match r with Ok a => Ret a | Err e => Throw e end).

(** A synchronous call that cannot fail. *)
Definition call {A : Type} (ev : fsE A) : prog A := Vis ev Ret.

(** A pure computation that may throw. *)
Definition lift {A : Type} (r : result A) : prog A :=
  match r with Ok a => Ret a | Err e => Throw e end.

(** *** Running a handler *)

(** Whatever answers the calls: the operating system, with or without
    other requests and processes acting in between. *)
Definition oracle (W : Type) : Type := forall X : Type, fsE X -> W -> X * W.

Inductive entry : Type :=
| Entry {X : Type} (ev : fsE X) (answer : X).

Definition entryMutates (e : entry) : bool :=
  match e with Entry ev _ => mutates ev end.

(** The outcome, the final state and the calls made with their answers. *)
Fixpoint run {W A : Type} (os : oracle W) (m : prog A) (w : W)
  : result A * W * list entry :=
  match m with
  | Ret a => (Ok a, w, [])
  | Throw e => (Err e, w, [])
  | Vis ev k =>
      let '(x, w1) := os _ ev w in
      let '(r, w2, log) := run os (k x) w1 in
      (r, w2, Entry ev x :: log)
  end.

(** ** Requests and responses *)

Module Item.
(** The object [getItemInfo] returns. *)
Record ItemInfo := {
  name : string;
  type : string;
  size : option string;
  modified : string;
  path : string
}.
End Item.
Abbreviation ItemInfo := Item.ItemInfo.

Inductive response :=
(** [res.status(status).send(body)] *)
| Send (status : nat) (body : string)
(** [res.render("index", { items, currentPath })] *)
| Render (items : list ItemInfo) (currentPath : string)
(** [res.send(content)] after the content type is set *)
| SendContent (contentType : string) (content : string)
(** [createReadStream(filePath).pipe(res)] after the headers are set; the
    stream delivers the content or fails on its own *)
| Pipe (contentType : string) (disposition : option string)
    (stream : result string).

(** [value || ""] for a field that is a string or absent *)
Definition orEmpty (value : option string) : string :=
  match value with Some s => s | None => EmptyString end.

(** [!value] for a field that is a string or absent *)
Definition falsy (value : option string) : bool :=
  match value with Some s => Js.isEmpty s | None => true end.

(** A library function handed a field that must be a string. *)
Definition needString (what : string) (value : option string) : result string :=
  match value with Some s => Ok s | None => Err (TypeError what) end.

(** ** [Array.prototype.sort]

    The sort is stable; for a comparator that is a consistent ordering every
    stable sort gives the same array, here by insertion from the right. *)

Section Sort.
Context {A : Type} (compareFn : A -> A -> Z).

Fixpoint insertSorted (x : A) (l : list A) : list A :=
  match l with
  | [] => [x]
  | y :: l' =>
      if (compareFn x y <=? 0)%Z then x :: y :: l'
      else y :: insertSorted x l'
  end.

Definition sort (l : list A) : list A := foldr insertSorted [] l.

End Sort.

(** ** The handlers *)

Section Handlers.
Context `{Host}.

Definition getItemInfo (itemPath baseName : string) : prog ItemInfo :=
  stats ← await (Stat itemPath);
  let isDir := isDirectory stats in
  mret {| Item.name := baseName;
          Item.type := if isDir then "directory" else "file";
          Item.size := if isDir then None else Some (formatSize (size stats));
          Item.modified := toLocaleString (mtime stats);
          Item.path := Path.relative cwd STORAGE_DIR itemPath |}.

(** The comparator handed to [items.sort]. *)
Definition compareItems (a b : ItemInfo) : Z :=
  if String.eqb (Item.type a) "directory"
     && negb (String.eqb (Item.type b) "directory") then (-1)%Z
  else if negb (String.eqb (Item.type a) "directory")
          && String.eqb (Item.type b) "directory" then 1%Z
  else localeCompare (Item.name a) (Item.name b).

(** The loop over the names [fs.readdir] returned. *)
Fixpoint collectItems (currentPath : string) (names : list string)
  (items : list ItemInfo) : prog (list ItemInfo) :=
  match names with
  | [] => mret items
  | item :: rest =>
      let itemPath := Path.join [currentPath; item] in
      info ← getItemInfo itemPath item;
      collectItems currentPath rest (items ++ [info])
  end.

(** [GET /]: the [try] block, then the handler with its [catch]. *)
Definition listBody (queryPath : option string) : prog response :=
  let requestPath := orEmpty queryPath in
  currentPath ← lift (safePath [requestPath]);
  names ← await (Readdir currentPath);
  items ← collectItems currentPath names [];
  let items := sort compareItems items in
  mret (Render items (Path.relative cwd STORAGE_DIR currentPath)).

Definition listDirectory (queryPath : option string) : prog response :=
  tryCatch (listBody queryPath)
    (fun error => mret (Send 500 "Error reading directory")).

(** The loop over the uploaded files, each a name and its content. *)
Fixpoint uploadFiles (targetDir : string) (files : list (string * string))
  : prog unit :=
  match files with
  | [] => mret tt
  | (fileName, data) :: rest =>
      let sanitizedName := sanitize fileName in
      let targetPath := Path.join [targetDir; sanitizedName] in
      _ ← await (Mv data targetPath);
      uploadFiles targetDir rest
  end.

(** [POST /upload] *)
Definition uploadBody (queryPath : option string)
  (files : list (string * string)) : prog response :=
  match files with
  | [] => mret (Send 400 "No files were uploaded.")
  | _ =>
      targetDir ← lift (safePath [orEmpty queryPath]);
      _ ← uploadFiles targetDir files;
      mret (Send 200 "Files uploaded successfully")
  end.

Definition upload (queryPath : option string) (files : list (string * string))
  : prog response :=
  tryCatch (uploadBody queryPath files)
    (fun error => mret (Send 500 "Error uploading files")).

Definition quote : string := String (ascii_of_nat 34) EmptyString.

Definition mimeOrDefault (filePath : string) : string :=
  match mimeLookup filePath with
  | Some m => m
  | None => "application/octet-stream"
  end.

(** [GET /download] *)
Definition downloadBody (queryPath : option string) : prog response :=
  filePath ← lift (safePath [orEmpty queryPath]);
  stats ← await (Stat filePath);
  if negb (isFile stats) then mret (Send 400 "Not a file")
  else
    let mimeType := mimeOrDefault filePath in
    let disposition :=
      "attachment; filename=" +:+ quote +:+ Path.basename filePath +:+ quote in
    stream ← call (CreateReadStream filePath);
    mret (Pipe mimeType (Some disposition) stream).

Definition download (queryPath : option string) : prog response :=
  tryCatch (downloadBody queryPath)
    (fun error => mret (Send 500 "Error downloading file")).

(** [GET /preview] *)
Definition previewBody (queryPath : option string) : prog response :=
  p ← lift (needString "path" queryPath);
  filePath ← lift (safePath [p]);
  stats ← await (Stat filePath);
  if negb (isFile stats) then mret (Send 400 "Not a file")
  else
    let mimeType := mimeOrDefault filePath in
    if (Js.startsWith mimeType "text/" || Js.startsWith mimeType "image/"
        || Js.includes mimeType "javascript")
       && (size stats <? 5 * 1024 * 1024)%N
    then
      content ← await (ReadFile filePath);
      mret (SendContent mimeType content)
    else
      stream ← call (CreateReadStream filePath);
      mret (Pipe mimeType None stream).

Definition preview (queryPath : option string) : prog response :=
  tryCatch (previewBody queryPath)
    (fun error => mret (Send 500 "Error generating preview")).

(** [POST /move] *)
Definition moveBody (source target : option string) : prog response :=
  if falsy source || falsy target
  then mret (Send 400 "Source and target paths are required")
  else
    let source := orEmpty source in
    let target := orEmpty target in
    sourcePath ← lift (safePath [source]);
    sourceStats ← await (Stat sourcePath);
    let sourceBasename := Path.basename sourcePath in
    targetPath ← lift (safePath [target; sourceBasename]);
    targetDir ← lift (safePath [target]);
    targetStats ← await (Stat targetDir);
    if negb (isDirectory targetStats)
    then mret (Send 400 "Target must be a directory")
    else
      destinationExists ← call (ExistsSync targetPath);
      if (destinationExists : bool)
      then mret (Send 409
        "A file or folder with this name already exists in the destination")
      else
        _ ← await (Rename sourcePath targetPath);
        mret (Send 200 "Item moved successfully").

Definition moveCatch (error : exn) : prog response :=
  if Js.includes (message error) "Path traversal"
  then mret (Send 403 "Invalid path")
  else if bool_decide (errorCode error = Some "EXDEV")
  then mret (Send 500 "Cannot move files between different drives")
  else mret (Send 500 "Error moving item").

Definition moveItem (source target : option string) : prog response :=
  tryCatch (moveBody source target) moveCatch.

(** [POST /delete] *)
Definition deleteBody (bodyPath : option string) : prog response :=
  p ← lift (needString "path" bodyPath);
  itemPath ← lift (safePath [p]);
  stats ← await (Stat itemPath);
  _ ← (if isDirectory stats then await (Rm itemPath)
       else await (Unlink itemPath));
  mret (Send 200 "Item deleted successfully").

Definition deleteItem (bodyPath : option string) : prog response :=
  tryCatch (deleteBody bodyPath)
    (fun error => mret (Send 500 "Error deleting item")).

(** [POST /create-folder] *)
Definition createFolderBody (name parentPath : option string)
  : prog response :=
  if falsy name then mret (Send 400 "Folder name is required")
  else
    let sanitizedName := sanitize (orEmpty name) in
    if Js.isEmpty sanitizedName then mret (Send 400 "Invalid folder name")
    else
      folderPath ← lift (safePath [orEmpty parentPath; sanitizedName]);
      folderExists ← call (ExistsSync folderPath);
      if (folderExists : bool) then mret (Send 409 "Folder already exists")
      else
        _ ← await (Mkdir folderPath);
        mret (Send 200 "Folder created successfully").

Definition createFolderCatch (error : exn) : prog response :=
  if Js.includes (message error) "Path traversal"
  then mret (Send 403 "Invalid folder location")
  else mret (Send 500 "Error creating folder").

Definition createFolder (name parentPath : option string) : prog response :=
  tryCatch (createFolderBody name parentPath) createFolderCatch.

(** [POST /rename] *)
Definition renameBody (oldPath newName : option string) : prog response :=
  newName ← lift (needString "Input must be string" newName);
  let sanitizedName := sanitize newName in
  oldPath ← lift (needString "path" oldPath);
  oldFullPath ← lift (safePath [oldPath]);
  newFullPath ← lift (safePath [Path.dirname oldPath; sanitizedName]);
  _ ← await (Rename oldFullPath newFullPath);
  mret (Send 200 "Item renamed successfully").

Definition renameItem (oldPath newName : option string) : prog response :=
  tryCatch (renameBody oldPath newName)
    (fun error => mret (Send 500 "Error renaming item")).

End Handlers.

(** ** A filesystem

    One device, no links: a finite map from the segments of an absolute
    path to the node found there.  Modification times come from a clock that
    ticks at every change; the times of parent directories are left alone. *)

Module Fs.

Inductive Node :=
| File (content : string) (mtime : Z)
| Dir (mtime : Z).

Abbreviation Tree := (gmap (list string) Node).

Record World := {
  tree : Tree;
  clock : Z
}.

(** The path walk: empty and [.] segments are skipped, [..] steps back. *)
Definition walk (p : string) : list string :=
  rev (Path.normSegs false [] (Js.split p)).

Definition statsOf (n : Node) : Stats :=
  match n with
  | File content m =>
      {| isDirectory := false; isFile := true;
         size := N.of_nat (String.length content); mtime := m |}
  | Dir m =>
      {| isDirectory := true; isFile := false; size := 4096; mtime := m |}
  end.

Definition isFileAt (t : Tree) (c : list string) : bool :=
  match t !! c with Some (File _ _) => true | _ => false end.

(** Some proper ancestor of [c] is a file. *)
Definition underFile (t : Tree) (c : list string) : bool :=
  existsb (fun k => isFileAt t (take k c)) (seq 0 (length c)).

(** The error for a path that leads nowhere. *)
Definition absent (t : Tree) (c : list string) : errno :=
  if underFile t c then ENOTDIR else ENOENT.

Definition parentOf (c : list string) : option (list string * string) :=
  match rev c with
  | [] => None
  | x :: r => Some (rev r, x)
  end.

Definition children (t : Tree) (c : list string) : list string :=
  omap (fun kv : list string * Node =>
          match parentOf kv.1 with
          | Some (pc, x) => if bool_decide (pc = c) then Some x else None
          | None => None
          end) (map_to_list t).

Definition failed {A : Type} (code : errno) (syscall p : string) : result A :=
  Err (SystemError code syscall p None).

Definition stat (p : string) (t : Tree) : result Stats :=
  match t !! walk p with
  | Some n => Ok (statsOf n)
  | None => failed (absent t (walk p)) "stat" p
  end.

Definition readdir (p : string) (t : Tree) : result (list string) :=
  match t !! walk p with
  | Some (Dir _) => Ok (children t (walk p))
  | Some (File _ _) => failed ENOTDIR "scandir" p
  | None => failed (absent t (walk p)) "scandir" p
  end.

Definition existsSync (p : string) (t : Tree) : bool :=
  bool_decide (is_Some (t !! walk p)).

(** The key of an entry once the subtree at [ca] has moved to [cb]. *)
Definition retarget (ca cb k : list string) : list string :=
  if bool_decide (ca `prefix_of` k) then cb ++ drop (length ca) k else k.

Definition moved (ca cb : list string) (t : Tree) : Tree :=
  list_to_map
    (map (fun kv : list string * Node => (retarget ca cb kv.1, kv.2))
       (map_to_list (filter (fun kv : list string * Node =>
                               ¬ cb `prefix_of` kv.1) t))).

Definition renameTree (oldPath newPath : string) (t : Tree) : result Tree :=
  let ca := walk oldPath in
  let cb := walk newPath in
  let fail {A} code : result A :=
    Err (SystemError code "rename" oldPath (Some newPath)) in
  match t !! ca with
  | None => fail (absent t ca)
  | Some na =>
      if bool_decide (ca = cb) then Ok t
      else if bool_decide (ca `prefix_of` cb) then fail EINVAL
      else
        match parentOf cb with
        | None => fail EINVAL
        | Some (pc, _) =>
            match t !! pc with
            | None => fail (absent t pc)
            | Some (File _ _) => fail ENOTDIR
            | Some (Dir _) =>
                match na, t !! cb with
                | Dir _, Some (File _ _) => fail ENOTDIR
                | File _ _, Some (Dir _) => fail EISDIR
                | Dir _, Some (Dir _) =>
                    match children t cb with
                    | [] => Ok (moved ca cb t)
                    | _ => fail ENOTEMPTY
                    end
                | _, _ => Ok (moved ca cb t)
                end
            end
        end
  end.

(** The directories [mkdir -p] adds: every missing non-empty prefix. *)
Definition addDirs (now : Z) (c : list string) (t : Tree) : Tree :=
  fold_left (fun t k =>
               match t !! take k c with
               | None => <[take k c := Dir now]> t
               | Some _ => t
               end) (seq 1 (length c)) t.

Definition mkdirTree (now : Z) (syscall p : string) (t : Tree) : result Tree :=
  let c := walk p in
  if isFileAt t c then failed EEXIST syscall p
  else if underFile t c then failed ENOTDIR syscall p
  else Ok (addDirs now c t).

Definition rmTree (p : string) (t : Tree) : result Tree :=
  let c := walk p in
  match t !! c with
  | None => failed (absent t c) "rm" p
  | Some _ =>
      Ok (filter (fun kv : list string * Node => ¬ c `prefix_of` kv.1) t)
  end.

Definition unlinkTree (p : string) (t : Tree) : result Tree :=
  let c := walk p in
  match t !! c with
  | None => failed (absent t c) "unlink" p
  | Some (Dir _) => failed EISDIR "unlink" p
  | Some (File _ _) => Ok (delete c t)
  end.

Definition readFile (syscall p : string) (t : Tree) : result string :=
  match t !! walk p with
  | Some (File content _) => Ok content
  | Some (Dir _) => failed EISDIR syscall p
  | None => failed (absent t (walk p)) syscall p
  end.

(** [file.mv(dest)] with [createParentPath]: the parent directories are
    made, then the file is written over whatever file is there. *)
Definition mvTree (now : Z) (data dest : string) (t : Tree) : result Tree :=
  let c := walk dest in
  match parentOf c with
  | None => failed EISDIR "open" dest
  | Some (pc, _) =>
      if isFileAt t pc || underFile t pc then failed ENOTDIR "mkdir" dest
      else
        let t := addDirs now pc t in
        match t !! c with
        | Some (Dir _) => failed EISDIR "open" dest
        | _ => Ok (<[c := File data now]> t)
        end
  end.

(** A change of the tree: on success the clock ticks. *)
Definition change (r : result Tree) (w : World) : result unit * World :=
  match r with
  | Ok t => (Ok tt, {| tree := t; clock := clock w + 1 |})
  | Err e => (Err e, w)
  end.

(** The filesystem answering on its own, nothing else acting on it. *)
Definition os : oracle World :=
  fun X ev =>
    match ev in fsE X return World -> X * World with
    | Stat p => fun w => (stat p (tree w), w)
    | Readdir p => fun w => (readdir p (tree w), w)
    | ExistsSync p => fun w => (existsSync p (tree w), w)
    | Rename a b => fun w => change (renameTree a b (tree w)) w
    | Mkdir p => fun w => change (mkdirTree (clock w) "mkdir" p (tree w)) w
    | Rm p => fun w => change (rmTree p (tree w)) w
    | Unlink p => fun w => change (unlinkTree p (tree w)) w
    | ReadFile p => fun w => (readFile "open" p (tree w), w)
    | CreateReadStream p => fun w => (readFile "open" p (tree w), w)
    | Mv data dest => fun w => change (mvTree (clock w) data dest (tree w)) w
    end.

(** Every segment of a key is a name. *)
Definition plain (s : string) : bool :=
  negb (Js.isEmpty s) && negb (String.eqb s ".") && negb (String.eqb s "..")
  && negb (Js.has_slash s).

(** A key is well formed when its segments are names and its parent is a
    directory of the tree. *)
Definition wfKey (t : Tree) (k : list string) : bool :=
  forallb plain k
  && match parentOf k with
     | None => true
     | Some (pc, _) =>
         match t !! pc with Some (Dir _) => true | _ => false end
     end.

Definition wf (t : Tree) : Prop :=
  map_Forall (fun k _ => wfKey t k = true) t.

End Fs.

(** ** A concrete host and tree *)

Module Demo.

(** Comparison by code units, standing in for the collation of the host's
    locale. *)
Definition codeUnitCompare (a b : string) : Z :=
  match String.compare a b with
  | Lt => (-1)%Z
  | Eq => 0%Z
  | Gt => 1%Z
  end.

#[export] Instance host : Host := {|
  STORAGE_DIR := "/srv/storage";
  cwd := "/srv";
  sanitize := Sanitize.sanitize;
  localeCompare := codeUnitCompare;
  toLocaleString := fun t => decimal (Z.to_N t);
  mimeLookup := fun _ => None
|}.

Definition tree : Fs.Tree :=
  list_to_map
    [ ([], Fs.Dir 0);
      (["srv"], Fs.Dir 0);
      (["srv"; "storage"], Fs.Dir 0);
      (["srv"; "storage"; "b.txt"], Fs.File "hello" 1);
      (["srv"; "storage"; "docs"], Fs.Dir 2);
      (["srv"; "storage"; "a.txt"], Fs.File "hi" 3);
      (["srv"; "storage"; "docs"; "a.txt"], Fs.File "report" 4);
      (["srv"; "storage"; "Zed"], Fs.Dir 5);
      (["srv"; "storage2"], Fs.Dir 6);
      (["srv"; "storage2"; "secret.txt"], Fs.File "secret" 7) ].

Definition world : Fs.World := {| Fs.tree := tree; Fs.clock := 10 |}.

(** The same host with [STORAGE_DIR] set in the environment to the same
    directory, written with a separator at its end. *)
Definition trailing : Host := {|
  STORAGE_DIR := "/srv/storage/";
  cwd := "/srv";
  sanitize := Sanitize.sanitize;
  localeCompare := codeUnitCompare;
  toLocaleString := fun t => decimal (Z.to_N t);
  mimeLookup := fun _ => None
|}.

End Demo.


(** ** Vocabulary of the statements *)

(** The byte count scaled by [1024 ^ k], in tenths, rounded to the nearest
    tenth and up on a tie. *)
Definition tenths (bytes : N) (k : nat) : N :=
  ((20 * bytes + 1024 ^ N.of_nat k) / (2 * 1024 ^ N.of_nat k))%N.


(** A call of [fs.stat] that was answered with an error. *)
Definition statFailed (e : entry) : bool :=
  match e with
  | @Entry X ev answer =>
      match ev in fsE X return X -> bool with
      | Stat _ => fun a => match a with Err _ => true | Ok _ => false end
      | _ => fun _ => false
      end answer
  end.

(** A comparator that orders: the sign flips with the operands, and
    "not after" is transitive. *)
Definition consistentOrder (cmp : string -> string -> Z) : Prop :=
  (forall a b, Z.sgn (cmp a b) = (- Z.sgn (cmp b a))%Z) /\
  (forall a b c, (cmp a b <= 0)%Z -> (cmp b c <= 0)%Z -> (cmp a c <= 0)%Z).

Section Ordering.
Context `{Host}.

Definition byName (a b : ItemInfo) : Prop :=
  (localeCompare (Item.name a) (Item.name b) <= 0)%Z.

(** Directories first, then files, each group ascending by name. *)
Definition directoriesFirstByName (items : list ItemInfo) : Prop :=
  exists dirs files,
    items = dirs ++ files /\
    Forall (fun i => Item.type i = "directory") dirs /\
    Forall (fun i => Item.type i = "file") files /\
    StronglySorted byName dirs /\
    StronglySorted byName files.

End Ordering.

Module Racing.
Import Demo.

(** The filesystem with another request in flight: its removal of
    [a.txt] lands right after a directory has been read. *)
Definition racing : oracle Fs.World :=
  fun X ev w =>
    let '(x, w1) := Fs.os X ev w in
    (x, match ev with
        | Readdir _ =>
            {| Fs.tree := delete ["srv"; "storage"; "a.txt"] (Fs.tree w1);
               Fs.clock := Fs.clock w1 |}
        | _ => w1
        end).

End Racing.

Module Op.
(** The operations, each with the arguments its route reads. *)
Inductive request :=
| List (path : option string)
| Upload (path : option string) (files : list (string * string))
| Download (path : option string)
| Preview (path : option string)
| Move (source target : option string)
| Delete (path : option string)
| CreateDirectory (name parent : option string)
| Rename (oldPath newName : option string).
End Op.
Abbreviation request := Op.request.

Section Requests.
Context `{Host}.

(** The [try] block of the operation's handler. *)
Definition body (req : request) : prog response :=
  match req with
  | Op.List p => listBody p
  | Op.Upload p files => uploadBody p files
  | Op.Download p => downloadBody p
  | Op.Preview p => previewBody p
  | Op.Move s t => moveBody s t
  | Op.Delete p => deleteBody p
  | Op.CreateDirectory n p => createFolderBody n p
  | Op.Rename o n => renameBody o n
  end.

(** The handler. *)
Definition handle (req : request) : prog response :=
  match req with
  | Op.List p => listDirectory p
  | Op.Upload p files => upload p files
  | Op.Download p => download p
  | Op.Preview p => preview p
  | Op.Move s t => moveItem s t
  | Op.Delete p => deleteItem p
  | Op.CreateDirectory n p => createFolder n p
  | Op.Rename o n => renameItem o n
  end.

(** The resolutions of path arguments the operation asks of [safePath],
    once its arguments have passed the checks that come first. *)
Definition resolutions (req : request) : list (result string) :=
  match req with
  | Op.List p | Op.Download p => [safePath [orEmpty p]]
  | Op.Upload p files =>
      match files with [] => [] | _ => [safePath [orEmpty p]] end
  | Op.Preview p | Op.Delete p =>
      match p with Some p => [safePath [p]] | None => [] end
  | Op.Move s t =>
      if falsy s || falsy t then []
      else [safePath [orEmpty s];
            safePath [orEmpty t; Path.basename (resolvedPath [orEmpty s])];
            safePath [orEmpty t]]
  | Op.CreateDirectory n p =>
      if falsy n || Js.isEmpty (sanitize (orEmpty n)) then []
      else [safePath [orEmpty p; sanitize (orEmpty n)]]
  | Op.Rename o n =>
      match o, n with
      | Some o, Some n => [safePath [o]; safePath [Path.dirname o; sanitize n]]
      | _, _ => []
      end
  end.

End Requests.

(** The absolute path with the given segments. *)
Definition absOf (segments : list string) : string :=
  "/" +:+ Js.join segments.

(** The storage root is an absolute path in normal form: a separator
    before each of its segments, nothing else. *)
Definition normalizedRoot `{Host} : bool :=
  String.eqb STORAGE_DIR (absOf (Fs.walk STORAGE_DIR)).

(** Containment on segment boundaries: the segments of the storage root
    begin the segments of the path. *)
Definition insideRoot `{Host} (p : string) : bool :=
  bool_decide (Fs.walk STORAGE_DIR `prefix_of` Fs.walk p).

(** ** Notions of the proofs *)

(** An item as [getItemInfo] makes them. *)
Definition typed (i : ItemInfo) : Prop :=
  Item.type i = "directory" \/ Item.type i = "file".

(** What the stack of [normalizeString] holds: no empty segment, no dot,
    no separator. *)
Definition kept (s : string) : Prop :=
  s <> EmptyString /\ s <> "." /\ Js.has_slash s = false.

(** The stack [path.normalize] builds. *)
Definition stack (s : string) : list string :=
  Path.normSegs (negb (Js.firstIsSlash s)) [] (Js.split s).

(** Where a path string lands: from the root when it is absolute, from
    the directory [from] (its segments last-first) otherwise. *)
Definition land (from : list string) (s : string) : list string :=
  Path.normSegs false (if Js.firstIsSlash s then [] else from) (Js.split s).

(** The segments the joined arguments lead to, walking from the storage
    root (or from the filesystem root for an absolute path). *)
Definition target `{Host} (ps : list string) : list string :=
  match Path.joined ps with
  | Some j => rev (land (rev (Fs.walk STORAGE_DIR)) j)
  | None => Fs.walk STORAGE_DIR
  end.

(** Every segment of every key is a name. *)
Definition keysPlain (t : Fs.Tree) : Prop :=
  forall k n, t !! k = Some n -> Forall (fun s => Fs.plain s = true) k.

(** The characters [sanitize] keeps, before the cut to 255 bytes. *)
Definition stripped (input : string) : list ascii :=
  let s := list_ascii_of_string input in
  let s := filter (fun c => negb (Sanitize.illegal c) = true) s in
  let s := filter (fun c => negb (Sanitize.control c) = true) s in
  let s := string_of_list_ascii s in
  let s := if Sanitize.reserved s then EmptyString else s in
  let s := if Sanitize.windowsReserved s then EmptyString else s in
  list_ascii_of_string (Sanitize.stripTrailing s).

Section CreateFolder.
Context `{Host}.

(** What CreateDirectory does once the folder path is known. *)
Definition createAt (folderPath : string) : prog response :=
  folderExists ← call (ExistsSync folderPath);
  if (folderExists : bool) then mret (Send 409 "Folder already exists")
  else
    _ ← await (Mkdir folderPath);
    mret (Send 200 "Folder created successfully").

End CreateFolder.

(** ** Calls and the paths they name *)

(** The paths a filesystem call is made on. *)
Definition callPaths {X : Type} (ev : fsE X) : list string :=
  match ev with
  | Stat p | Readdir p | ExistsSync p | Mkdir p | Rm p | Unlink p
  | ReadFile p | CreateReadStream p => [p]
  | Rename oldPath newPath => [oldPath; newPath]
  | Mv _ dest => [dest]
  end.

(** A directory read answers with names: no separator in them, none
    empty, none [.] or [..]. *)
Definition answersNames {X : Type} (ev : fsE X) : X -> Prop :=
  match ev in fsE X return X -> Prop with
  | Readdir _ => fun r =>
      match r with
      | Ok names => Forall (fun n => Fs.plain n = true) names
      | Err _ => True
      end
  | _ => fun _ => True
  end.

(** The filesystem keeps [inv] and answers every call within [Q]. *)
Definition answers {W : Type} (os : oracle W) (inv : W -> Prop)
  (Q : forall X : Type, fsE X -> X -> Prop) : Prop :=
  forall (X : Type) (ev : fsE X) (w : W),
    inv w -> Q X ev (os X ev w).1 /\ inv (os X ev w).2.

Definition listsNames {W : Type} (os : oracle W) (inv : W -> Prop) : Prop :=
  answers os inv (@answersNames).

(** Every call the program can come to make, the answers being within
    [Q], is within [P]. *)
Inductive guarded {A : Type} (Q : forall X : Type, fsE X -> X -> Prop)
  (P : forall X : Type, fsE X -> Prop) : prog A -> Prop :=
| guarded_Ret (a : A) : guarded Q P (Ret a)
| guarded_Throw (e : exn) : guarded Q P (Throw e)
| guarded_Vis {X : Type} (ev : fsE X) (k : X -> prog A) :
    P X ev ->
    (forall x, Q X ev x -> guarded Q P (k x)) ->
    guarded Q P (Vis ev k).

(** A call that reads. *)
Definition reads (X : Type) (ev : fsE X) : Prop := mutates ev = false.

Definition anyAnswer (X : Type) (ev : fsE X) (x : X) : Prop := True.

Section Confined.
Context `{Host}.

(** The call names only paths that begin with the storage root. *)
Definition underRoot (X : Type) (ev : fsE X) : Prop :=
  Forall (fun p => Js.startsWith p STORAGE_DIR = true) (callPaths ev).

Definition entryUnderRoot (e : entry) : Prop :=
  match e with Entry ev _ => underRoot _ ev end.

(** [sanitize] returns a name or nothing. *)
Definition sanitizesToNames : Prop :=
  forall s, sanitize s = EmptyString \/ Fs.plain (sanitize s) = true.

End Confined.

(** The requests whose handlers only read. *)
Definition readOnly (req : request) : bool :=
  match req with
  | Op.List _ | Op.Download _ | Op.Preview _ => true
  | _ => false
  end.

(** ** Uploads *)

Section Uploads.
Context `{Host}.

(** Where an uploaded file is written. *)
Definition destination (targetDir : string) (file : string * string)
  : string :=
  Path.join [targetDir; sanitize file.1].

(** The call that writes a file, with the answer it got. *)
Definition attempt (targetDir : string) (file : string * string)
  (answer : result unit) : entry :=
  Entry (Mv file.2 (destination targetDir file)) answer.

End Uploads.

(** ** The address the server announces

    [getNetworkIP] of [server.js] and [getLocalIPv4] of the advertiser walk
    [os.networkInterfaces()] the same way and differ in the fallback. *)

Module Net.

(** [iface.family]: a string, or a number in the Node versions that
    report it so. *)
Inductive Family :=
| FamilyName (name : string)
| FamilyNumber (n : Z).

Record Iface := {
  family : Family;
  internal : bool;
  address : string
}.

(** [os.networkInterfaces()]: the interface names in the order
    [Object.keys] gives them, each with its addresses. *)
Definition Interfaces := list (string * list Iface).

(** [iface.family === "IPv4" && !iface.internal] *)
Definition external (iface : Iface) : bool :=
  match family iface with
  | FamilyName name => String.eqb name "IPv4"
  | FamilyNumber _ => false
  end && negb (internal iface).

(** The inner loop: the first address that passes the test. *)
Fixpoint scanAddresses (ifaces : list Iface) : option string :=
  match ifaces with
  | [] => None
  | iface :: rest =>
      if external iface then Some (address iface) else scanAddresses rest
  end.

(** The outer loop. *)
Fixpoint scanInterfaces (interfaces : Interfaces) : option string :=
  match interfaces with
  | [] => None
  | (_, ifaces) :: rest =>
      match scanAddresses ifaces with
      | Some found => Some found
      | None => scanInterfaces rest
      end
  end.

Definition getNetworkIP (interfaces : Interfaces) : string :=
  match scanInterfaces interfaces with
  | Some found => found
  | None => "localhost"
  end.

Definition getLocalIPv4 (interfaces : Interfaces) : string :=
  match scanInterfaces interfaces with
  | Some found => found
  | None => "127.0.0.1"
  end.

(** Every address, in the order the loops visit them. *)
Definition addresses (interfaces : Interfaces) : list Iface :=
  concat (map snd interfaces).

End Net.

(** ** The advertiser *)

Module Advertise.

(** [s.replace(/c/g, by)] for a pattern that is one code unit. *)
Fixpoint replaceAll (c : ascii) (by_ : string) (s : string) : string :=
  match s with
  | EmptyString => EmptyString
  | String a rest =>
      if Ascii.eqb a c then by_ +:+ replaceAll c by_ rest
      else String a (replaceAll c by_ rest)
  end.

Definition quot : ascii := ascii_of_nat 34.
Definition apos : ascii := ascii_of_nat 39.

Definition escapeXml (s : string) : string :=
  let s := replaceAll "&" "&amp;" s in
  let s := replaceAll "<" "&lt;" s in
  let s := replaceAll ">" "&gt;" s in
  let s := replaceAll quot "&quot;" s in
  replaceAll apos "&apos;" s.

(** What becomes of one character. *)
Definition escaped (a : ascii) : string :=
  if Ascii.eqb a "&" then "&amp;"
  else if Ascii.eqb a "<" then "&lt;"
  else if Ascii.eqb a ">" then "&gt;"
  else if Ascii.eqb a quot then "&quot;"
  else if Ascii.eqb a apos then "&apos;"
  else String a EmptyString.

Fixpoint occurs (c : ascii) (s : string) : bool :=
  match s with
  | EmptyString => false
  | String a rest => Ascii.eqb a c || occurs c rest
  end.

(** How [server.listen(port, ip)] ends: the [listening] event, with the
    port [server.address()] reports if it reports one, or the [error]
    event, with [EADDRINUSE] or another code (a [listen] that throws is
    handed to the same handler). *)
Inductive bound :=
| Listening (addressPort : option Z)
| AddressInUse
| Failed.

(** How [tryListen] ends. *)
Inductive started :=
| Advertising (port : Z)
| Exit (code : Z).

(** [attempt(port)]; [attempts] is the counter before the call.  Each
    retry is on the next port, so a function of the port says how every
    [listen] ends.  [fuel] bounds the retries. *)
Fixpoint attempt (listen : Z -> bound) (maxTries : Z) (fuel : nat)
  (attempts port : Z) : option started :=
  match fuel with
  | O => None
  | S fuel' =>
      let attempts := (attempts + 1)%Z in
      match listen port with
      | Listening addressPort =>
          let boundPort :=
            match addressPort with
            | Some p => if (p =? 0)%Z then port else p
            | None => port
            end in
          Some (Advertising boundPort)
      | AddressInUse =>
          if (attempts <? maxTries)%Z
          then attempt listen maxTries fuel' attempts (port + 1)%Z
          else Some (Exit 1)
      | Failed => Some (Exit 1)
      end
  end.

Definition tryListen (listen : Z -> bound) (startPort maxTries : Z)
  : option started :=
  attempt listen maxTries (S (Z.to_nat maxTries)) 0 startPort.

(** The number of ports [tryListen] can come to try. *)
Definition tries (maxTries : Z) : Z := Z.max 1 maxTries.

End Advertise.

(** ** The theme of the page ([public/js/theme.js]) *)

Module Theme.

Definition STORAGE_KEY : string := "vnas-theme".
Definition LIGHT_THEME : string := "light".
Definition DARK_THEME : string := "dark".

(** What [classList.add] and [localStorage.setItem] throw. *)
Inductive DOMException :=
| SyntaxError
| InvalidCharacterError
| QuotaExceededError
| SecurityError.

(** What the script reads and writes: the class list of [document.body]
    (an ordered set of tokens), [localStorage], and what
    [matchMedia("(prefers-color-scheme: light)").matches] says, if
    [window.matchMedia] is there.  Whether the browser takes a write to
    the storage is not the script's to decide: [setItemThrows key value]
    is what [localStorage.setItem(key, value)] throws on this page, if
    anything (the quota is used up, or the storage may not be written). *)
Record Page := {
  classList : list string;
  localStorage : gmap string string;
  prefersLight : option bool;
  setItemThrows : string -> string -> option DOMException
}.

(** ASCII whitespace, which no token may hold. *)
Definition whitespace (c : ascii) : bool :=
  existsb (N.eqb (N_of_ascii c)) [9; 10; 12; 13; 32]%N.

Definition hasWhitespace (token : string) : bool :=
  existsb whitespace (list_ascii_of_string token).

Definition getPreferredTheme (page : Page) : string :=
  match localStorage page !! STORAGE_KEY with
  | Some savedTheme =>
      if negb (Js.isEmpty savedTheme) then savedTheme
      else if bool_decide (prefersLight page = Some true) then LIGHT_THEME
      else DARK_THEME
  | None =>
      if bool_decide (prefersLight page = Some true) then LIGHT_THEME
      else DARK_THEME
  end.

(** [classList.remove(a, b)] for two valid tokens. *)
Definition removeTokens (a b : string) (classes : list string) : list string :=
  filter (fun t => t <> a /\ t <> b) classes.

(** [classList.add(token)] *)
Definition addToken (token : string) (classes : list string)
  : DOMException + list string :=
  if Js.isEmpty token then inl SyntaxError
  else if hasWhitespace token then inl InvalidCharacterError
  else inr (if bool_decide (token ∈ classes) then classes
            else classes ++ [token]).

(** [localStorage.setItem(key, value)]: the value is stored, or the
    exception is thrown and the storage is as it was. *)
Definition setItem (key value : string) (page : Page)
  : DOMException + gmap string string :=
  match setItemThrows page key value with
  | Some e => inl e
  | None => inr (<[key := value]> (localStorage page))
  end.

(** [applyTheme(theme)]: the exception thrown, if any, and the page left.
    Nothing is caught: an exception of [classList.add] leaves the classes
    removed, one of [setItem] leaves the class added and the storage as it
    was. *)
Definition applyTheme (theme : string) (page : Page)
  : option DOMException * Page :=
  let removed := removeTokens LIGHT_THEME DARK_THEME (classList page) in
  match addToken theme removed with
  | inl e =>
      (Some e, {| classList := removed;
                  localStorage := localStorage page;
                  prefersLight := prefersLight page;
                  setItemThrows := setItemThrows page |})
  | inr added =>
      match setItem STORAGE_KEY theme page with
      | inl e =>
          (Some e, {| classList := added;
                      localStorage := localStorage page;
                      prefersLight := prefersLight page;
                      setItemThrows := setItemThrows page |})
      | inr stored =>
          (None, {| classList := added;
                    localStorage := stored;
                    prefersLight := prefersLight page;
                    setItemThrows := setItemThrows page |})
      end
  end.

Definition toggleTheme (page : Page) : option DOMException * Page :=
  let currentTheme :=
    if bool_decide (LIGHT_THEME ∈ classList page) then LIGHT_THEME
    else DARK_THEME in
  let newTheme :=
    if String.eqb currentTheme LIGHT_THEME then DARK_THEME else LIGHT_THEME in
  applyTheme newTheme page.

(** The first step of the [DOMContentLoaded] listener. *)
Definition applyInitialTheme (page : Page) : option DOMException * Page :=
  applyTheme (getPreferredTheme page) page.

End Theme.

(** ** Notions of the statements *)

(** A string rewritten character by character. *)
Fixpoint each (f : ascii -> string) (s : string) : string :=
  match s with
  | EmptyString => EmptyString
  | String a rest => f a +:+ each f rest
  end.

(** The theme [toggleTheme] turns to. *)
Definition toggled (page : Theme.Page) : string :=
  if bool_decide (Theme.LIGHT_THEME ∈ Theme.classList page)
  then Theme.DARK_THEME else Theme.LIGHT_THEME.

(** ** The terminal: [POST /terminal] of the later [server.js]

    The route calls the synchronous functions of [fs]; they are events of
    their own here, and the handler is a tree over them as the other
    handlers are over theirs. *)

Module Terminal.

Inductive shE : Type -> Type :=
| ReaddirSync (p : string) : shE (result (list string))
| ExistsSync (p : string) : shE bool
| StatSync (p : string) : shE (result Stats)
(** [mkdirSync(p, { recursive: true })] *)
| MkdirSync (p : string) : shE (result unit)
(** [rmSync(p, { recursive: true, force: true })] *)
| RmSync (p : string) : shE (result unit)
(** [createWriteStream(p).end()]: the call returns a stream at once and
    the file is opened later.  The answer is the ['error'] event the
    stream then emits, if the open fails; the handler does not see it. *)
| CreateWriteStream (p : string) : shE (option exn).

(** The path a call is made on. *)
Definition callPath {X : Type} (ev : shE X) : string :=
  match ev with
  | ReaddirSync p | ExistsSync p | StatSync p | MkdirSync p | RmSync p
  | CreateWriteStream p => p
  end.

(** What is thrown: an error of [path] or [fs], or [new Error(message)]. *)
Inductive thrown :=
| Raised (e : exn)
| Error (message : string).

Inductive sh (A : Type) : Type :=
| Done (a : A)
| Throw (e : thrown)
| Ask {X : Type} (ev : shE X) (k : X -> sh A).
Arguments Done {A} a.
Arguments Throw {A} e.
Arguments Ask {A X} ev k.

Fixpoint bind {A B : Type} (m : sh A) (f : A -> sh B) : sh B :=
  match m with
  | Done a => f a
  | Throw e => Throw e
  | Ask ev k => Ask ev (fun x => bind (k x) f)
  end.

#[global] Instance sh_ret : MRet sh := fun A a => Done a.
#[global] Instance sh_bind : MBind sh := fun A B f m => bind m f.

Fixpoint tryCatch {A : Type} (m : sh A) (h : thrown -> sh A) : sh A :=
  match m with
  | Done a => Done a
  | Throw e => h e
  | Ask ev k => Ask ev (fun x => tryCatch (k x) h)
  end.

(** A call that returns or throws. *)
Definition sync {A : Type} (ev : shE (result A)) : sh A :=
  Ask ev (fun r => match r with Ok a => Done a | Err e => Throw (Raised e) end).

(** A call that does not throw. *)
Definition call {A : Type} (ev : shE A) : sh A := Ask ev Done.

(** A pure computation that may throw. *)
Definition lift {A : Type} (r : result A) : sh A :=
  match r with Ok a => Done a | Err e => Throw (Raised e) end.

Definition oracle (W : Type) : Type := forall X : Type, shE X -> W -> X * W.

Inductive entry : Type :=
| Entry {X : Type} (ev : shE X) (answer : X).

Fixpoint run {W A : Type} (os : oracle W) (m : sh A) (w : W)
  : (thrown + A) * W * list entry :=
  match m with
  | Done a => (inr a, w, [])
  | Throw e => (inl e, w, [])
  | Ask ev k =>
      let '(x, w1) := os _ ev w in
      let '(r, w2, log) := run os (k x) w1 in
      (r, w2, Entry ev x :: log)
  end.

(** The ['error'] event of a stream of the log. *)
Definition streamError (e : entry) : option exn :=
  match e with
  | Entry ev answer =>
      match ev in shE X return X -> option exn with
      | CreateWriteStream _ => fun error => error
      | _ => fun _ => None
      end answer
  end.

(** What no handler catches.  The route puts no listener on the stream of
    [touch], so an ['error'] event of it is thrown as an uncaught
    exception, outside the [try] of the route, and ends the process. *)
Definition uncaught (log : list entry) : list exn := omap streamError log.

(** [s.toLowerCase()] of a string of code units below 256: the letters A
    to Z, and the capital letters of Latin-1 (C0 to DE, the multiplication
    sign apart). *)
Definition lowerUnit (c : ascii) : ascii :=
  let n := N_of_ascii c in
  if ((65 <=? n) && (n <=? 90)
      || (192 <=? n) && (n <=? 222) && negb (n =? 215))%N
  then ascii_of_N (n + 32) else c.

Definition toLowerCase (s : string) : string :=
  string_of_list_ascii (map lowerUnit (list_ascii_of_string s)).

Definition newline : string := String (ascii_of_nat 10) EmptyString.

(** [items.join("\n")] *)
Fixpoint joinLines (items : list string) : string :=
  match items with
  | [] => EmptyString
  | [x] => x
  | x :: rest => x +:+ newline +:+ joinLines rest
  end.

(** The body the route answers with. *)
Inductive json :=
(** [{ output, currentPath }] *)
| Response (output currentPath : string)
(** [{ error: error.message }], for the error caught *)
| ErrorOf (error : thrown).

(** [args[0]], [None] for [undefined]; [args] itself may be absent. *)
Definition firstArg (args : option (list string)) : result (option string) :=
  match args with
  | None => Err (TypeError "args")
  | Some l => Ok (head l)
  end.

Section Route.
Context `{Host}.

(** [case "cd"] *)
Definition cd (args : option (list string)) (currentPath : string)
  : sh (string * string) :=
  first ← lift (firstArg args);
  let targetPath := orEmpty first in
  let newPath :=
    if String.eqb targetPath ".." then Path.dirname currentPath
    else if String.eqb targetPath "" then EmptyString
    else Path.join [currentPath; targetPath] in
  fullNewPath ← lift (safePath [newPath]);
  found ← call (ExistsSync fullNewPath);
  if negb found then Throw (Error "Directory does not exist")
  else
    stats ← sync (StatSync fullNewPath);
    if negb (isDirectory stats) then Throw (Error "Not a directory")
    else mret (EmptyString, newPath).

(** The cases that need a name, make one call on it and report. *)
Definition onName {X : Type} (args : option (list string))
  (currentPath : string) (required : string) (act : string -> sh X)
  (report : string) : sh (string * string) :=
  first ← lift (firstArg args);
  if falsy first then Throw (Error required)
  else
    p ← lift (safePath [currentPath; orEmpty first]);
    _ ← act p;
    mret (report +:+ orEmpty first, currentPath).

(** The [try] block. *)
Definition terminalBody (command : option string)
  (args : option (list string)) (currentPath : option string)
  : sh (string * string) :=
  current ← lift (needString "path" currentPath);
  fullPath ← lift (safePath [current]);
  command ← lift (needString "command" command);
  let command := toLowerCase command in
  if String.eqb command "ls" then
    items ← sync (ReaddirSync fullPath);
    mret (joinLines items, current)
  else if String.eqb command "cd" then cd args current
  else if String.eqb command "mkdir" then
    onName args current "Directory name required"
      (fun p => sync (MkdirSync p)) "Created directory: "
  else if String.eqb command "rm" then
    onName args current "Path required"
      (fun p => sync (RmSync p)) "Removed: "
  else if String.eqb command "pwd" then
    mret (if Js.isEmpty current then "/" else current, current)
  else if String.eqb command "touch" then
    onName args current "Filename required"
      (fun p => call (CreateWriteStream p)) "Created file: "
  else Throw (Error "Unknown command").

Definition terminal (command : option string) (args : option (list string))
  (currentPath : option string) : sh json :=
  tryCatch
    ('(output, current) ← terminalBody command args currentPath;
     mret (Response output current))
    (fun error => mret (ErrorOf error)).

(** Where a call of the log was made. *)
Definition entryPath (e : entry) : string :=
  match e with Entry ev _ => callPath ev end.

(** A path [safePath] returned. *)
Definition accepted (p : string) : Prop := exists ps, safePath ps = Ok p.

(** The calls of a [cd] that went through: [q] was there, and a directory. *)
Definition entered (q : string) (log : list entry) : Prop :=
  exists stats,
    log = [Entry (ExistsSync q) true; Entry (StatSync q) (Ok stats)] /\
    isDirectory stats = true.

End Route.

(** The open of a write stream: the file is made, or emptied. *)
Definition openTree (now : Z) (p : string) (t : Fs.Tree) : result Fs.Tree :=
  let c := Fs.walk p in
  match t !! c, Fs.parentOf c with
  | Some (Fs.Dir _), _ | _, None => Fs.failed EISDIR "open" p
  | _, Some (pc, _) =>
      match t !! pc with
      | Some (Fs.Dir _) => Ok (<[c := Fs.File EmptyString now]> t)
      | Some (Fs.File _ _) => Fs.failed ENOTDIR "open" p
      | None => Fs.failed (Fs.absent t pc) "open" p
      end
  end.

(** The filesystem of the other handlers answering these calls.  A
    removal of what is not there succeeds ([force]); the stream of [touch]
    leaves an empty file where it can open one, and emits the error of the
    open where it cannot. *)
Definition os : oracle Fs.World :=
  fun X ev =>
    match ev in shE X return Fs.World -> X * Fs.World with
    | ReaddirSync p => fun w => (Fs.readdir p (Fs.tree w), w)
    | ExistsSync p => fun w => (Fs.existsSync p (Fs.tree w), w)
    | StatSync p => fun w => (Fs.stat p (Fs.tree w), w)
    | MkdirSync p => fun w =>
        Fs.change (Fs.mkdirTree (Fs.clock w) "mkdir" p (Fs.tree w)) w
    | RmSync p => fun w =>
        match Fs.tree w !! Fs.walk p with
        | None => (Ok tt, w)
        | Some _ => Fs.change (Fs.rmTree p (Fs.tree w)) w
        end
    | CreateWriteStream p => fun w =>
        match openTree (Fs.clock w) p (Fs.tree w) with
        | Ok t => (None, {| Fs.tree := t; Fs.clock := Fs.clock w + 1 |})
        | Err e => (Some e, w)
        end
    end.

End Terminal.

(** ** The upload of a folder: [POST /upload] of the later [server.js]

    Each file comes with a path of its own in [req.body.paths]; the file
    is written below the target directory at that path, every segment of
    it sanitized, the directories above it made first. *)

Section FolderUpload.
Context `{Host}.

(** [s.endsWith(suffix)] *)
Definition endsWith (s suffix : string) : bool :=
  bool_decide (list_ascii_of_string suffix `suffix_of` list_ascii_of_string s).

(** The answer with the [Content-Type] header the handler set itself, if it
    set one. *)
Record reply := {
  contentType : option string;
  sent : response
}.

(** [filePath.split("/").map((part) => sanitize(part)).join("/")] *)
Definition sanitizedPath (filePath : string) : string :=
  Js.join (map sanitize (Js.split filePath)).

(** The loop over the files; [i] is the index of the first of [files] in
    the request, and [paths] is [req.body.paths] as an array (an absent
    field has no entry, as the array of [undefined] made for it has none
    that is a string). *)
Fixpoint uploadNested (targetDir : string) (files : list (string * string))
  (paths : list string) (i : nat) : prog unit :=
  match files with
  | [] => mret tt
  | file :: rest =>
      filePath ← lift (needString "filePath" (paths !! i));
      let targetPath := Path.join [targetDir; sanitizedPath filePath] in
      let parentDir := Path.dirname targetPath in
      parentExists ← call (ExistsSync parentDir);
      _ ← (if (parentExists : bool) then mret tt else await (Mkdir parentDir));
      _ ← await (Mv file.2 targetPath);
      uploadNested targetDir rest paths (S i)
  end.

(** The handler.  The header is set once the target directory is
    resolved, and stays on the answer the [catch] sends. *)
Definition uploadFolder (currentPath : option string)
  (files : list (string * string)) (paths : list string) : prog reply :=
  match files with
  | [] =>
      mret {| contentType := None; sent := Send 400 "No files were uploaded." |}
  | _ =>
      tryCatch
        (targetDir ← lift (safePath [orEmpty currentPath]);
         let contentType :=
           if existsb (fun f : string * string => endsWith f.1 ".js") files
           then Some "application/javascript" else None in
         tryCatch
           (_ ← uploadNested targetDir files paths 0;
            mret {| contentType := contentType;
                    sent := Send 200 "Files uploaded successfully" |})
           (fun error =>
              mret {| contentType := contentType;
                      sent := Send 500 "Error uploading files" |}))
        (fun error =>
           mret {| contentType := None;
                   sent := Send 500 "Error uploading files" |})
  end.

(** The names of a path that are left after [sanitize]. *)
Definition namesOf (filePath : string) : list string :=
  filter (fun s => s <> EmptyString) (map sanitize (Js.split filePath)).

(** The call is made at or below the directory [dir]. *)
Definition below (dir : string) (X : Type) (ev : fsE X) : Prop :=
  Forall (fun p => Fs.walk dir `prefix_of` Fs.walk p) (callPaths ev).

Definition entryBelow (dir : string) (e : entry) : Prop :=
  match e with Entry ev _ => below dir _ ev end.

End FolderUpload.

(** A segment that [sanitize] can return: nothing, or a name. *)
Definition part (s : string) : Prop := s = EmptyString \/ Fs.plain s = true.

(** ** Changes that were made *)

(** A call that changes the filesystem and was answered without an error. *)
Definition succeeded (e : entry) : bool :=
  match e with
  | @Entry X ev answer =>
      match ev in fsE X return X -> bool with
      | Rename _ _ | Mkdir _ | Rm _ | Unlink _ | Mv _ _ =>
          fun a => match a with Ok _ => true | Err _ => false end
      | _ => fun _ => false
      end answer
  end.

(** The requests whose handlers make one change at most. *)
Definition singleStep (req : request) : bool :=
  match req with
  | Op.Upload _ _ => false
  | _ => true
  end.

(** ** The launcher ([start-all.js]) *)

Module StartAll.

Definition DEFAULT_PORT : Z := 3000.

Section Ports.

(** [Number(a)] for the strings it takes to an integer, as
    [Number.isInteger] tells; [None] for the others. *)
Variable toInteger : string -> option Z.

(** The loop over [process.argv.slice(2)]. *)
Fixpoint parsePortFromArgs (argv : list string) : option Z :=
  match argv with
  | [] => None
  | a :: rest =>
      if String.eqb a "--dev" || String.eqb a "-d" then parsePortFromArgs rest
      else
        match toInteger a with
        | Some n =>
            if (0 <? n)%Z && (n <=? 65535)%Z then Some n
            else parsePortFromArgs rest
        | None => parsePortFromArgs rest
        end
  end.

(** An argument the loop returns at, and what it returns: not one of the
    two flags, and an integer from 1 to 65535. *)
Definition portArgument (a : string) (n : Z) : Prop :=
  a <> "--dev" /\ a <> "-d" /\ toInteger a = Some n /\ (1 <= n <= 65535)%Z.

(** An environment variable that is set, not empty, and holds an
    integer. *)
Definition integerOf (value : option string) : option Z :=
  match value with
  | Some s => if Js.isEmpty s then None else toInteger s
  | None => None
  end.

Definition choosePort (envAdvertisePort envPort : option string)
  (argv : list string) : Z :=
  match integerOf envAdvertisePort with
  | Some n => n
  | None =>
      match integerOf envPort with
      | Some n => n
      | None =>
          match parsePortFromArgs argv with
          | Some argPort => argPort
          | None => DEFAULT_PORT
          end
      end
  end.

End Ports.

End StartAll.

(** The tree [T] is the tree [t] with directories added on the way to
    [pc]. *)
Definition extends (t : Fs.Tree) (pc : list string) (T : Fs.Tree) : Prop :=
  forall key,
    T !! key = t !! key \/
    (t !! key = None /\ key <> [] /\ key `prefix_of` pc /\
     exists now, T !! key = Some (Fs.Dir now)).

(** * Properties *)

(** ** Strings *)

Lemma append_cons c (s t : string) : String c s +:+ t = String c (s +:+ t).
Proof. reflexivity. Qed.

Lemma append_assoc (s t u : string) : (s +:+ t) +:+ u = s +:+ (t +:+ u).
Proof. induction s as [|c s IH]; [reflexivity|]. rewrite !append_cons, IH. reflexivity. Qed.

(** ** [formatSize] *)

Lemma formatLoop_unroll q :
  formatLoop 5 q 0 =
  if Qle_bool 1024%Q q then
    if Qle_bool 1024%Q (q / 1024)%Q then
      if Qle_bool 1024%Q (q / 1024 / 1024)%Q then
        if Qle_bool 1024%Q (q / 1024 / 1024 / 1024)%Q then
          ((q / 1024 / 1024 / 1024 / 1024)%Q, 4%nat)
        else ((q / 1024 / 1024 / 1024)%Q, 3%nat)
      else ((q / 1024 / 1024)%Q, 2%nat)
    else ((q / 1024)%Q, 1%nat)
  else (q, 0%nat).
Proof.
  cbn [formatLoop units length Nat.sub Nat.ltb Nat.leb andb].
  repeat (destruct (Qle_bool _ _); cbn [andb formatLoop units length Nat.sub Nat.ltb Nat.leb]; try reflexivity).
Qed.

Lemma digit_length d : (d < 10)%N -> String.length (decimal d) = 1%nat.
Proof.
  intros Hd.
  assert (Hc : In d [0;1;2;3;4;5;6;7;8;9]%N).
  { cbn. lia. }
  cbn in Hc. intuition (subst; reflexivity).
Qed.


Lemma floor_tenths (q : Q) (bytes : N) (d : positive) :
  (q == (Z.of_N bytes # d))%Q ->
  Z.to_N (Qfloor (q * 10 + (1 # 2))%Q) = ((20 * bytes + Npos d) / (2 * Npos d))%N.
Proof.
  intros Hq.
  assert (Hf : Qfloor (q * 10 + (1 # 2))%Q
               = ((20 * Z.of_N bytes + Zpos d) / Zpos (2 * d))%Z).
  { rewrite (Qfloor_comp _ ((20 * Z.of_N bytes + Zpos d) # (2 * d))).
    - reflexivity.
    - rewrite Hq. unfold Qeq, Qplus, Qmult. cbn [Qnum Qden]. lia. }
  rewrite Hf. apply N2Z.inj.
  rewrite Z2N.id by (apply Z.div_pos; lia).
  rewrite N2Z.inj_div, N2Z.inj_add, !N2Z.inj_mul. reflexivity.
Qed.

Lemma toFixed1_tenths (q : Q) (bytes : N) (k : nat) (d : positive) :
  Npos d = (1024 ^ N.of_nat k)%N ->
  (q == (Z.of_N bytes # d))%Q ->
  toFixed1 q =
    decimal (tenths bytes k / 10) +:+ "." +:+ decimal (tenths bytes k mod 10).
Proof.
  intros Hd Hq. unfold toFixed1, tenths.
  rewrite (floor_tenths q bytes d Hq), Hd. reflexivity.
Qed.

Ltac eval_pow :=
  repeat match goal with
  | |- context [(1024 ^ N.of_nat ?k)%N] =>
      let v := eval vm_compute in (1024 ^ N.of_nat k)%N in
      change (1024 ^ N.of_nat k)%N with v
  end.

Lemma scaled_le (q : Q) (b : Z) (d : positive) :
  (q == b # d)%Q -> Qle_bool 1024%Q q = (1024 * Zpos d <=? b)%Z.
Proof.
  intros Hq. apply eq_true_iff_eq.
  rewrite Qle_bool_iff, Z.leb_le, Hq. unfold Qle. cbn [Qnum Qden]. lia.
Qed.

Lemma scaled_div (q : Q) (b : Z) (d : positive) :
  (q == b # d)%Q -> (q / 1024 == b # (d * 1024))%Q.
Proof.
  intros Hq. rewrite Hq. unfold Qeq, Qdiv, Qmult, Qinv. cbn [Qnum Qden]. lia.
Qed.

Lemma formatSize_general (bytes : N) :
  exists k : nat,
    (k <= 4)%nat /\
    (k = 4%nat \/ (bytes < 1024 ^ N.of_nat (S k))%N) /\
    (k = 0%nat \/ (1024 ^ N.of_nat k <= bytes)%N) /\
    formatSize bytes =
      decimal (tenths bytes k / 10) +:+ "." +:+ decimal (tenths bytes k mod 10)
      +:+ " " +:+ nth k units EmptyString.
Proof.
  unfold formatSize. rewrite formatLoop_unroll.
  set (q0 := inject_Z (Z.of_N bytes)).
  assert (E0 : (q0 == Z.of_N bytes # 1)%Q) by reflexivity.
  pose proof (scaled_div _ _ _ E0) as E1.
  pose proof (scaled_div _ _ _ E1) as E2.
  pose proof (scaled_div _ _ _ E2) as E3.
  pose proof (scaled_div _ _ _ E3) as E4.
  rewrite (scaled_le _ _ _ E0), (scaled_le _ _ _ E1), (scaled_le _ _ _ E2),
    (scaled_le _ _ _ E3).
  assert (Hq : forall (k : nat) (d : positive) (q : Q),
     Npos d = (1024 ^ N.of_nat k)%N -> (q == (Z.of_N bytes # d))%Q ->
     toFixed1 q +:+ " " +:+ nth k units EmptyString =
     decimal (tenths bytes k / 10) +:+ "." +:+ decimal (tenths bytes k mod 10)
      +:+ " " +:+ nth k units EmptyString).
  { intros k d q Hd Hqq. rewrite (toFixed1_tenths q bytes k d Hd Hqq).
    rewrite !append_assoc. reflexivity. }
  change (1 * 1024)%positive with 1024%positive in *.
  change (1024 * 1024)%positive with 1048576%positive in *.
  change (1048576 * 1024)%positive with 1073741824%positive in *.
  change (1073741824 * 1024)%positive with 1099511627776%positive in *.
  destruct (Z.leb_spec (1024 * 1) (Z.of_N bytes)) as [H0|H0].
  2:{ exists 0%nat.
      repeat split; [lia | right; eval_pow; lia | left; reflexivity |].
      apply (Hq 0%nat 1%positive _ eq_refl E0). }
  destruct (Z.leb_spec (1024 * 1024) (Z.of_N bytes)) as [H1|H1].
  2:{ exists 1%nat.
      repeat split; [lia | right; eval_pow; lia | right; eval_pow; lia |].
      apply (Hq 1%nat _ _ eq_refl E1). }
  destruct (Z.leb_spec (1024 * 1048576) (Z.of_N bytes)) as [H2|H2].
  2:{ exists 2%nat.
      repeat split; [lia | right; eval_pow; lia | right; eval_pow; lia |].
      apply (Hq 2%nat _ _ eq_refl E2). }
  destruct (Z.leb_spec (1024 * 1073741824) (Z.of_N bytes)) as [H3|H3].
  2:{ exists 3%nat.
      repeat split; [lia | right; eval_pow; lia | right; eval_pow; lia |].
      apply (Hq 3%nat _ _ eq_refl E3). }
  exists 4%nat.
  repeat split; [lia | left; reflexivity | right; eval_pow; lia |].
  apply (Hq 4%nat _ _ eq_refl E4).
Qed.

(** C7: [formatSize] divides the byte count by 1024 while it is at least
    1024 and a larger unit is left among B, KB, MB, GB, TB, stopping at TB;
    it prints the scaled value rounded to one decimal place (here in
    tenths: the integer part, a point, one digit) and the unit; 1536 bytes
    give "1.5 KB" and 0 bytes give "0.0 B". *)
Theorem formatSize_scales_by_1024 :
  formatSize 1536 = "1.5 KB" /\
  formatSize 0 = "0.0 B" /\
  formatSize (2048 * 1024 ^ 4) = "2048.0 TB" /\
  forall bytes : N,
    exists k : nat,
      (k <= 4)%nat /\
      (k = 4%nat \/ (bytes < 1024 ^ N.of_nat (S k))%N) /\
      (k = 0%nat \/ (1024 ^ N.of_nat k <= bytes)%N) /\
      formatSize bytes =
        decimal (tenths bytes k / 10) +:+ "." +:+
        decimal (tenths bytes k mod 10) +:+ " " +:+ nth k units EmptyString /\
      String.length (decimal (tenths bytes k mod 10)) = 1%nat.
Proof.
  split; [reflexivity |]. split; [reflexivity |]. split; [vm_compute; reflexivity |].
  intros bytes. destruct (formatSize_general bytes) as (k & Hk & Hup & Hlo & Heq).
  exists k. repeat split; try assumption.
  apply digit_length. apply N.mod_lt. lia.
Qed.

(** ** Running handler bodies *)

Section RunFacts.
Context {W : Type} (os : oracle W).

Lemma run_bind {A B : Type} (m : prog A) (f : A -> prog B) (w : W) :
  run os (m ≫= f) w =
  match run os m w with
  | (Ok a, w1, l1) =>
      match run os (f a) w1 with
      | (r, w2, l2) => (r, w2, l1 ++ l2)
      end
  | (Err e, w1, l1) => (Err e, w1, l1)
  end.
Proof.
  revert w. induction m as [a | e | X ev k IH]; intros w.
  - cbn. destruct (run os (f a) w) as [[r w2] l2]. reflexivity.
  - reflexivity.
  - change (run os (Vis ev k ≫= f) w)
      with (let '(x, w1) := os _ ev w in
            let '(r, w2, log) := run os (k x ≫= f) w1 in
            (r, w2, Entry ev x :: log)).
    cbn [run]. destruct (os X ev w) as [x w1]. rewrite IH.
    destruct (run os (k x) w1) as [[[a | e] w2] l1].
    + destruct (run os (f a) w2) as [[r w3] l2]. reflexivity.
    + reflexivity.
Qed.

Lemma run_tryCatch {A : Type} (m : prog A) (h : exn -> prog A) (w : W) :
  run os (tryCatch m h) w =
  match run os m w with
  | (Ok a, w1, l1) => (Ok a, w1, l1)
  | (Err e, w1, l1) =>
      match run os (h e) w1 with
      | (r, w2, l2) => (r, w2, l1 ++ l2)
      end
  end.
Proof.
  revert w. induction m as [a | e | X ev k IH]; intros w.
  - reflexivity.
  - cbn. destruct (run os (h e) w) as [[r w2] l2]. reflexivity.
  - cbn [run tryCatch]. destruct (os X ev w) as [x w1]. rewrite IH.
    destruct (run os (k x) w1) as [[[a | e] w2] l1].
    + reflexivity.
    + destruct (run os (h e) w2) as [[r w3] l2]. reflexivity.
Qed.

Lemma run_lift {A : Type} (r : result A) (w : W) :
  run os (lift r) w = (r, w, []).
Proof. destruct r; reflexivity. Qed.

Lemma run_await {A : Type} (ev : fsE (result A)) (w : W) :
  run os (await ev) w =
  ((os _ ev w).1, (os _ ev w).2, [Entry ev (os _ ev w).1]).
Proof.
  cbn. destruct (os _ ev w) as [[a | e] w1]; reflexivity.
Qed.

Lemma run_call {A : Type} (ev : fsE A) (w : W) :
  run os (call ev) w =
  (Ok (os _ ev w).1, (os _ ev w).2, [Entry ev (os _ ev w).1]).
Proof.
  cbn. destruct (os _ ev w) as [a w1]; reflexivity.
Qed.

Lemma run_ret {A : Type} (a : A) (w : W) : run os (mret a) w = (Ok a, w, []).
Proof. reflexivity. Qed.

End RunFacts.

Ltac run_simpl :=
  repeat (rewrite ?run_tryCatch, ?run_bind, ?run_lift, ?run_await, ?run_call,
            ?run_ret; cbn [fst snd app]).

(** ** The directory listing *)

Section Listing.
Context `{Host} {W : Type} (os : oracle W).

Lemma run_getItemInfo (itemPath baseName : string) (w : W) :
  run os (getItemInfo itemPath baseName) w =
  (match (os _ (Stat itemPath) w).1 with
   | Ok stats =>
       Ok {| Item.name := baseName;
             Item.type := if isDirectory stats then "directory" else "file";
             Item.size := if isDirectory stats then None
                          else Some (formatSize (size stats));
             Item.modified := toLocaleString (mtime stats);
             Item.path := Path.relative cwd STORAGE_DIR itemPath |}
   | Err e => Err e
   end,
   (os _ (Stat itemPath) w).2,
   [Entry (Stat itemPath) (os _ (Stat itemPath) w).1]).
Proof.
  unfold getItemInfo. rewrite run_bind, run_await.
  destruct (os _ (Stat itemPath) w) as [[stats | e] w1]; reflexivity.
Qed.

(** A failed [fs.stat] of any child ends the loop with that error. *)
Lemma collectItems_stat_failed (currentPath : string) (names : list string) :
  forall (items : list ItemInfo) (w : W) r w' log,
    run os (collectItems currentPath names items) w = (r, w', log) ->
    existsb statFailed log = true ->
    exists e, r = Err e.
Proof.
  induction names as [| item rest IH]; intros items w r w' log Hrun Hfail.
  - cbn in Hrun. injection Hrun as <- <- <-. discriminate.
  - cbn [collectItems] in Hrun. rewrite run_bind, run_getItemInfo in Hrun.
    destruct (os _ (Stat (Path.join [currentPath; item])) w) as [[stats | e] w1]
      eqn:Hstat; cbn [fst snd] in Hrun.
    + destruct (run os (collectItems currentPath rest _) w1) as [[r2 w2] l2]
        eqn:Hrest.
      injection Hrun as <- <- <-.
      cbn in Hfail. eapply IH; eauto.
    + injection Hrun as <- <- <-. eauto.
Qed.

(** What the loop returns on success: the items it was given, then one
    item per name, in the order of the names. *)
Lemma collectItems_ok (currentPath : string) (names : list string) :
  forall (items : list ItemInfo) (w : W) out w' log,
    run os (collectItems currentPath names items) w = (Ok out, w', log) ->
    exists new,
      out = items ++ new /\
      map Item.name new = names /\
      Forall (fun i => Item.type i = "directory" \/ Item.type i = "file") new.
Proof.
  induction names as [| item rest IH]; intros items w out w' log Hrun.
  - cbn in Hrun. injection Hrun as <- <- <-. exists [].
    rewrite app_nil_r. auto.
  - cbn [collectItems] in Hrun. rewrite run_bind, run_getItemInfo in Hrun.
    destruct (os _ (Stat (Path.join [currentPath; item])) w) as [[stats | e] w1]
      eqn:Hstat; cbn [fst snd] in Hrun; [| discriminate].
    destruct (run os (collectItems currentPath rest _) w1) as [[r2 w2] l2]
      eqn:Hrest.
    injection Hrun as -> <- <-.
    apply IH in Hrest as (new & -> & Hnames & Htypes).
    eexists (_ :: new). rewrite <- app_assoc. split; [reflexivity |].
    split; [cbn; congruence |].
    constructor; [| assumption].
    cbn. destruct (isDirectory stats); auto.
Qed.

End Listing.

Section ListingClaims.
Context `{Host} {W : Type} (os : oracle W).

(** C10: when the [fs.stat] of any child of the listed directory fails,
    whatever the reason and whatever else the filesystem answers, the
    listing as a whole ends in the generic error response "Error reading
    directory" with status 500; no items are rendered. *)
Theorem list_fails_when_a_child_stat_fails
  (queryPath : option string) (w w' : W) (r : result response)
  (log : list entry) :
  run os (listDirectory queryPath) w = (r, w', log) ->
  existsb statFailed log = true ->
  r = Ok (Send 500 "Error reading directory").
Proof.
  intros Hrun Hfail. unfold listDirectory in Hrun.
  rewrite run_tryCatch in Hrun. unfold listBody in Hrun.
  rewrite run_bind, run_lift in Hrun.
  destruct (safePath [orEmpty queryPath]) as [currentPath | e].
  2:{ cbn in Hrun. injection Hrun as <- <- <-. discriminate. }
  rewrite run_bind, run_await in Hrun.
  destruct (os _ (Readdir currentPath) w) as [[names | e] w1] eqn:Hread;
    cbn [fst snd] in Hrun.
  2:{ cbn in Hrun. injection Hrun as <- <- <-. discriminate. }
  rewrite run_bind in Hrun.
  destruct (run os (collectItems currentPath names []) w1)
    as [[[items | e] w2] l2] eqn:Hloop.
  - cbn in Hrun. injection Hrun as <- <- <-.
    cbn [app] in Hfail. rewrite app_nil_r in Hfail. cbn in Hfail.
    destruct (collectItems_stat_failed os _ _ _ _ _ _ _ Hloop Hfail) as [e He].
    discriminate.
  - cbn in Hrun. injection Hrun as <- <- <-. reflexivity.
Qed.

(** A rendered listing shows the sorted items of the loop, one per name
    that [fs.readdir] returned. *)
Lemma list_rendered (queryPath : option string) (w w' : W)
  (items : list ItemInfo) (current : string) (log : list entry) :
  run os (listDirectory queryPath) w = (Ok (Render items current), w', log) ->
  exists currentPath names w1 collected,
    safePath [orEmpty queryPath] = Ok currentPath /\
    os _ (Readdir currentPath) w = (Ok names, w1) /\
    items = sort compareItems collected /\
    map Item.name collected = names /\
    Forall (fun i => Item.type i = "directory" \/ Item.type i = "file")
      collected.
Proof.
  intros Hrun. unfold listDirectory in Hrun.
  rewrite run_tryCatch in Hrun. unfold listBody in Hrun.
  rewrite run_bind, run_lift in Hrun.
  destruct (safePath [orEmpty queryPath]) as [currentPath | e].
  2:{ cbn in Hrun. discriminate. }
  rewrite run_bind, run_await in Hrun.
  destruct (os _ (Readdir currentPath) w) as [[names | e] w1] eqn:Hread;
    cbn [fst snd] in Hrun.
  2:{ cbn in Hrun. discriminate. }
  rewrite run_bind in Hrun.
  destruct (run os (collectItems currentPath names []) w1)
    as [[[collected | e] w2] l2] eqn:Hloop.
  2:{ cbn in Hrun. discriminate. }
  cbn in Hrun. injection Hrun as <- <- <- <-.
  apply collectItems_ok in Hloop as (new & -> & Hnames & Htypes).
  exists currentPath, names, w1, new. cbn [app]. auto.
Qed.

End ListingClaims.

(** ** Sorting *)

Section SortFacts.
Context {A : Type} (cmp : A -> A -> Z) (P : A -> Prop).
Let le (a b : A) : Prop := (cmp a b <= 0)%Z.
Hypothesis le_total : forall a b, P a -> P b -> le a b \/ le b a.
Hypothesis le_trans :
  forall a b c, P a -> P b -> P c -> le a b -> le b c -> le a c.

Lemma insertSorted_perm (x : A) (l : list A) : insertSorted cmp x l ≡ₚ x :: l.
Proof.
  induction l as [| y l IH]; [reflexivity |].
  cbn. destruct (cmp x y <=? 0)%Z; [reflexivity |].
  rewrite IH. apply Permutation_swap.
Qed.

Lemma sort_perm (l : list A) : sort cmp l ≡ₚ l.
Proof.
  induction l as [| x l IH]; [reflexivity |].
  change (sort cmp (x :: l)) with (insertSorted cmp x (sort cmp l)).
  rewrite insertSorted_perm. by rewrite IH.
Qed.

Lemma insertSorted_sorted (x : A) (l : list A) :
  P x -> Forall P l ->
  StronglySorted le l -> StronglySorted le (insertSorted cmp x l).
Proof.
  intros Hx Hl Hs. induction Hs as [| y l Hs IH Hy]; cbn.
  - repeat constructor.
  - apply Forall_cons in Hl as [Hpy Hl].
    destruct (Z.leb_spec (cmp x y) 0) as [Hxy | Hxy].
    + constructor; [by constructor |].
      constructor; [exact Hxy |].
      rewrite Forall_forall in Hy, Hl |- *. intros z Hz.
      eapply (le_trans x y z); auto.
    + constructor; [by apply IH |].
      rewrite insertSorted_perm. constructor; [| exact Hy].
      destruct (le_total x y Hx Hpy) as [Hle | Hle];
        [unfold le in Hle; lia | exact Hle].
Qed.

Lemma sort_sorted (l : list A) : Forall P l -> StronglySorted le (sort cmp l).
Proof.
  induction l as [| x l IH]; intros Hl; [constructor |].
  apply Forall_cons in Hl as [Hx Hl].
  change (sort cmp (x :: l)) with (insertSorted cmp x (sort cmp l)).
  apply insertSorted_sorted; auto.
  by rewrite sort_perm.
Qed.

End SortFacts.

Section Order.
Context `{Host}.
Hypothesis consistent : consistentOrder localeCompare.

Lemma localeCompare_total (a b : string) :
  (localeCompare a b <= 0)%Z \/ (localeCompare b a <= 0)%Z.
Proof. destruct consistent as [Hsgn _]. specialize (Hsgn a b). lia. Qed.

Lemma compareItems_dir_dir (a b : ItemInfo) :
  Item.type a = "directory" -> Item.type b = "directory" ->
  compareItems a b = localeCompare (Item.name a) (Item.name b).
Proof. intros Ha Hb. unfold compareItems. rewrite Ha, Hb. reflexivity. Qed.

Lemma compareItems_file_file (a b : ItemInfo) :
  Item.type a = "file" -> Item.type b = "file" ->
  compareItems a b = localeCompare (Item.name a) (Item.name b).
Proof. intros Ha Hb. unfold compareItems. rewrite Ha, Hb. reflexivity. Qed.

Lemma compareItems_dir_file (a b : ItemInfo) :
  Item.type a = "directory" -> Item.type b = "file" ->
  compareItems a b = (-1)%Z.
Proof. intros Ha Hb. unfold compareItems. rewrite Ha, Hb. reflexivity. Qed.

Lemma compareItems_file_dir (a b : ItemInfo) :
  Item.type a = "file" -> Item.type b = "directory" ->
  compareItems a b = 1%Z.
Proof. intros Ha Hb. unfold compareItems. rewrite Ha, Hb. reflexivity. Qed.

(** A list sorted by the comparator splits into its directories, in name
    order, followed by its files, in name order. *)
Lemma sorted_items_split (l : list ItemInfo) :
  StronglySorted (fun a b => (compareItems a b <= 0)%Z) l ->
  Forall typed l ->
  directoriesFirstByName l.
Proof.
  induction 1 as [| a l Hs IH Ha]; intros Hty.
  - exists [], []. repeat split; constructor.
  - apply Forall_cons in Hty as [Hta Hty].
    destruct (IH Hty) as (dirs & files & -> & Hd & Hf & Hsd & Hsf).
    apply Forall_app in Ha as [Had Haf].
    destruct Hta as [Hta | Hta].
    + exists (a :: dirs), files.
      split; [reflexivity |]. split; [by constructor |].
      split; [assumption |]. split; [| assumption].
      constructor; [assumption |].
      rewrite Forall_forall in Had, Hd |- *. intros d Hin.
      specialize (Had d Hin). rewrite compareItems_dir_dir in Had; auto.
    + destruct dirs as [| d dirs].
      * exists [], (a :: files).
        split; [reflexivity |]. split; [constructor |].
        split; [by constructor |]. split; [constructor |].
        constructor; [assumption |].
        rewrite Forall_forall in Haf, Hf |- *. intros f Hin.
        specialize (Haf f Hin). rewrite compareItems_file_file in Haf; auto.
      * apply Forall_cons in Had as [Had _]. apply Forall_cons in Hd as [Hd _].
        rewrite compareItems_file_dir in Had by assumption. lia.
Qed.

Lemma compareItems_total (a b : ItemInfo) :
  typed a -> typed b ->
  (compareItems a b <= 0)%Z \/ (compareItems b a <= 0)%Z.
Proof.
  intros [Ha | Ha] [Hb | Hb].
  - rewrite !compareItems_dir_dir by assumption. apply localeCompare_total.
  - rewrite compareItems_dir_file by assumption. lia.
  - rewrite (compareItems_dir_file b a) by assumption. lia.
  - rewrite !compareItems_file_file by assumption. apply localeCompare_total.
Qed.

Lemma compareItems_trans (a b c : ItemInfo) :
  typed a -> typed b -> typed c ->
  (compareItems a b <= 0)%Z -> (compareItems b c <= 0)%Z ->
  (compareItems a c <= 0)%Z.
Proof.
  destruct consistent as [_ Htrans].
  intros [Ha | Ha] [Hb | Hb] [Hc | Hc];
    rewrite ?(compareItems_dir_dir _ _ Ha Hb), ?(compareItems_dir_dir _ _ Hb Hc),
      ?(compareItems_dir_dir _ _ Ha Hc), ?(compareItems_file_file _ _ Ha Hb),
      ?(compareItems_file_file _ _ Hb Hc), ?(compareItems_file_file _ _ Ha Hc),
      ?(compareItems_dir_file _ _ Ha Hb), ?(compareItems_dir_file _ _ Hb Hc),
      ?(compareItems_dir_file _ _ Ha Hc), ?(compareItems_file_dir _ _ Ha Hb),
      ?(compareItems_file_dir _ _ Hb Hc), ?(compareItems_file_dir _ _ Ha Hc);
    try lia; apply Htrans.
Qed.

End Order.

Section OrderClaim.
Context `{Host} {W : Type} (os : oracle W).

(** C8: a listing that succeeds shows all directories before all files,
    and within each of the two groups the entries ascend by name under the
    locale's comparison, for a comparison that is a consistent ordering. *)
Theorem list_is_ordered (queryPath : option string) (w w' : W)
  (items : list ItemInfo) (current : string) (log : list entry) :
  consistentOrder localeCompare ->
  run os (listDirectory queryPath) w = (Ok (Render items current), w', log) ->
  directoriesFirstByName items.
Proof.
  intros Hcons Hrun.
  apply list_rendered in Hrun
    as (currentPath & names & w1 & collected & _ & _ & -> & _ & Htyped).
  apply sorted_items_split.
  - apply (sort_sorted compareItems typed).
    + intros a b. by apply compareItems_total.
    + intros a b c. by apply compareItems_trans.
    + exact Htyped.
  - rewrite (sort_perm compareItems). exact Htyped.
Qed.

End OrderClaim.

Lemma codeUnitCompare_consistent : consistentOrder Demo.codeUnitCompare.
Proof.
  split.
  - intros a b. unfold Demo.codeUnitCompare.
    rewrite (String.compare_antisym b a).
    destruct (String.compare a b); reflexivity.
  - intros a b c Hab Hbc.
    assert (Hle : forall x y, (Demo.codeUnitCompare x y <= 0)%Z <-> String.le x y).
    { intros x y. unfold Demo.codeUnitCompare, String.le, String.leb.
      destruct (String.compare x y); cbn; split; intros; try lia; try done. }
    apply Hle. etrans; apply Hle; eassumption.
Qed.

Lemma list_is_ordered_witness :
  exists items,
    (run Fs.os (listDirectory (H := Demo.host) (Some EmptyString)) Demo.world).1.1
      = Ok (Render items EmptyString) /\
    directoriesFirstByName (H := Demo.host) items.
Proof.
  eexists. split; [vm_compute; reflexivity |].
  eapply (list_is_ordered (H := Demo.host) Fs.os (Some EmptyString) Demo.world).
  - exact codeUnitCompare_consistent.
  - vm_compute. reflexivity.
Defined.

Lemma list_fails_when_a_child_stat_fails_witness :
  (run Racing.racing (listDirectory (H := Demo.host) (Some EmptyString))
     Demo.world).1.1
  = Ok (Send 500 "Error reading directory").
Proof.
  destruct (run Racing.racing (listDirectory (H := Demo.host) (Some EmptyString))
              Demo.world) as [[r w'] log] eqn:Hrun.
  cbn [fst].
  apply (list_fails_when_a_child_stat_fails (H := Demo.host) Racing.racing
           (Some EmptyString) Demo.world w' r log Hrun).
  vm_compute in Hrun. injection Hrun as <- <- <-. vm_compute. reflexivity.
Defined.

(** ** The resolver in the handlers *)

Section Confinement.
Context `{Host}.

Lemma safePath_Err (paths : list string) (e : exn) :
  safePath paths = Err e -> e = TraversalError.
Proof. unfold safePath. destruct (negb _); congruence. Qed.

Lemma safePath_Ok (paths : list string) (p : string) :
  safePath paths = Ok p ->
  p = resolvedPath paths /\ Js.startsWith p STORAGE_DIR = true.
Proof.
  unfold safePath. destruct (Js.startsWith _ _) eqn:Hs; cbn; [| discriminate].
  intros [= <-]. auto.
Qed.

End Confinement.

(** Calls that do not change the tree leave the world as it is. *)
Lemma os_quiet {X : Type} (ev : fsE X) (w : Fs.World) :
  mutates ev = false -> (Fs.os X ev w).2 = w.
Proof. destruct ev; cbn; intros; try discriminate; reflexivity. Qed.

Lemma run_quiet {A : Type} (m : prog A) (w : Fs.World) :
  existsb entryMutates (run Fs.os m w).2 = false ->
  (run Fs.os m w).1.2 = w.
Proof.
  revert w. induction m as [a | e | X ev k IH]; intros w; [reflexivity.. |].
  cbn [run]. destruct (Fs.os X ev w) as [x w1] eqn:Hos.
  destruct (run Fs.os (k x) w1) as [[r w2] log] eqn:Hrun.
  cbn. intros Hq. apply orb_false_iff in Hq as [Hev Hlog].
  specialize (IH x w1). rewrite Hrun in IH. cbn in IH. rewrite (IH Hlog).
  pose proof (os_quiet ev w Hev) as Hw. rewrite Hos in Hw. exact Hw.
Qed.

Section Short.
Context `{Host} {W : Type} (os : oracle W).

Lemma failed_resolution_body (req : request) (w : W) :
  (exists e, In (Err e) (resolutions req)) ->
  exists r w' log,
    run os (body req) w = (Err r, w', log) /\
    existsb entryMutates log = false /\
    ((log = [] /\ r = TraversalError /\ w' = w) \/
     (exists source target sp,
        req = Op.Move (Some source) (Some target) /\
        safePath [source] = Ok sp /\
        w' = (os _ (Stat sp) w).2 /\
        log = [Entry (Stat sp) (os _ (Stat sp) w).1] /\
        r = match (os _ (Stat sp) w).1 with
            | Ok _ => TraversalError
            | Err e => e
            end)).
Proof.
  intros [e Hin].
  assert (Hin' : In (Err TraversalError) (resolutions req)).
  { assert (He : e = TraversalError); [| by subst].
    destruct req as [p | p [| f files] | p | [p |] | s t | [p |] | n p | [o |] [n |]];
      cbn in Hin;
      repeat match goal with
      | H : context [if ?c then _ else _] |- _ => destruct c; cbn in H
      end;
      repeat match goal with
      | H : _ \/ _ |- _ => destruct H
      | H : False |- _ => destruct H
      | H : safePath ?ps = Err ?e |- _ => exact (safePath_Err ps e H)
      end. }
  clear e Hin. rename Hin' into Hin.
  destruct req as [p | p files | p | p | s t | p | n p | o n]; cbn in Hin.
  - destruct Hin as [Hin | []].
    exists TraversalError, w, []. split; [| auto].
    cbn [body]. unfold listBody. run_simpl. by rewrite Hin.
  - destruct files as [| f files]; [destruct Hin |].
    destruct Hin as [Hin | []].
    exists TraversalError, w, []. split; [| auto].
    cbn [body]. unfold uploadBody. run_simpl. by rewrite Hin.
  - destruct Hin as [Hin | []].
    exists TraversalError, w, []. split; [| auto].
    cbn [body]. unfold downloadBody. run_simpl. by rewrite Hin.
  - destruct p as [p |]; [| destruct Hin].
    destruct Hin as [Hin | []].
    exists TraversalError, w, []. split; [| auto].
    cbn [body]. unfold previewBody. run_simpl. cbn [needString].
    run_simpl. by rewrite Hin.
  - cbn [body]. unfold moveBody.
    destruct (falsy s || falsy t) eqn:Hfalsy; [destruct Hin |].
    destruct s as [s |]; [| discriminate]. destruct t as [t |];
      [| cbn in Hfalsy; rewrite orb_true_r in Hfalsy; discriminate].
    cbn [orEmpty] in *.
    destruct (safePath [s]) as [sp | e1] eqn:Hs.
    + assert (Htarget : safePath [t; Path.basename sp] = Err TraversalError
                        \/ safePath [t] = Err TraversalError).
      { apply safePath_Ok in Hs as [Hsp _]. rewrite <- Hsp in Hin.
        destruct Hin as [Hin | [Hin | [Hin | []]]]; [discriminate | |]; auto. }
      exists (match (os _ (Stat sp) w).1 with Ok _ => TraversalError | Err e => e end),
        (os _ (Stat sp) w).2, [Entry (Stat sp) (os _ (Stat sp) w).1].
      split; [| split; [reflexivity |]].
      * run_simpl.
        destruct (os _ (Stat sp) w) as [[ss | e2] w1]; cbn [fst snd]; [| reflexivity].
        run_simpl.
        destruct Htarget as [Ht | Ht].
        -- rewrite Ht. reflexivity.
        -- destruct (safePath [t; Path.basename sp]) as [tp | e3] eqn:Htp.
           ++ run_simpl. rewrite Ht. reflexivity.
           ++ rewrite (safePath_Err _ _ Htp). reflexivity.
      * right. exists s, t, sp. auto.
    + exists TraversalError, w, []. split; [| auto].
      run_simpl. by rewrite (safePath_Err _ _ Hs).
  - destruct p as [p |]; [| destruct Hin].
    destruct Hin as [Hin | []].
    exists TraversalError, w, []. split; [| auto].
    cbn [body]. unfold deleteBody. run_simpl. cbn [needString].
    run_simpl. by rewrite Hin.
  - cbn [body]. unfold createFolderBody.
    destruct (falsy n) eqn:Hn; cbn [orb] in Hin; [destruct Hin |].
    destruct (Js.isEmpty (sanitize (orEmpty n))) eqn:Hsan; [destruct Hin |].
    destruct Hin as [Hin | []].
    exists TraversalError, w, []. split; [| auto].
    run_simpl. by rewrite Hin.
  - destruct o as [o |]; [| destruct Hin]. destruct n as [n |]; [| destruct Hin].
    cbn [body]. unfold renameBody. run_simpl. cbn [needString]. run_simpl.
    exists TraversalError, w, []. split; [| auto].
    destruct (safePath [o]) as [op | e1] eqn:Ho.
    + destruct Hin as [Hin | [Hin | []]]; [discriminate |].
      run_simpl. by rewrite Hin.
    + by rewrite (safePath_Err _ _ Ho).
Qed.

End Short.

Section Stops.
Context `{Host}.

(** Every handler is its [try] block under a [catch] that only picks the
    error response, 403 or 500. *)
Lemma handle_catch (req : request) :
  exists catch : exn -> prog response,
    handle req = tryCatch (body req) catch /\
    forall e, exists status text,
      catch e = Ret (Send status text) /\ (status = 403 \/ status = 500)%nat.
Proof.
  destruct req; cbn [handle body];
    try (eexists; split; [reflexivity |]; intros e; do 2 eexists;
         split; [reflexivity |]; auto; fail).
  - exists moveCatch. split; [reflexivity |]. intros e. unfold moveCatch.
    destruct (Js.includes _ _); [eauto 6 |].
    destruct (bool_decide _); eauto 6.
  - exists createFolderCatch. split; [reflexivity |]. intros e.
    unfold createFolderCatch. destruct (Js.includes _ _); eauto 6.
Qed.

Lemma failed_resolution_handle {W : Type} (os : oracle W) (req : request)
  (w w' : W) (r : exn) (log : list entry) :
  run os (body req) w = (Err r, w', log) ->
  exists status text,
    run os (handle req) w = (Ok (Send status text), w', log) /\
    (status = 403 \/ status = 500)%nat.
Proof.
  intros Hbody. destruct (handle_catch req) as (catch & -> & Hcatch).
  destruct (Hcatch r) as (status & text & Hr & Hs).
  exists status, text. split; [| exact Hs].
  rewrite run_tryCatch, Hbody, Hr. cbn. by rewrite app_nil_r.
Qed.

(** C3, as the code has it: a path argument whose resolution fails, once
    the operation gets to resolve it, ends the operation in an error response
    (403 or 500) with no call that changes the filesystem, so the tree is
    left as it was.  The [try] block ends with the traversal error before
    any filesystem call, except in Move, which has already asked [fs.stat]
    about its resolved source when it resolves the target, and which ends
    with the error of that call when it failed.  The resolver itself makes
    no call. *)
Theorem failed_resolution_stops_operation {W : Type} (os : oracle W)
  (req : request) (w : W) :
  (exists e, In (Err e) (resolutions req)) ->
  (forall paths, run os (lift (safePath paths)) w = (safePath paths, w, [])) /\
  (forall w0 : Fs.World, (run Fs.os (handle req) w0).1.2 = w0) /\
  exists r w' log status text,
    run os (body req) w = (Err r, w', log) /\
    run os (handle req) w = (Ok (Send status text), w', log) /\
    (status = 403 \/ status = 500)%nat /\
    existsb entryMutates log = false /\
    ((log = [] /\ r = TraversalError /\ w' = w) \/
     (exists source target sp,
        req = Op.Move (Some source) (Some target) /\
        safePath [source] = Ok sp /\
        w' = (os _ (Stat sp) w).2 /\
        log = [Entry (Stat sp) (os _ (Stat sp) w).1] /\
        r = match (os _ (Stat sp) w).1 with
            | Ok _ => TraversalError
            | Err e => e
            end)).
Proof.
  intros Hfail. split; [intros paths; apply run_lift |]. split.
  - intros w0.
    destruct (failed_resolution_body Fs.os req w0 Hfail)
      as (r & w' & log & Hbody & Hquiet & _).
    destruct (failed_resolution_handle Fs.os req w0 w' r log Hbody)
      as (status & text & Hrun & _).
    apply run_quiet. rewrite Hrun. exact Hquiet.
  - destruct (failed_resolution_body os req w Hfail)
      as (r & w' & log & Hbody & Hquiet & Hshape).
    destruct (failed_resolution_handle os req w w' r log Hbody)
      as (status & text & Hrun & Hs).
    exists r, w', log, status, text. auto.
Qed.

End Stops.

(** C3, as stated, fails for Move: with an existing source and a target
    that leaves the root, the handler has called [fs.stat] on the source
    before the target's resolution fails. *)
Lemma move_stats_source_before_resolving_target :
  safePath (H := Demo.host) ["../.."] = Err TraversalError /\
  run Fs.os (moveItem (H := Demo.host) (Some "a.txt") (Some "../..")) Demo.world
  = (Ok (Send 403 "Invalid path"), Demo.world,
     [Entry (Stat "/srv/storage/a.txt")
        (Ok {| isDirectory := false; isFile := true; size := 2; mtime := 3 |})]).
Proof. split; vm_compute; reflexivity. Qed.

Lemma failed_resolution_stops_operation_witness :
  exists r w' log status text,
    run Fs.os (body (H := Demo.host) (Op.Move (Some "a.txt") (Some "../..")))
      Demo.world = (Err r, w', log) /\
    run Fs.os (handle (H := Demo.host) (Op.Move (Some "a.txt") (Some "../..")))
      Demo.world = (Ok (Send status text), w', log) /\
    existsb entryMutates log = false.
Proof.
  destruct (failed_resolution_stops_operation (H := Demo.host) Fs.os
              (Op.Move (Some "a.txt") (Some "../..")) Demo.world)
    as (_ & _ & r & w' & log & status & text & Hb & Hh & _ & Hq & _).
  - exists TraversalError. vm_compute. auto.
  - exists r, w', log, status, text. auto.
Defined.

(** ** Move *)

Section MoveConflict.
Context `{Host}.

(** C4, as the code has it: for a non-empty source and target, when the
    source exists, the target resolves to an existing directory and an entry
    occupies the destination (the target joined with the base name of the
    source), Move answers 409, makes no call that changes the filesystem
    (in particular no rename), and the tree is as before. *)
Theorem move_conflict_leaves_tree (source target : string) (w : Fs.World)
  (sourcePath targetPath targetDir : string) (sourceStats targetStats : Stats) :
  source <> EmptyString ->
  target <> EmptyString ->
  safePath [source] = Ok sourcePath ->
  Fs.stat sourcePath (Fs.tree w) = Ok sourceStats ->
  safePath [target; Path.basename sourcePath] = Ok targetPath ->
  safePath [target] = Ok targetDir ->
  Fs.stat targetDir (Fs.tree w) = Ok targetStats ->
  isDirectory targetStats = true ->
  Fs.existsSync targetPath (Fs.tree w) = true ->
  exists log,
    run Fs.os (moveItem (Some source) (Some target)) w
    = (Ok (Send 409
        "A file or folder with this name already exists in the destination"),
       w, log) /\
    existsb entryMutates log = false.
Proof.
  intros Hs Ht Hsp Hss Htp Htd Hts Hdir Hex.
  unfold moveItem, moveBody. rewrite run_tryCatch.
  assert (Hf : falsy (Some source) || falsy (Some target) = false).
  { cbn. destruct source, target; try contradiction; reflexivity. }
  rewrite Hf. cbn [orEmpty].
  rewrite run_bind, run_lift, Hsp.
  rewrite run_bind, run_await. cbn [Fs.os fst snd]. rewrite Hss.
  rewrite run_bind, run_lift, Htp.
  rewrite run_bind, run_lift, Htd.
  rewrite run_bind, run_await. cbn [Fs.os fst snd]. rewrite Hts, Hdir.
  cbn [negb]. rewrite run_bind, run_call. cbn [Fs.os fst snd]. rewrite Hex.
  eexists. split; reflexivity.
Qed.

End MoveConflict.

Lemma move_conflict_leaves_tree_witness :
  exists log,
    run Fs.os (moveItem (H := Demo.host) (Some "docs/a.txt") (Some ".")) Demo.world
    = (Ok (Send 409
        "A file or folder with this name already exists in the destination"),
       Demo.world, log) /\
    existsb entryMutates log = false.
Proof.
  eapply (move_conflict_leaves_tree (H := Demo.host) "docs/a.txt" "." Demo.world);
    try discriminate; vm_compute; reflexivity.
Defined.

(** C4, as stated, fails when the target is the root given as the empty
    path: the source exists, the target resolves to the existing root
    directory, [a.txt] is already there, and the answer is 400. *)
Lemma move_to_empty_target_is_not_a_conflict :
  safePath (H := Demo.host) ["docs/a.txt"] = Ok "/srv/storage/docs/a.txt" /\
  Fs.existsSync "/srv/storage/docs/a.txt" Demo.tree = true /\
  safePath (H := Demo.host) [EmptyString] = Ok "/srv/storage" /\
  Fs.stat "/srv/storage" Demo.tree
  = Ok {| isDirectory := true; isFile := false; size := 4096; mtime := 0 |} /\
  safePath (H := Demo.host) [EmptyString; "a.txt"] = Ok "/srv/storage/a.txt" /\
  Fs.existsSync "/srv/storage/a.txt" Demo.tree = true /\
  run Fs.os (moveItem (H := Demo.host) (Some "docs/a.txt") (Some EmptyString))
    Demo.world
  = (Ok (Send 400 "Source and target paths are required"), Demo.world, []).
Proof. repeat split; vm_compute; reflexivity. Qed.

(** ** Splitting and joining at separators *)

Module PathFacts.
Import Js Path.

Lemma append_nil_r (s : string) : s +:+ EmptyString = s.
Proof. induction s as [| c s IH]; [reflexivity |]. by rewrite append_cons, IH. Qed.

Lemma split_nonempty (s : string) : split s <> [].
Proof.
  induction s as [| c s IH]; cbn; [discriminate |].
  destruct (is_slash c); [discriminate |]. destruct (split s); discriminate.
Qed.

Lemma split_cons_slash (s : string) : split (String "/" s) = EmptyString :: split s.
Proof. reflexivity. Qed.

Lemma split_app_slash (a b : string) :
  split (a +:+ "/" +:+ b) = split a ++ split b.
Proof.
  induction a as [| c a IH].
  - reflexivity.
  - rewrite append_cons. cbn [split]. rewrite IH.
    destruct (is_slash c); [reflexivity |].
    pose proof (split_nonempty a) as Hne.
    destruct (split a) as [| h t]; [contradiction | reflexivity].
Qed.

Lemma split_no_slash (s : string) : has_slash s = false -> split s = [s].
Proof.
  unfold has_slash. induction s as [| c s IH]; cbn; [reflexivity |].
  intros Hs. apply orb_false_iff in Hs as [Hc Hs].
  rewrite Hc, (IH Hs). reflexivity.
Qed.

Lemma split_join (l : list string) :
  l <> [] -> Forall (fun s => has_slash s = false) l -> split (Js.join l) = l.
Proof.
  induction l as [| x l IH]; [contradiction |]. intros _ Hl.
  apply Forall_cons in Hl as [Hx Hl].
  destruct l as [| y l].
  - cbn. by apply split_no_slash.
  - change (Js.join (x :: y :: l)) with (x +:+ "/" +:+ Js.join (y :: l)).
    rewrite split_app_slash, (split_no_slash x Hx), IH; [reflexivity | discriminate | assumption].
Qed.

Lemma has_slash_cons (c : ascii) (s : string) :
  has_slash (String c s) = is_slash c || has_slash s.
Proof. reflexivity. Qed.

Lemma split_segments_no_slash (s : string) :
  Forall (fun x => has_slash x = false) (split s).
Proof.
  induction s as [| c s IH]; cbn.
  - constructor; [reflexivity | constructor].
  - destruct (is_slash c) eqn:Hc.
    + constructor; [reflexivity | assumption].
    + destruct (split s) as [| h t]; [repeat constructor; cbn; by rewrite Hc |].
      apply Forall_cons in IH as [Hh Ht]. constructor; [| assumption].
      rewrite has_slash_cons, Hc, Hh. reflexivity.
Qed.

Lemma firstIsSlash_app (a b : string) :
  a <> EmptyString -> firstIsSlash (a +:+ b) = firstIsSlash a.
Proof. destruct a; [contradiction | reflexivity]. Qed.

Lemma isEmpty_true (s : string) : isEmpty s = true <-> s = EmptyString.
Proof. destruct s; cbn; split; congruence. Qed.

Lemma isEmpty_false (s : string) : isEmpty s = false <-> s <> EmptyString.
Proof. destruct s; cbn; split; congruence. Qed.

Lemma join_empty (l : list string) :
  Forall (fun s => s <> EmptyString) l -> Js.join l = EmptyString -> l = [].
Proof.
  destruct l as [| x l]; [reflexivity |]. intros Hl Hj.
  apply Forall_cons in Hl as [Hx _]. destruct l as [| y l].
  - cbn in Hj. contradiction.
  - change (Js.join (x :: y :: l)) with (x +:+ "/" +:+ Js.join (y :: l)) in Hj.
    destruct x; [contradiction | discriminate].
Qed.

(** The string prefix relation. *)
Lemma prefix_app (a b : string) : String.prefix a (a +:+ b) = true.
Proof.
  induction a as [| c a IH]; [by destruct b |].
  rewrite append_cons. cbn. destruct (ascii_dec c c); [exact IH | contradiction].
Qed.

Lemma prefix_split (a s : string) :
  String.prefix a s = true -> exists b, s = a +:+ b.
Proof.
  revert s. induction a as [| c a IH]; intros s Hp.
  - exists s. reflexivity.
  - destruct s as [| d s]; [discriminate |]. cbn in Hp.
    destruct (ascii_dec c d) as [<- |]; [| discriminate].
    destruct (IH s Hp) as [b ->]. exists b. reflexivity.
Qed.

Lemma prefix_trans_app (a s b : string) :
  String.prefix a s = true -> String.prefix a (s +:+ b) = true.
Proof.
  intros Hp. destruct (prefix_split a s Hp) as [t ->].
  rewrite append_assoc. apply prefix_app.
Qed.

(** ** Normalization on segments *)

Lemma plain_spec (s : string) :
  Fs.plain s = true <->
  s <> EmptyString /\ s <> "." /\ s <> ".." /\ has_slash s = false.
Proof.
  unfold Fs.plain. rewrite !andb_true_iff, !negb_true_iff.
  rewrite isEmpty_false, !String.eqb_neq. tauto.
Qed.

Lemma step_push (b : bool) (acc : list string) (seg : string) :
  seg <> EmptyString -> seg <> "." -> seg <> ".." -> step b acc seg = seg :: acc.
Proof.
  intros H1 H2 H3. unfold step.
  apply String.eqb_neq in H1, H2, H3. by rewrite H1, H2, H3.
Qed.

Lemma step_plain (b : bool) (acc : list string) (seg : string) :
  Fs.plain seg = true -> step b acc seg = seg :: acc.
Proof. intros (H1 & H2 & H3 & _)%plain_spec. by apply step_push. Qed.

Lemma normSegs_app (b : bool) (acc l1 l2 : list string) :
  normSegs b acc (l1 ++ l2) = normSegs b (normSegs b acc l1) l2.
Proof. apply fold_left_app. Qed.

Lemma normSegs_cons (b : bool) (acc l : list string) (seg : string) :
  normSegs b acc (seg :: l) = normSegs b (step b acc seg) l.
Proof. reflexivity. Qed.

Lemma normSegs_snoc (b : bool) (acc l : list string) (seg : string) :
  normSegs b acc (l ++ [seg]) = step b (normSegs b acc l) seg.
Proof. by rewrite normSegs_app. Qed.

Lemma normSegs_plain (acc l : list string) (b : bool) :
  Forall (fun s => Fs.plain s = true) l -> normSegs b acc l = rev l ++ acc.
Proof.
  revert acc. induction l as [| x l IH]; intros acc Hl; [reflexivity |].
  apply Forall_cons in Hl as [Hx Hl].
  rewrite normSegs_cons, (step_plain _ _ _ Hx), (IH _ Hl).
  cbn [rev]. by rewrite <- app_assoc.
Qed.

(** What the stack holds: in a path from the root, names only. *)
Lemma step_false_plain (acc : list string) (seg : string) :
  Forall (fun s => Fs.plain s = true) acc -> has_slash seg = false ->
  Forall (fun s => Fs.plain s = true) (step false acc seg).
Proof.
  intros Hacc Hseg. unfold step.
  destruct (String.eqb_spec seg EmptyString) as [-> | H1]; [assumption |].
  destruct (String.eqb_spec seg ".") as [-> | H2]; [assumption |]. cbn [orb].
  destruct (String.eqb_spec seg "..") as [-> | H3].
  - destruct acc as [| top rest]; [constructor |].
    apply Forall_cons in Hacc as [Htop Hrest].
    destruct (String.eqb top ".."); [by constructor | assumption].
  - constructor; [| assumption]. apply plain_spec. auto.
Qed.

Lemma normSegs_false_plain (acc l : list string) :
  Forall (fun s => Fs.plain s = true) acc ->
  Forall (fun s => has_slash s = false) l ->
  Forall (fun s => Fs.plain s = true) (normSegs false acc l).
Proof.
  revert acc. induction l as [| x l IH]; intros acc Hacc Hl; [assumption |].
  apply Forall_cons in Hl as [Hx Hl]. rewrite normSegs_cons.
  apply IH; [by apply step_false_plain | assumption].
Qed.

(** In a relative path the stack may also hold [..]; never an empty
    segment, a dot or a separator. *)
Lemma step_kept (b : bool) (acc : list string) (seg : string) :
  Forall kept acc -> has_slash seg = false -> Forall kept (step b acc seg).
Proof.
  intros Hacc Hseg. unfold step.
  destruct (String.eqb_spec seg EmptyString) as [-> | H1]; [assumption |].
  destruct (String.eqb_spec seg ".") as [-> | H2]; [assumption |]. cbn [orb].
  destruct (String.eqb_spec seg "..") as [-> | H3].
  - destruct acc as [| top rest].
    + destruct b; repeat constructor; discriminate.
    + pose proof Hacc as Hacc'. apply Forall_cons in Hacc' as [Htop Hrest].
      destruct (String.eqb top "..").
      * destruct b; [| assumption]. constructor; [| assumption].
        repeat split; discriminate.
      * assumption.
  - constructor; [| assumption]. repeat split; assumption.
Qed.

Lemma normSegs_kept (b : bool) (acc l : list string) :
  Forall kept acc -> Forall (fun s => has_slash s = false) l ->
  Forall kept (normSegs b acc l).
Proof.
  revert acc. induction l as [| x l IH]; intros acc Hacc Hl; [assumption |].
  apply Forall_cons in Hl as [Hx Hl]. rewrite normSegs_cons.
  apply IH; [by apply step_kept | assumption].
Qed.

(** Walking from a directory along a relative path gives the same as
    walking along its normal form: one step. *)
Lemma step_commutes (t acc : list string) (seg : string) :
  Forall kept t ->
  normSegs false acc (rev (step true t seg))
  = step false (normSegs false acc (rev t)) seg.
Proof.
  intros Ht. unfold step at 1.
  destruct (String.eqb_spec seg EmptyString) as [-> | H1]; [reflexivity |].
  destruct (String.eqb_spec seg ".") as [-> | H2]; [reflexivity |]. cbn [orb].
  destruct (String.eqb_spec seg "..") as [-> | H3].
  - destruct t as [| top rest]; [reflexivity |].
    apply Forall_cons in Ht as [(Ht1 & Ht2 & _) Hrest].
    destruct (String.eqb_spec top "..") as [-> | Htop].
    + cbn [rev]. by rewrite !normSegs_snoc.
    + cbn [rev]. rewrite normSegs_snoc.
      rewrite (step_push false _ top Ht1 Ht2 Htop).
      unfold step at 1. cbn.
      apply String.eqb_neq in Htop. by rewrite Htop.
  - cbn [rev]. by rewrite normSegs_snoc.
Qed.

Lemma normSegs_commutes (l t acc : list string) :
  Forall kept t -> Forall (fun s => has_slash s = false) l ->
  normSegs false acc (rev (normSegs true t l))
  = normSegs false (normSegs false acc (rev t)) l.
Proof.
  revert t. induction l as [| seg l IH]; intros t Ht Hl; [reflexivity |].
  apply Forall_cons in Hl as [Hseg Hl].
  rewrite !normSegs_cons, IH; [| by apply step_kept | assumption].
  by rewrite step_commutes.
Qed.

(** The walk of a relative path and of its normal form agree. *)
Lemma normSegs_relative (l acc : list string) :
  Forall (fun s => has_slash s = false) l ->
  normSegs false acc (rev (normSegs true [] l)) = normSegs false acc l.
Proof. intros Hl. by rewrite normSegs_commutes. Qed.

(** So do the walks from the root of an absolute path and of its normal
    form. *)
Lemma normSegs_absolute (l : list string) :
  Forall (fun s => has_slash s = false) l ->
  normSegs false [] (rev (normSegs false [] l)) = normSegs false [] l.
Proof.
  intros Hl. rewrite (normSegs_plain [] (rev _) false).
  - by rewrite rev_involutive, app_nil_r.
  - apply Forall_rev. by apply normSegs_false_plain.
Qed.

(** ** [path.normalize], [path.join] and [path.resolve] on segments *)

Lemma kept_no_slash (t : list string) :
  Forall kept t -> Forall (fun s => has_slash s = false) t.
Proof. intros Ht. eapply Forall_impl; [exact Ht |]. by intros s (_ & _ & Hs). Qed.

Lemma kept_nonempty (t : list string) :
  Forall kept t -> Forall (fun s => s <> EmptyString) t.
Proof. intros Ht. eapply Forall_impl; [exact Ht |]. by intros s (Hs & _). Qed.

Lemma plain_kept (t : list string) :
  Forall (fun s => Fs.plain s = true) t -> Forall kept t.
Proof.
  intros Ht. eapply Forall_impl; [exact Ht |].
  intros s (H1 & H2 & _ & H4)%plain_spec. by repeat split.
Qed.

Lemma normSegs_snoc_empty (b : bool) (acc l : list string) :
  normSegs b acc (l ++ [EmptyString]) = normSegs b acc l.
Proof. by rewrite normSegs_snoc. Qed.

Lemma split_trailing (s : string) : split (s +:+ "/") = split s ++ [EmptyString].
Proof.
  change (s +:+ "/") with (s +:+ "/" +:+ EmptyString). apply split_app_slash.
Qed.

Lemma firstIsSlash_no_slash (s : string) :
  has_slash s = false -> firstIsSlash s = false.
Proof.
  destruct s as [| c s]; [reflexivity |]. rewrite has_slash_cons.
  intros Hs. by apply orb_false_iff in Hs as [Hc _].
Qed.

Lemma firstIsSlash_join (l : list string) :
  Forall kept l -> firstIsSlash (Js.join l) = false.
Proof.
  destruct l as [| x l]; [reflexivity |]. intros Hl.
  apply Forall_cons in Hl as [(Hne & _ & Hs) _].
  destruct l as [| y l].
  - by apply firstIsSlash_no_slash.
  - change (Js.join (x :: y :: l)) with (x +:+ "/" +:+ Js.join (y :: l)).
    rewrite firstIsSlash_app by assumption. by apply firstIsSlash_no_slash.
Qed.

Lemma stack_kept (s : string) : Forall kept (stack s).
Proof.
  apply normSegs_kept; [constructor | apply split_segments_no_slash].
Qed.

Lemma normalize_cases (s : string) :
  s <> EmptyString ->
  (stack s = [] /\
   normalize s = if firstIsSlash s then "/"
                 else if lastIsSlash s then "./" else ".") \/
  (stack s <> [] /\
   normalize s =
     (if firstIsSlash s then "/" else EmptyString)
     +:+ Js.join (rev (stack s))
     +:+ (if lastIsSlash s then "/" else EmptyString)).
Proof.
  intros Hs. unfold normalize.
  apply isEmpty_false in Hs. rewrite Hs. unfold normalizeString. fold (stack s).
  destruct (isEmpty (Js.join (rev (stack s)))) eqn:Hp.
  - left. split; [| reflexivity].
    apply isEmpty_true, join_empty in Hp.
    + by apply (f_equal (@rev string)) in Hp; rewrite rev_involutive in Hp.
    + apply kept_nonempty, Forall_rev, stack_kept.
  - right. split.
    + intros Ht. rewrite Ht in Hp. discriminate.
    + destruct (firstIsSlash s), (lastIsSlash s); cbn [append];
        rewrite ?append_nil_r; reflexivity.
Qed.

Lemma append_nil_l (s : string) : EmptyString +:+ s = s.
Proof. reflexivity. Qed.

Lemma append_eq_empty (a b : string) : a +:+ b = EmptyString -> a = EmptyString.
Proof. destruct a; [reflexivity | discriminate]. Qed.

Lemma stack_join_nonempty (s : string) :
  stack s <> [] -> Js.join (rev (stack s)) <> EmptyString.
Proof.
  intros Hne Hj. apply join_empty in Hj.
  - apply Hne. by apply (f_equal (@rev string)) in Hj; rewrite rev_involutive in Hj.
  - apply kept_nonempty, Forall_rev, stack_kept.
Qed.

Lemma normalize_nonempty (s : string) : normalize s <> EmptyString.
Proof.
  destruct s as [| c s]; [discriminate |].
  destruct (normalize_cases (String c s)) as [[_ ->] | [Hne ->]]; [discriminate | |].
  - destruct (firstIsSlash _); [discriminate |]. destruct (lastIsSlash _); discriminate.
  - destruct (firstIsSlash _); [rewrite append_cons; discriminate |].
    rewrite append_nil_l. intros Hj%append_eq_empty.
    by apply (stack_join_nonempty _ Hne).
Qed.

Lemma firstIsSlash_normalize (s : string) :
  s <> EmptyString -> firstIsSlash (normalize s) = firstIsSlash s.
Proof.
  intros Hs. destruct (normalize_cases s Hs) as [[_ ->] | [Hne ->]].
  - destruct (firstIsSlash s); [reflexivity |]. by destruct (lastIsSlash s).
  - destruct (firstIsSlash s); [reflexivity |].
    rewrite append_nil_l.
    rewrite firstIsSlash_app by (by apply stack_join_nonempty).
    apply firstIsSlash_join, Forall_rev, stack_kept.
Qed.

Lemma split_normalize (s : string) (acc : list string) :
  s <> EmptyString ->
  normSegs false acc (split (normalize s)) = normSegs false acc (rev (stack s)).
Proof.
  intros Hs. destruct (normalize_cases s Hs) as [[Ht ->] | [Hne ->]].
  - rewrite Ht. destruct (firstIsSlash s); [reflexivity |].
    by destruct (lastIsSlash s).
  - assert (Hsplit : split (Js.join (rev (stack s))) = rev (stack s)).
    { apply split_join.
      - intros Hr. apply Hne.
        by apply (f_equal (@rev string)) in Hr; rewrite rev_involutive in Hr.
      - apply kept_no_slash, Forall_rev, stack_kept. }
    destruct (firstIsSlash s), (lastIsSlash s);
      rewrite ?append_nil_r, ?append_nil_l, ?append_cons, ?append_nil_l,
        ?split_cons_slash, ?split_trailing, ?Hsplit, ?normSegs_cons,
        ?normSegs_snoc_empty; reflexivity.
Qed.

Lemma land_normalize (from : list string) (s : string) :
  s <> EmptyString -> land from (normalize s) = land from s.
Proof.
  intros Hs. unfold land. rewrite (firstIsSlash_normalize s Hs).
  rewrite split_normalize by assumption. unfold stack.
  destruct (firstIsSlash s); cbn [negb].
  - apply normSegs_absolute, split_segments_no_slash.
  - apply normSegs_relative, split_segments_no_slash.
Qed.

Lemma land_plain (from : list string) (s : string) :
  Forall (fun x => Fs.plain x = true) from ->
  Forall (fun x => Fs.plain x = true) (land from s).
Proof.
  intros Hfrom. unfold land. apply normSegs_false_plain.
  - destruct (firstIsSlash s); [constructor | assumption].
  - apply split_segments_no_slash.
Qed.

Lemma walk_plain (s : string) : Forall (fun x => Fs.plain x = true) (Fs.walk s).
Proof.
  unfold Fs.walk. apply Forall_rev, normSegs_false_plain;
    [constructor | apply split_segments_no_slash].
Qed.

Lemma split_absOf (cs : list string) :
  Forall (fun x => Fs.plain x = true) cs ->
  normSegs false [] (split (absOf cs)) = rev cs.
Proof.
  intros Hcs. unfold absOf. rewrite append_cons, append_nil_l.
  rewrite split_cons_slash, normSegs_cons. change (step false [] EmptyString) with (@nil string).
  destruct cs as [| c cs]; [reflexivity |].
  rewrite split_join; [| discriminate | by apply kept_no_slash, plain_kept].
  rewrite (normSegs_plain [] _ false Hcs). by rewrite app_nil_r.
Qed.

Lemma walk_absOf (cs : list string) :
  Forall (fun x => Fs.plain x = true) cs -> Fs.walk (absOf cs) = cs.
Proof.
  intros Hcs. unfold Fs.walk. rewrite split_absOf by assumption.
  apply rev_involutive.
Qed.

Lemma resolve_root (cwd : string) (rc : list string) (n : string) :
  Forall (fun x => Fs.plain x = true) rc ->
  n <> EmptyString ->
  resolve cwd [absOf rc; n] = absOf (rev (land (rev rc) n)).
Proof.
  intros Hrc Hn. unfold resolve, land. cbn [rev app resolveLoop].
  apply isEmpty_false in Hn. rewrite Hn.
  destruct (firstIsSlash n) eqn:Habs.
  - unfold normalizeString, absOf.
    by rewrite split_app_slash, normSegs_snoc_empty.
  - change (isEmpty (absOf rc)) with false. cbn iota.
    change (firstIsSlash (absOf rc)) with true. cbn iota.
    unfold normalizeString.
    rewrite !split_app_slash, !normSegs_app, split_absOf by assumption.
    reflexivity.
Qed.

End PathFacts.

(** ** The resolver on segments *)

Module ResolverFacts.
Import Js Path PathFacts.

Lemma join_app (l1 l2 : list string) :
  l1 <> [] -> l2 <> [] ->
  Js.join (l1 ++ l2) = Js.join l1 +:+ "/" +:+ Js.join l2.
Proof.
  induction l1 as [| x l1 IH]; [contradiction |]. intros _ Hl2.
  destruct l1 as [| y l1].
  - destruct l2; [contradiction | reflexivity].
  - change (Js.join ((x :: y :: l1) ++ l2))
      with (x +:+ "/" +:+ Js.join ((y :: l1) ++ l2)).
    rewrite IH by (discriminate || assumption).
    change (Js.join (x :: y :: l1)) with (x +:+ "/" +:+ Js.join (y :: l1)).
    by rewrite !append_assoc.
Qed.

Lemma prefix_refl (s : string) : String.prefix s s = true.
Proof. rewrite <- (append_nil_r s) at 2. apply prefix_app. Qed.

Lemma absOf_prefix (rc cs : list string) :
  rc `prefix_of` cs -> String.prefix (absOf rc) (absOf cs) = true.
Proof.
  intros [k ->]. unfold absOf.
  destruct k as [| x k]; [rewrite app_nil_r; apply prefix_refl |].
  destruct rc as [| r rc]; [apply (prefix_app "/") |].
  rewrite join_app by discriminate.
  rewrite <- append_assoc. apply prefix_app.
Qed.

Lemma joined_nonempty (ps : list string) (j : string) :
  joined ps = Some j -> j <> EmptyString.
Proof.
  revert j. induction ps as [| p ps IH]; intros j; cbn; [discriminate |].
  destruct (isEmpty p) eqn:Hp; [apply IH |].
  apply isEmpty_false in Hp.
  destruct (joined ps); intros [= <-]; [| assumption].
  destruct p; [contradiction | discriminate].
Qed.

Section Root.
Context `{Host}.
Hypothesis Hroot : normalizedRoot = true.

Lemma root_absOf : STORAGE_DIR = absOf (Fs.walk STORAGE_DIR).
Proof. by apply String.eqb_eq. Qed.

Lemma target_plain (ps : list string) :
  Forall (fun x => Fs.plain x = true) (target ps).
Proof.
  unfold target. destruct (joined ps).
  - apply Forall_rev, land_plain, Forall_rev, walk_plain.
  - apply walk_plain.
Qed.

Lemma resolvedPath_target (ps : list string) :
  resolvedPath ps = absOf (target ps).
Proof.
  unfold resolvedPath, target, Path.join. rewrite root_absOf at 1.
  destruct (joined ps) as [j |] eqn:Hj.
  - rewrite resolve_root; [| apply walk_plain | apply normalize_nonempty].
    rewrite !land_normalize;
      [reflexivity | by eapply joined_nonempty | apply normalize_nonempty].
  - rewrite resolve_root; [| apply walk_plain | discriminate].
    change (normalize ".") with ".". unfold land. cbn.
    by rewrite rev_involutive.
Qed.

Lemma walk_resolvedPath (ps : list string) :
  Fs.walk (resolvedPath ps) = target ps.
Proof. rewrite resolvedPath_target. apply walk_absOf, target_plain. Qed.

Lemma safePath_inside (ps : list string) :
  Fs.walk STORAGE_DIR `prefix_of` target ps ->
  safePath ps = Ok (absOf (target ps)).
Proof.
  intros Hin. unfold safePath. rewrite resolvedPath_target.
  unfold startsWith. rewrite root_absOf at 1.
  by rewrite (absOf_prefix _ _ Hin).
Qed.

Lemma safePath_walk (ps : list string) (p : string) :
  safePath ps = Ok p -> p = absOf (target ps) /\ Fs.walk p = target ps.
Proof.
  intros [-> _]%safePath_Ok. split;
    [apply resolvedPath_target | apply walk_resolvedPath].
Qed.

End Root.
End ResolverFacts.

Section Inside.
Context `{Host}.
Import ResolverFacts.


End Inside.



(** C1, at the input where the code leaves it: beside the root
    [/srv/storage] lies [/srv/storage2]; the path [../storage2/secret.txt]
    resolves to a file in it, which is not inside the root on a segment
    boundary, and the resolver accepts it since the root is a prefix of the
    string; the listing of [../storage2] then shows the file. *)
Theorem safePath_accepts_sibling_with_root_as_prefix :
  resolvedPath (H := Demo.host) ["../storage2/secret.txt"]
  = "/srv/storage2/secret.txt" /\
  insideRoot (H := Demo.host) "/srv/storage2/secret.txt" = false /\
  safePath (H := Demo.host) ["../storage2/secret.txt"]
  = Ok "/srv/storage2/secret.txt" /\
  (run Fs.os (listDirectory (H := Demo.host) (Some "../storage2")) Demo.world).1.1
  = Ok (Render
          [{| Item.name := "secret.txt"; Item.type := "file";
              Item.size := Some "6.0 B"; Item.modified := "7";
              Item.path := "../storage2/secret.txt" |}]
          "../storage2").
Proof. repeat split; vm_compute; reflexivity. Qed.

(** ** The tree *)

Module FsFacts.
Import Fs.

Lemma parentOf_snoc (c : list string) (x : string) :
  parentOf (c ++ [x]) = Some (c, x).
Proof. unfold parentOf. by rewrite rev_unit, rev_involutive. Qed.

Lemma parentOf_Some (k pc : list string) (x : string) :
  parentOf k = Some (pc, x) -> k = pc ++ [x].
Proof.
  unfold parentOf. destruct (rev k) as [| y r] eqn:Hr; [discriminate |].
  intros [= <- <-]. apply (f_equal (@rev string)) in Hr.
  rewrite rev_involutive in Hr. by rewrite Hr.
Qed.

(** The names [readdir] returns are the last segments of the keys right
    under the directory. *)
Lemma elem_of_children (t : Tree) (c : list string) (x : string) :
  x ∈ children t c <-> is_Some (t !! (c ++ [x])).
Proof.
  unfold children. rewrite list_elem_of_omap. split.
  - intros ([k n] & Hin & Hf). apply elem_of_map_to_list in Hin. cbn in Hf.
    destruct (parentOf k) as [[pc y] |] eqn:Hp; [| discriminate].
    destruct (bool_decide_reflect (pc = c)) as [-> |]; [| discriminate].
    injection Hf as ->. apply parentOf_Some in Hp as ->. eauto.
  - intros [n Hn]. exists (c ++ [x], n). split.
    + by apply elem_of_map_to_list.
    + cbn. rewrite parentOf_snoc. by rewrite bool_decide_eq_true_2.
Qed.

Lemma wf_keysPlain (t : Tree) : wf t -> keysPlain t.
Proof.
  intros Hwf k n Hk. specialize (Hwf k n Hk). cbn in Hwf.
  apply andb_true_iff in Hwf as [Hp _].
  apply Forall_forall. intros s Hs. rewrite forallb_forall in Hp.
  apply Hp. by apply list_elem_of_In.
Qed.

Lemma wf_parent (t : Tree) (c : list string) (x : string) (n : Node) :
  wf t -> t !! (c ++ [x]) = Some n -> exists m, t !! c = Some (Dir m).
Proof.
  intros Hwf Hk. specialize (Hwf _ _ Hk). cbn in Hwf.
  apply andb_true_iff in Hwf as [_ Hp]. rewrite parentOf_snoc in Hp.
  destruct (t !! c) as [[? ? | m] |]; try discriminate. eauto.
Qed.

(** In a well-formed tree everything above an entry is a directory. *)
Lemma wf_ancestors (t : Tree) (c : list string) (n : Node) :
  wf t -> t !! c = Some n ->
  forall k, (k < length c)%nat -> exists m, t !! take k c = Some (Dir m).
Proof.
  intros Hwf. revert n. induction c as [| x c IH] using rev_ind; intros n Hc k Hk.
  - cbn in Hk. lia.
  - destruct (wf_parent t c x n Hwf Hc) as [m Hm].
    rewrite length_app in Hk. cbn in Hk.
    destruct (decide (k = length c)) as [-> | Hne].
    + rewrite take_app_length. eauto.
    + rewrite take_app_le by lia. eapply IH; [exact Hm | lia].
Qed.

Lemma underFile_false (t : Tree) (c : list string) :
  (forall k, (k < length c)%nat -> exists m, t !! take k c = Some (Dir m)) ->
  underFile t c = false.
Proof.
  intros Hanc. unfold underFile. apply not_true_is_false. intros Hex.
  apply existsb_exists in Hex as (k & Hin & Hfile).
  apply in_seq in Hin. destruct (Hanc k) as [m Hm]; [lia |].
  unfold isFileAt in Hfile. by rewrite Hm in Hfile.
Qed.

(** What [mkdir -p] leaves at each key. *)
Lemma addDirs_steps (now : Z) (c : list string) (ks : list nat) (t : Tree)
  (k : list string) :
  fold_left (fun t i =>
               match t !! take i c with
               | None => <[take i c := Dir now]> t
               | Some _ => t
               end) ks t !! k
  = match t !! k with
    | Some n => Some n
    | None => if bool_decide (Exists (fun i => take i c = k) ks)
              then Some (Dir now) else None
    end.
Proof.
  revert t. induction ks as [| i ks IH]; intros t; cbn [fold_left].
  - destruct (t !! k); [reflexivity |].
    rewrite bool_decide_eq_false_2; [reflexivity |]. by intros ?%Exists_nil.
  - rewrite IH. destruct (t !! take i c) as [n |] eqn:Hi.
    + destruct (t !! k) as [m |] eqn:Hk; [reflexivity |].
      apply (f_equal (fun b : bool => if b then Some (Dir now) else None)).
      apply bool_decide_ext. rewrite Exists_cons. split; [auto |].
      intros [He | ?]; [congruence | assumption].
    + destruct (decide (take i c = k)) as [<- | Hne].
      * rewrite lookup_insert_eq, Hi.
        rewrite bool_decide_eq_true_2; [reflexivity |]. by left.
      * rewrite lookup_insert_ne by assumption.
        destruct (t !! k); [reflexivity |].
        apply (f_equal (fun b : bool => if b then Some (Dir now) else None)).
        apply bool_decide_ext. rewrite Exists_cons. tauto.
Qed.

Lemma addDirs_lookup (now : Z) (c k : list string) (t : Tree) :
  addDirs now c t !! k
  = match t !! k with
    | Some n => Some n
    | None => if bool_decide (k <> [] /\ k `prefix_of` c)
              then Some (Dir now) else None
    end.
Proof.
  unfold addDirs. rewrite addDirs_steps.
  destruct (t !! k); [reflexivity |].
  apply (f_equal (fun b : bool => if b then Some (Dir now) else None)).
  apply bool_decide_ext. rewrite Exists_exists. split.
  - intros (i & Hin & <-). apply elem_of_seq in Hin. split.
    + destruct c; [cbn in Hin; lia |]. destruct i; [lia | discriminate].
    + apply prefix_take.
  - intros [Hne [rest ->]]. exists (length k). split.
    + apply elem_of_seq. rewrite length_app. destruct k; [contradiction |]. cbn. lia.
    + by rewrite take_app_length.
Qed.

Lemma addDirs_keysPlain (now : Z) (c : list string) (t : Tree) :
  keysPlain t -> Forall (fun s => plain s = true) c ->
  keysPlain (addDirs now c t).
Proof.
  intros Ht Hc k n. rewrite addDirs_lookup.
  destruct (t !! k) as [m |] eqn:Hk.
  - intros _. by eapply Ht.
  - destruct (bool_decide_reflect (k <> [] /\ k `prefix_of` c))
      as [[_ [rest ->]] |]; [| discriminate].
    intros _. by apply Forall_app in Hc as [Hk' _].
Qed.

Lemma rm_lookup (c k : list string) (t : Tree) :
  filter (fun kv : list string * Node => ¬ c `prefix_of` kv.1) t !! k
  = if bool_decide (c `prefix_of` k) then None else t !! k.
Proof.
  destruct (bool_decide_reflect (c `prefix_of` k)) as [Hp | Hp].
  - apply map_lookup_filter_None. right. intros n _. cbn. tauto.
  - destruct (t !! k) as [n |] eqn:Hk.
    + apply map_lookup_filter_Some. auto.
    + apply map_lookup_filter_None. by left.
Qed.

Lemma rm_keysPlain (c : list string) (t : Tree) :
  keysPlain t ->
  keysPlain (filter (fun kv : list string * Node => ¬ c `prefix_of` kv.1) t).
Proof.
  intros Ht k n. rewrite rm_lookup. destruct (bool_decide _); [discriminate |].
  apply Ht.
Qed.

End FsFacts.

(** ** A name under a resolved directory *)

Module ChildFacts.
Import Js Path PathFacts ResolverFacts.

Section Child.
Context `{Host}.
Hypothesis Hroot : normalizedRoot = true.

Lemma plain_no_slash (x : string) : Fs.plain x = true -> has_slash x = false.
Proof. by intros (_ & _ & _ & Hs)%plain_spec. Qed.

Lemma plain_nonempty (x : string) : Fs.plain x = true -> x <> EmptyString.
Proof. by intros (Hs & _)%plain_spec. Qed.

Lemma land_child (from : list string) (p x : string) :
  p <> EmptyString -> Fs.plain x = true ->
  land from (p +:+ "/" +:+ x) = x :: land from p.
Proof.
  intros Hp Hx. unfold land.
  rewrite firstIsSlash_app by assumption.
  rewrite split_app_slash, (split_no_slash x) by (by apply plain_no_slash).
  by rewrite normSegs_snoc, step_plain.
Qed.

Lemma land_name (from : list string) (x : string) :
  Fs.plain x = true -> land from x = x :: from.
Proof.
  intros Hx. unfold land.
  rewrite firstIsSlash_no_slash, split_no_slash by (by apply plain_no_slash).
  cbn. by rewrite step_plain.
Qed.

Lemma target_child (p x : string) :
  Fs.plain x = true -> target [p; x] = target [p] ++ [x].
Proof.
  intros Hx. unfold target. cbn [joined].
  pose proof (plain_nonempty x Hx) as Hne. apply isEmpty_false in Hne.
  rewrite Hne. destruct (isEmpty p) eqn:Hp.
  - rewrite land_name by assumption. cbn [rev]. by rewrite rev_involutive.
  - apply isEmpty_false in Hp. rewrite land_child by assumption. reflexivity.
Qed.

Lemma absOf_snoc (cs : list string) (x : string) :
  exists suffix, absOf (cs ++ [x]) = absOf cs +:+ suffix.
Proof.
  unfold absOf. destruct cs as [| c cs].
  - exists x. reflexivity.
  - exists ("/" +:+ x). rewrite join_app by discriminate.
    by rewrite !append_assoc.
Qed.

(** A name joined to an accepted path is accepted, one segment deeper. *)
Lemma safePath_child (p x cp : string) :
  safePath [p] = Ok cp -> Fs.plain x = true ->
  safePath [p; x] = Ok (absOf (Fs.walk cp ++ [x])) /\
  Fs.walk (absOf (Fs.walk cp ++ [x])) = Fs.walk cp ++ [x].
Proof.
  intros Hp Hx.
  pose proof (safePath_Ok _ _ Hp) as [_ Hstart].
  destruct (safePath_walk Hroot _ _ Hp) as [Hcp Hwalk].
  rewrite Hwalk. split.
  - unfold safePath. rewrite (resolvedPath_target Hroot), (target_child p x Hx).
    destruct (absOf_snoc (target [p]) x) as [suffix Hsuf].
    unfold startsWith in *. rewrite Hsuf, <- Hcp.
    by rewrite (prefix_trans_app _ _ _ Hstart).
  - apply walk_absOf, Forall_app. split; [apply (target_plain [p]) |].
    by repeat constructor.
Qed.

(** Resolving the joined path is resolving the arguments. *)
Lemma safePath_join (ps : list string) (j : string) :
  joined ps = Some j -> safePath [Path.join ps] = safePath ps.
Proof.
  intros Hj. unfold safePath.
  assert (Hres : resolvedPath [Path.join ps] = resolvedPath ps).
  { rewrite !(resolvedPath_target Hroot). f_equal. unfold target, Path.join.
    rewrite Hj. cbn [joined].
    pose proof (normalize_nonempty j) as Hn. apply isEmpty_false in Hn.
    rewrite Hn. rewrite land_normalize; [reflexivity |].
    by eapply joined_nonempty. }
  by rewrite Hres.
Qed.

(** The path the listing stats for a child of a resolved directory. *)
Lemma walk_join_child (cs : list string) (x : string) :
  Forall (fun s => Fs.plain s = true) cs -> Fs.plain x = true ->
  Fs.walk (Path.join [absOf cs; x]) = cs ++ [x].
Proof.
  intros Hcs Hx. unfold Path.join. cbn [joined].
  change (isEmpty (absOf cs)) with false. cbn iota.
  pose proof (plain_nonempty x Hx) as Hne. apply isEmpty_false in Hne.
  rewrite Hne.
  assert (Habs : firstIsSlash (absOf cs +:+ "/" +:+ x) = true) by reflexivity.
  unfold Fs.walk.
  pose proof (land_normalize [] (absOf cs +:+ "/" +:+ x)) as Hland.
  unfold land in Hland.
  rewrite firstIsSlash_normalize, Habs in Hland by discriminate.
  rewrite Hland by discriminate.
  rewrite split_app_slash, normSegs_app, split_absOf by assumption.
  rewrite (split_no_slash x) by (by apply plain_no_slash).
  cbn [normSegs fold_left]. rewrite step_plain by assumption.
  cbn [rev]. by rewrite rev_involutive.
Qed.

End Child.
End ChildFacts.

(** ** What [sanitize] returns *)

Module SanitizeFacts.
Import Sanitize.

Lemma truncate_cases (budget : N) (l : list ascii) :
  truncate budget l = l \/
  (budget < 2 * N.of_nat (length (truncate budget l)) + 2)%N.
Proof.
  revert budget. induction l as [| c l IH]; intros budget; [by left |].
  cbn [truncate].
  set (w := if (code c <? 128)%N then 1%N else 2%N).
  assert (Hw : (1 <= w <= 2)%N) by (unfold w; destruct (code c <? 128)%N; lia).
  destruct (N.leb_spec w budget) as [Hle | Hgt].
  - destruct (IH (budget - w)%N) as [-> | Hlong]; [by left |].
    right. cbn [length]. lia.
  - right. cbn. lia.
Qed.

Lemma truncate_prefix (budget : N) (l : list ascii) :
  truncate budget l `prefix_of` l.
Proof.
  revert budget. induction l as [| c l IH]; intros budget; [done |].
  cbn [truncate]. destruct (_ <=? _)%N.
  - by apply prefix_cons.
  - apply prefix_nil.
Qed.

Lemma dropWhile_suffix (f : ascii -> bool) (l : list ascii) :
  Path.dropWhile f l `suffix_of` l.
Proof.
  induction l as [| c l IH]; [done |]. cbn.
  destruct (f c); [by apply suffix_cons_r | done].
Qed.

Lemma dropWhile_head (f : ascii -> bool) (l : list ascii) (c : ascii)
  (rest : list ascii) :
  Path.dropWhile f l = c :: rest -> f c = false.
Proof.
  induction l as [| d l IH]; [discriminate |]. cbn.
  destruct (f d) eqn:Hd; [exact IH |]. by intros [= <- _].
Qed.

Lemma sanitize_stripped (input : string) :
  sanitize input = string_of_list_ascii (truncate 255 (stripped input)).
Proof. reflexivity. Qed.

Lemma stripTrailing_sublist (s : string) :
  list_ascii_of_string (stripTrailing s) `prefix_of` list_ascii_of_string s.
Proof.
  unfold stripTrailing. rewrite list_ascii_of_string_of_list_ascii.
  destruct (dropWhile_suffix (fun c => Ascii.eqb c "." || Ascii.eqb c " ")
              (rev (list_ascii_of_string s))) as [k Hk].
  exists (rev k). apply (f_equal (@rev ascii)) in Hk.
  rewrite rev_involutive, rev_app_distr in Hk. exact Hk.
Qed.

Lemma stripTrailing_last (s : string) (c : ascii) (front : list ascii) :
  list_ascii_of_string (stripTrailing s) = front ++ [c] -> c <> "."%char.
Proof.
  unfold stripTrailing. rewrite list_ascii_of_string_of_list_ascii.
  intros Hr. apply (f_equal (@rev ascii)) in Hr.
  rewrite rev_involutive, rev_unit in Hr.
  apply dropWhile_head in Hr. intros ->. discriminate.
Qed.

Lemma stripped_no_slash (input : string) :
  Forall (fun c => Js.is_slash c = false) (stripped input).
Proof.
  unfold stripped.
  set (l := filter _ (filter _ _)).
  assert (Hl : Forall (fun c => Js.is_slash c = false) l).
  { unfold l. apply Forall_forall. intros c Hc.
    apply list_elem_of_filter in Hc as [_ Hc].
    apply list_elem_of_filter in Hc as [Hc _].
    apply negb_true_iff in Hc. unfold Js.is_slash.
    destruct (Ascii.eqb_spec c "/") as [-> |]; [discriminate | reflexivity]. }
  assert (Hs : forall s : string,
            Forall (fun c => Js.is_slash c = false) (list_ascii_of_string s) ->
            Forall (fun c => Js.is_slash c = false)
              (list_ascii_of_string (stripTrailing s))).
  { intros s Hs. destruct (stripTrailing_sublist s) as [k Hk].
    rewrite Hk in Hs. by apply Forall_app in Hs as [Hs _]. }
  apply Hs.
  destruct (reserved _); [destruct (windowsReserved _); constructor |].
  destruct (windowsReserved _); [constructor |].
  by rewrite list_ascii_of_string_of_list_ascii.
Qed.

Lemma stripped_last (input : string) (c : ascii) (front : list ascii) :
  stripped input = front ++ [c] -> c <> "."%char.
Proof. unfold stripped. apply stripTrailing_last. Qed.

(** The sanitized name is empty or a name: no separator in it, and it is
    neither [.] nor [..]. *)
Lemma sanitize_name (input : string) :
  sanitize input = EmptyString \/ Fs.plain (sanitize input) = true.
Proof.
  rewrite sanitize_stripped.
  set (l := stripped input).
  assert (Hslash : Forall (fun c => Js.is_slash c = false) (truncate 255 l)).
  { destruct (truncate_prefix 255 l) as [k Hk].
    pose proof (stripped_no_slash input) as Hl. fold l in Hl.
    rewrite Hk in Hl. by apply Forall_app in Hl as [Hl _]. }
  assert (Hdots : truncate 255 l <> ["."%char] /\
                  truncate 255 l <> ["."%char; "."%char]).
  { destruct (truncate_cases 255 l) as [Heq | Hlong].
    - rewrite Heq. split; intros Hl.
      + by apply (stripped_last input "." []).
      + by apply (stripped_last input "." ["."%char]).
    - split; intros Hl; rewrite Hl in Hlong; cbn in Hlong; lia. }
  destruct (truncate 255 l) as [| c t] eqn:Ht; [by left |]. right.
  apply PathFacts.plain_spec. destruct Hdots as [H1 H2].
  split; [discriminate |]. split; [| split].
  - intros Hs. apply H1.
    apply (f_equal list_ascii_of_string) in Hs.
    by rewrite list_ascii_of_string_of_list_ascii in Hs.
  - intros Hs. apply H2.
    apply (f_equal list_ascii_of_string) in Hs.
    by rewrite list_ascii_of_string_of_list_ascii in Hs.
  - unfold Js.has_slash. rewrite list_ascii_of_string_of_list_ascii.
    apply not_true_is_false. intros Hex.
    apply existsb_exists in Hex as (d & Hin & Hd).
    rewrite Forall_forall in Hslash.
    rewrite (Hslash d) in Hd; [discriminate | by apply list_elem_of_In].
Qed.

End SanitizeFacts.

(** ** Sanitized names *)

Section EmptyName.
Context `{Host} {W : Type} (os : oracle W).

(** CreateDirectory checks the sanitized name. *)
Lemma createFolder_rejects_empty_name (name parent : option string) (w : W) :
  falsy name = false ->
  sanitize (orEmpty name) = EmptyString ->
  run os (createFolder name parent) w
  = (Ok (Send 400 "Invalid folder name"), w, []).
Proof.
  intros Hname Hsan. unfold createFolder, createFolderBody.
  rewrite Hname, Hsan. reflexivity.
Qed.

(** Rename does not: with the new name sanitized to nothing, the
    destination is the parent directory itself and [fs.rename] is called. *)
Lemma rename_with_empty_name_calls_fs (oldPath newName : string) (p q : string)
  (w : W) :
  sanitize newName = EmptyString ->
  safePath [oldPath] = Ok p ->
  safePath [Path.dirname oldPath; EmptyString] = Ok q ->
  exists r w',
    run os (renameItem (Some oldPath) (Some newName)) w
    = (r, w', [Entry (Rename p q) (os _ (Rename p q) w).1]).
Proof.
  intros Hsan Hp Hq. unfold renameItem, renameBody. cbn [needString].
  run_simpl. rewrite Hp. run_simpl. rewrite Hsan, Hq. run_simpl.
  destruct (os _ (Rename p q) w) as [[[] | e] w1]; cbn; eauto.
Qed.

End EmptyName.

(** C6, at the input where the code leaves it: the name [..] sanitizes
    to the empty string; CreateDirectory answers "Invalid folder name"
    without any filesystem call, while Rename calls [fs.rename] with the
    parent directory as destination and answers with the generic error of
    the failed call. *)
Theorem rename_does_not_check_for_an_empty_name :
  Sanitize.sanitize ".." = EmptyString /\
  run Fs.os (createFolder (H := Demo.host) (Some "..") None) Demo.world
  = (Ok (Send 400 "Invalid folder name"), Demo.world, []) /\
  run Fs.os (renameItem (H := Demo.host) (Some "a.txt") (Some "..")) Demo.world
  = (Ok (Send 500 "Error renaming item"), Demo.world,
     [Entry (Rename "/srv/storage/a.txt" "/srv/storage")
        (Err (SystemError EISDIR "rename" "/srv/storage/a.txt"
                (Some "/srv/storage")))]).
Proof. repeat split; vm_compute; reflexivity. Qed.

Section Stripped.
Context `{Host}.
Import ResolverFacts ChildFacts SanitizeFacts.

(** C5, as the code has it: the name is sanitized by removing separators
    and the other characters [sanitize-filename] removes, not by rejecting
    it, and only a name with nothing left is invalid; the name
    [../../etc] becomes [....etc].  When [STORAGE_DIR] is an absolute path
    in normal form and the parent is accepted by the resolver and lies
    inside the root on a segment boundary, CreateDirectory with the name
    [../../etc] asks whether [....etc] exists right under that parent,
    answers 409 if so and otherwise calls [fs.mkdir] on it there, inside
    the root, and answers 200 when the call succeeds; and for every name
    that is given it either answers "Invalid folder name" (the sanitized
    name is empty) or acts in that way on the sanitized name, one segment
    right under the parent, inside the root. *)
Theorem createFolder_strips_separators (parent : option string) (cp : string) :
  normalizedRoot = true ->
  (forall s, sanitize s = Sanitize.sanitize s) ->
  safePath [orEmpty parent] = Ok cp ->
  insideRoot cp = true ->
  sanitize "../../etc" = "....etc" /\
  insideRoot (absOf (Fs.walk cp ++ ["....etc"])) = true /\
  createFolderBody (Some "../../etc") parent
  = createAt (absOf (Fs.walk cp ++ ["....etc"])) /\
  (forall name : option string,
     falsy name = false ->
     (sanitize (orEmpty name) = EmptyString /\
      createFolderBody name parent = mret (Send 400 "Invalid folder name")) \/
     (Fs.plain (sanitize (orEmpty name)) = true /\
      insideRoot (absOf (Fs.walk cp ++ [sanitize (orEmpty name)])) = true /\
      createFolderBody name parent
      = createAt (absOf (Fs.walk cp ++ [sanitize (orEmpty name)])))).
Proof.
  intros Hroot Hsan Hcp Hin.
  assert (Hgen : forall name : option string,
     falsy name = false ->
     (sanitize (orEmpty name) = EmptyString /\
      createFolderBody name parent = mret (Send 400 "Invalid folder name")) \/
     (Fs.plain (sanitize (orEmpty name)) = true /\
      insideRoot (absOf (Fs.walk cp ++ [sanitize (orEmpty name)])) = true /\
      createFolderBody name parent
      = createAt (absOf (Fs.walk cp ++ [sanitize (orEmpty name)])))).
  { intros name Hname. unfold createFolderBody. rewrite Hname.
    destruct (sanitize_name (orEmpty name)) as [Hempty | Hplain];
      rewrite <- Hsan in *.
    - left. split; [exact Hempty |]. by rewrite Hempty.
    - right. split; [exact Hplain |].
      destruct (safePath_child Hroot (orEmpty parent) _ cp Hcp Hplain)
        as [Hfp Hwalk].
      split.
      + unfold insideRoot in *. apply bool_decide_eq_true in Hin.
        apply bool_decide_eq_true. rewrite Hwalk. by apply prefix_app_r.
      + apply PathFacts.plain_spec in Hplain as [Hne _].
        apply PathFacts.isEmpty_false in Hne. rewrite Hne, Hfp. reflexivity. }
  assert (Hetc : sanitize "../../etc" = "....etc") by (by rewrite Hsan).
  split; [exact Hetc |].
  destruct (Hgen (Some "../../etc") eq_refl) as [[Hempty _] | (_ & Hi & Hb)].
  - cbn [orEmpty] in Hempty. rewrite Hetc in Hempty. discriminate.
  - cbn [orEmpty] in Hi, Hb. rewrite Hetc in Hi, Hb. auto.
Qed.

End Stripped.

Lemma createFolder_strips_separators_witness :
  createFolderBody (H := Demo.host) (Some "../../etc") None
  = createAt "/srv/storage/....etc".
Proof.
  refine (proj1 (proj2 (proj2
    (createFolder_strips_separators (H := Demo.host) None "/srv/storage"
       _ _ _ _)))).
  - vm_compute. reflexivity.
  - reflexivity.
  - vm_compute. reflexivity.
  - vm_compute. reflexivity.
Defined.

(** C5, as stated, fails: CreateDirectory with the name [../../etc] does
    not answer "Invalid folder name"; it answers 200 and the directory
    [....etc] exists in the root afterwards. *)
Lemma createFolder_dotdot_etc_is_created :
  (run Fs.os (createFolder (H := Demo.host) (Some "../../etc") None)
     Demo.world).1.1
  = Ok (Send 200 "Folder created successfully") /\
  Fs.existsSync "/srv/storage/....etc" (Fs.tree Demo.world) = false /\
  Fs.existsSync "/srv/storage/....etc"
    (Fs.tree (run Fs.os (createFolder (H := Demo.host) (Some "../../etc") None)
                Demo.world).1.2) = true.
Proof. repeat split; vm_compute; reflexivity. Qed.

(** ** Create, list, delete, list *)

Section RoundTrip.
Context `{Host}.
Hypothesis Hroot : normalizedRoot = true.
Import Fs FsFacts PathFacts ResolverFacts ChildFacts.

Lemma accepted_absOf (ps : list string) (cp : string) :
  safePath ps = Ok cp ->
  cp = absOf (walk cp) /\ Forall (fun s => plain s = true) (walk cp).
Proof.
  intros Hcp. destruct (safePath_walk Hroot _ _ Hcp) as [Heq Hwalk].
  rewrite Hwalk. split; [exact Heq | apply (target_plain ps)].
Qed.

(** On the tree the loop of the listing succeeds: every name read from
    the directory is an entry, and its kind is the kind of the node. *)
Lemma collectItems_tree (w : World) (cs names : list string) :
  Forall (fun s => plain s = true) cs ->
  (forall n, n ∈ names ->
     plain n = true /\ is_Some (tree w !! (cs ++ [n]))) ->
  forall items : list ItemInfo,
  exists new log,
    run Fs.os (collectItems (absOf cs) names items) w = (Ok (items ++ new), w, log) /\
    map Item.name new = names /\
    Forall (fun i => Item.type i = "directory" <->
                     exists m, tree w !! (cs ++ [Item.name i]) = Some (Dir m))
      new.
Proof.
  intros Hcs. induction names as [| n names IH]; intros Hnames items.
  - exists [], []. rewrite app_nil_r. by repeat split.
  - destruct (Hnames n) as [Hn [node Hnode]]; [by left |].
    cbn [collectItems]. rewrite run_bind, run_getItemInfo.
    cbn [Fs.os fst snd]. unfold stat.
    rewrite (walk_join_child cs n Hcs Hn), Hnode.
    destruct (IH (fun x Hx => Hnames x (list_elem_of_further _ _ _ Hx))
                 (items ++ [{| Item.name := n;
                    Item.type := if isDirectory (statsOf node)
                                 then "directory" else "file";
                    Item.size := if isDirectory (statsOf node) then None
                                 else Some (formatSize (size (statsOf node)));
                    Item.modified := toLocaleString (mtime (statsOf node));
                    Item.path := Path.relative cwd STORAGE_DIR
                                   (Path.join [absOf cs; n]) |}]))
      as (new & log & Hrun & Hmap & Hty).
    rewrite Hrun. eexists (_ :: new), _. rewrite <- app_assoc.
    split; [reflexivity |]. split; [cbn; by rewrite Hmap |].
    constructor; [| exact Hty]. cbn [Item.type Item.name]. rewrite Hnode.
    destruct node as [content m | m]; cbn.
    + split; [discriminate | by intros [? ?]].
    + split; eauto.
Qed.

Lemma children_plain (t : Tree) (cs : list string) (n : string) :
  keysPlain t -> n ∈ children t cs ->
  plain n = true /\ is_Some (t !! (cs ++ [n])).
Proof.
  intros Hk Hn. apply elem_of_children in Hn as [node Hnode].
  split; [| eauto]. specialize (Hk _ _ Hnode).
  rewrite Forall_app, Forall_singleton in Hk. tauto.
Qed.

(** Listing an existing directory of the tree. *)
Lemma list_tree (queryPath : option string) (w : World) (cp : string) (m : Z) :
  safePath [orEmpty queryPath] = Ok cp ->
  tree w !! walk cp = Some (Dir m) ->
  keysPlain (tree w) ->
  exists items log,
    run Fs.os (listDirectory queryPath) w
    = (Ok (Render items (Path.relative cwd STORAGE_DIR cp)), w, log) /\
    (forall x, (exists i, i ∈ items /\ Item.name i = x) <->
               is_Some (tree w !! (walk cp ++ [x]))) /\
    (forall i, i ∈ items ->
       (Item.type i = "directory" <->
        exists m', tree w !! (walk cp ++ [Item.name i]) = Some (Dir m'))).
Proof.
  intros Hcp Hdir Hplain.
  destruct (accepted_absOf _ _ Hcp) as [Habs Hcs].
  unfold listDirectory, listBody. run_simpl. rewrite Hcp. run_simpl.
  cbn [Fs.os fst snd]. unfold readdir. rewrite Hdir. run_simpl.
  destruct (collectItems_tree w (walk cp) (children (tree w) (walk cp)) Hcs
              (fun n Hn => children_plain _ _ n Hplain Hn) [])
    as (new & log & Hrun & Hmap & Hty).
  rewrite <- Habs in Hrun. rewrite Hrun. cbn [app].
  eexists _, _. split; [reflexivity |]. split.
  - intros x. rewrite <- elem_of_children, <- Hmap, list_elem_of_fmap.
    split.
    + intros (i & Hi & Hx). exists i. split; [done |].
      by rewrite <- (sort_perm compareItems new).
    + intros (i & Hx & Hi). exists i. split; [| done].
      by rewrite (sort_perm compareItems new).
  - intros i Hi. rewrite (sort_perm compareItems new) in Hi.
    rewrite Forall_forall in Hty. by apply Hty.
Qed.


End RoundTrip.



(** ** The tree keeps its keys made of names *)

Module TreeFacts.
Import Fs FsFacts PathFacts.

Lemma retarget_plain (ca cb k : list string) :
  Forall (fun s => plain s = true) cb -> Forall (fun s => plain s = true) k ->
  Forall (fun s => plain s = true) (retarget ca cb k).
Proof.
  intros Hcb Hk. unfold retarget. destruct (bool_decide _); [| exact Hk].
  apply Forall_app. split; [exact Hcb | by apply Forall_drop].
Qed.

Lemma moved_source (ca cb k : list string) (n : Node) (t : Tree) :
  moved ca cb t !! k = Some n ->
  exists k0, t !! k0 = Some n /\ ~ cb `prefix_of` k0 /\ k = retarget ca cb k0.
Proof.
  unfold moved. intros Hk. apply elem_of_list_to_map_2 in Hk.
  apply list_elem_of_fmap in Hk as ([k0 n0] & [= -> ->] & Hin).
  apply elem_of_map_to_list in Hin.
  apply map_lookup_filter_Some in Hin as [Hin Hnot]. eauto.
Qed.

Lemma moved_keysPlain (ca cb : list string) (t : Tree) :
  keysPlain t -> Forall (fun s => plain s = true) cb ->
  keysPlain (moved ca cb t).
Proof.
  intros Ht Hcb k n (k0 & Hk0 & _ & ->)%moved_source.
  apply retarget_plain; [exact Hcb | by eapply Ht].
Qed.

Lemma renameTree_keysPlain (a b : string) (t t' : Tree) :
  keysPlain t -> renameTree a b t = Ok t' -> keysPlain t'.
Proof.
  intros Ht. unfold renameTree.
  pose proof (moved_keysPlain (walk a) (walk b) t Ht (walk_plain b)) as Hm.
  repeat case_match; intros [= <-]; assumption.
Qed.

Lemma parentOf_prefix (c pc : list string) (x : string) :
  parentOf c = Some (pc, x) -> c = pc ++ [x].
Proof. apply parentOf_Some. Qed.

Lemma mvTree_keysPlain (now : Z) (data dest : string) (t t' : Tree) :
  keysPlain t -> mvTree now data dest t = Ok t' -> keysPlain t'.
Proof.
  intros Ht. unfold mvTree.
  pose proof (walk_plain dest) as Hc.
  destruct (parentOf (walk dest)) as [[pc x] |] eqn:Hp; [| discriminate].
  apply parentOf_prefix in Hp. rewrite Hp in Hc.
  apply Forall_app in Hc as Hc'. destruct Hc' as [Hpc _].
  pose proof (addDirs_keysPlain now pc t Ht Hpc) as Ha.
  destruct (_ || _); [discriminate |].
  assert (Hins : keysPlain (<[walk dest := File data now]> (addDirs now pc t))).
  { intros k n. destruct (decide (k = walk dest)) as [-> | Hne].
    - intros _. rewrite Hp. exact Hc.
    - rewrite lookup_insert_ne by congruence. apply Ha. }
  repeat case_match; intros [= <-]; assumption.
Qed.

Lemma os_listsNames : listsNames os (fun w => keysPlain (tree w)).
Proof.
  intros X ev w Hw.
  destruct ev as [p | p | p | a b | p | p | p | p | p | data dest]; cbn [os answersNames fst snd].
  - done.
  - split; [| done]. unfold readdir.
    destruct (tree w !! walk p) as [[content m | m] |]; try done.
    apply Forall_forall. intros name Hname.
    by destruct (children_plain _ _ _ Hw Hname).
  - done.
  - destruct (renameTree a b (tree w)) as [t' | e] eqn:Hr; cbn; [| done].
    split; [done | by eapply renameTree_keysPlain].
  - unfold mkdirTree. repeat case_match; cbn; try done.
    split; [done |]. apply addDirs_keysPlain; [done | apply walk_plain].
  - unfold rmTree. repeat case_match; cbn; try done.
    split; [done | by apply rm_keysPlain].
  - unfold unlinkTree.
    destruct (tree w !! walk p) as [[content m | m] |]; cbn; try done.
    split; [done |]. intros k node [_ Hk]%lookup_delete_Some. by eapply Hw.
  - done.
  - done.
  - destruct (mvTree (clock w) data dest (tree w)) as [t' | e] eqn:Hr; cbn; [| done].
    split; [done | by eapply mvTree_keysPlain].
Qed.

End TreeFacts.

(** ** Confinement of the filesystem calls *)

Section Guarded.
Context {A : Type} (Q : forall X : Type, fsE X -> X -> Prop)
  (P : forall X : Type, fsE X -> Prop).

Lemma guarded_bind {B : Type} (m : prog B) (f : B -> prog A) :
  guarded Q P m -> (forall b, guarded Q P (f b)) -> guarded Q P (m ≫= f).
Proof.
  intros Hm Hf. induction Hm as [b | e | X ev k Hev Hk IH].
  - apply Hf.
  - constructor.
  - change (guarded Q P (Vis ev (fun x => k x ≫= f))).
    constructor; [exact Hev | exact IH].
Qed.

Lemma guarded_lift_bind {B : Type} (r : result B) (f : B -> prog A) :
  (forall b, r = Ok b -> guarded Q P (f b)) -> guarded Q P (lift r ≫= f).
Proof. destruct r as [b | e]; intros Hf; [by apply Hf | constructor]. Qed.

Lemma guarded_await_bind {B : Type} (ev : fsE (result B)) (f : B -> prog A) :
  P _ ev ->
  (forall b, Q _ ev (Ok b) -> guarded Q P (f b)) ->
  guarded Q P (await ev ≫= f).
Proof.
  intros Hev Hf.
  change (guarded Q P (Vis ev (fun r => (match r with Ok a => Ret a | Err e => Throw e end) ≫= f))).
  constructor; [exact Hev |]. intros [b | e] Hans; [by apply Hf | constructor].
Qed.

Lemma guarded_call_bind {B : Type} (ev : fsE B) (f : B -> prog A) :
  P _ ev -> (forall b, guarded Q P (f b)) -> guarded Q P (call ev ≫= f).
Proof.
  intros Hev Hf. change (guarded Q P (Vis ev (fun x => Ret x ≫= f))).
  constructor; [exact Hev |]. intros x _. apply Hf.
Qed.

Lemma guarded_await (ev : fsE (result A)) : P _ ev -> guarded Q P (await ev).
Proof.
  intros Hev. constructor; [exact Hev |]. intros [a | e] _; constructor.
Qed.

Lemma guarded_tryCatch (m : prog A) (h : exn -> prog A) :
  guarded Q P m -> (forall e, guarded Q P (h e)) -> guarded Q P (tryCatch m h).
Proof.
  intros Hm Hh. induction Hm as [a | e | X ev k Hev Hk IH].
  - constructor.
  - apply Hh.
  - cbn [tryCatch]. constructor; [exact Hev | exact IH].
Qed.

Lemma guarded_run {W : Type} (os : oracle W) (inv : W -> Prop) (m : prog A)
  (w : W) :
  answers os inv Q -> inv w -> guarded Q P m ->
  Forall (fun e => match e with Entry ev _ => P _ ev end) (run os m w).2.
Proof.
  intros Hos Hw Hm. revert w Hw.
  induction Hm as [a | e | X ev k Hev Hk IH]; intros w Hw.
  - constructor.
  - constructor.
  - cbn [run]. destruct (Hos X ev w Hw) as [Hans Hinv].
    destruct (os X ev w) as [x w1]. cbn [fst snd] in Hans, Hinv.
    specialize (IH x Hans w1 Hinv).
    destruct (run os (k x) w1) as [[r w2] log]. cbn [snd] in *.
    constructor; assumption.
Qed.

End Guarded.

(** ** Joining a name to a path in normal form *)

Module JoinFacts.
Import Js Path PathFacts ResolverFacts ChildFacts.

Lemma lastIsSlash_app (a b : string) :
  b <> EmptyString -> lastIsSlash (a +:+ b) = lastIsSlash b.
Proof.
  intros Hb. induction a as [| c a IH]; [reflexivity |].
  rewrite append_cons. cbn [lastIsSlash].
  destruct (a +:+ b) as [| d s] eqn:Hab; [| exact IH].
  pose proof (append_eq_empty _ _ Hab) as Ha. subst a. contradiction.
Qed.

Lemma lastIsSlash_no_slash (x : string) :
  has_slash x = false -> lastIsSlash x = false.
Proof.
  induction x as [| c x IH]; [reflexivity |]. rewrite has_slash_cons.
  intros [Hc Hx]%orb_false_iff. cbn [lastIsSlash].
  destruct x; [exact Hc | by apply IH].
Qed.

Lemma lastIsSlash_child (a x : string) :
  Fs.plain x = true -> lastIsSlash (a +:+ "/" +:+ x) = false.
Proof.
  intros Hx. rewrite <- append_assoc.
  rewrite lastIsSlash_app by (by apply plain_nonempty).
  by apply lastIsSlash_no_slash, plain_no_slash.
Qed.

Lemma lastIsSlash_absOf (cs : list string) :
  Forall (fun s => Fs.plain s = true) cs -> cs <> [] ->
  lastIsSlash (absOf cs) = false.
Proof.
  intros Hcs Hne. destruct (exists_last Hne) as (front & x & ->).
  apply Forall_app in Hcs as [_ Hx]. apply Forall_inv in Hx.
  unfold absOf. destruct front as [| f front].
  - cbn [app Js.join]. rewrite lastIsSlash_app by (by apply plain_nonempty).
    by apply lastIsSlash_no_slash, plain_no_slash.
  - rewrite join_app by discriminate. cbn [Js.join].
    rewrite <- !append_assoc.
    rewrite lastIsSlash_app by (by apply plain_nonempty).
    by apply lastIsSlash_no_slash, plain_no_slash.
Qed.

(** A path in normal form is its own normal form. *)
Lemma normalize_absOf (cs : list string) :
  Forall (fun s => Fs.plain s = true) cs -> normalize (absOf cs) = absOf cs.
Proof.
  intros Hcs.
  assert (Hstack : stack (absOf cs) = rev cs) by (by apply split_absOf).
  destruct (normalize_cases (absOf cs)) as [[Hs ->] | [Hs ->]]; [discriminate | |].
  - change (firstIsSlash (absOf cs)) with true. cbn iota.
    rewrite Hstack in Hs. apply (f_equal (@rev string)) in Hs.
    rewrite rev_involutive in Hs. by subst cs.
  - rewrite Hstack, rev_involutive in *.
    rewrite lastIsSlash_absOf; [| assumption |].
    + change (firstIsSlash (absOf cs)) with true. cbn iota.
      by rewrite append_nil_r.
    + intros ->. by apply Hs.
Qed.

(** A name joined to a path in normal form: one segment more. *)
Lemma join_child (cs : list string) (x : string) :
  Forall (fun s => Fs.plain s = true) cs -> Fs.plain x = true ->
  Path.join [absOf cs; x] = absOf (cs ++ [x]).
Proof.
  intros Hcs Hx. unfold Path.join. cbn [joined].
  change (isEmpty (absOf cs)) with false. cbn iota.
  pose proof (plain_nonempty x Hx) as Hne. apply isEmpty_false in Hne.
  rewrite Hne.
  assert (Hstack : stack (absOf cs +:+ "/" +:+ x) = x :: rev cs).
  { unfold stack. change (firstIsSlash (absOf cs +:+ "/" +:+ x)) with true.
    cbn [negb]. rewrite split_app_slash, normSegs_app, split_absOf by assumption.
    rewrite (split_no_slash x) by (by apply plain_no_slash).
    cbn [normSegs fold_left]. by rewrite step_plain. }
  destruct (normalize_cases (absOf cs +:+ "/" +:+ x)) as [[Hs _] | [_ ->]];
    [discriminate | by rewrite Hstack in Hs |].
  rewrite Hstack, lastIsSlash_child by assumption.
  change (firstIsSlash (absOf cs +:+ "/" +:+ x)) with true. cbn iota.
  cbn [rev]. by rewrite rev_involutive, append_nil_r.
Qed.

(** Nothing joined to it: the path itself. *)
Lemma join_nothing (cs : list string) :
  Forall (fun s => Fs.plain s = true) cs ->
  Path.join [absOf cs; EmptyString] = absOf cs.
Proof.
  intros Hcs. unfold Path.join. cbn [joined isEmpty].
  change (isEmpty (absOf cs)) with false. cbn iota.
  by apply normalize_absOf.
Qed.

Lemma startsWith_child (root : string) (cs : list string) (x : string) :
  startsWith (absOf cs) root = true ->
  startsWith (absOf (cs ++ [x])) root = true.
Proof.
  unfold startsWith. intros Hp.
  destruct (absOf_snoc cs x) as [suffix ->]. by apply prefix_trans_app.
Qed.

End JoinFacts.

Section ConfinedFacts.
Context `{Host}.
Hypothesis Hroot : normalizedRoot = true.
Hypothesis Hsan : sanitizesToNames.
Import JoinFacts.

Lemma accepted_start (ps : list string) (p : string) :
  safePath ps = Ok p -> Js.startsWith p STORAGE_DIR = true.
Proof. by intros [_ Hs]%safePath_Ok. Qed.

Lemma child_start (ps : list string) (p x : string) :
  safePath ps = Ok p -> Fs.plain x = true ->
  Js.startsWith (Path.join [p; x]) STORAGE_DIR = true.
Proof.
  intros Hp Hx. pose proof (accepted_start _ _ Hp) as Hs.
  destruct (accepted_absOf Hroot _ _ Hp) as [Heq Hplain].
  rewrite Heq in Hs |- *. rewrite join_child by assumption.
  by apply startsWith_child.
Qed.

Lemma sanitized_start (ps : list string) (p s : string) :
  safePath ps = Ok p ->
  Js.startsWith (Path.join [p; sanitize s]) STORAGE_DIR = true.
Proof.
  intros Hp. destruct (Hsan s) as [-> | Hx]; [| by eapply child_start].
  pose proof (accepted_start _ _ Hp) as Hs.
  destruct (accepted_absOf Hroot _ _ Hp) as [Heq Hplain].
  rewrite Heq in Hs |- *. by rewrite join_nothing.
Qed.

Ltac under :=
  unfold underRoot; cbn [callPaths];
  repeat constructor; eauto using accepted_start, child_start, sanitized_start.

Lemma guarded_collectItems (ps : list string) (cp : string)
  (names : list string) (items : list ItemInfo) :
  safePath ps = Ok cp -> Forall (fun n => Fs.plain n = true) names ->
  guarded (@answersNames) underRoot (collectItems cp names items).
Proof.
  intros Hcp Hnames. revert items.
  induction Hnames as [| item rest Hitem _ IH]; intros items; [constructor |].
  cbn [collectItems]. apply guarded_bind; [| intros info; apply IH].
  unfold getItemInfo. apply guarded_await_bind; [under |]. intros; constructor.
Qed.

Lemma guarded_uploadFiles (ps : list string) (targetDir : string)
  (files : list (string * string)) :
  safePath ps = Ok targetDir -> guarded (@answersNames) underRoot (uploadFiles targetDir files).
Proof.
  intros Hp. induction files as [| [fileName data] rest IH]; [constructor |].
  cbn [uploadFiles]. apply guarded_await_bind; [under |]. intros; exact IH.
Qed.

Lemma guarded_body (req : request) : guarded (@answersNames) underRoot (body req).
Proof.
  destruct req as [p | p files | p | p | s t | p | n p | o n]; cbn [body].
  - unfold listBody. apply guarded_lift_bind; intros cp Hcp.
    apply guarded_await_bind; [under |]. intros names Hnames.
    apply guarded_bind; [by eapply guarded_collectItems | intros; constructor].
  - unfold uploadBody. destruct files as [| f files]; [constructor |].
    apply guarded_lift_bind; intros dir Hdir.
    apply guarded_bind; [by eapply guarded_uploadFiles | intros; constructor].
  - unfold downloadBody. apply guarded_lift_bind; intros fp Hfp.
    apply guarded_await_bind; [under |]. intros stats _.
    destruct (negb (isFile stats)); [constructor |].
    apply guarded_call_bind; [under |]. intros; constructor.
  - unfold previewBody. apply guarded_lift_bind; intros q Hq.
    apply guarded_lift_bind; intros fp Hfp.
    apply guarded_await_bind; [under |]. intros stats _.
    destruct (negb (isFile stats)); [constructor |].
    destruct (_ && _).
    + apply guarded_await_bind; [under |]. intros; constructor.
    + apply guarded_call_bind; [under |]. intros; constructor.
  - unfold moveBody. destruct (falsy s || falsy t); [constructor |].
    apply guarded_lift_bind; intros sp Hsp.
    apply guarded_await_bind; [under |]. intros sourceStats _.
    apply guarded_lift_bind; intros tp Htp.
    apply guarded_lift_bind; intros td Htd.
    apply guarded_await_bind; [under |]. intros targetStats _.
    destruct (negb (isDirectory targetStats)); [constructor |].
    apply guarded_call_bind; [under |]. intros [|]; [constructor |].
    apply guarded_await_bind; [under |]. intros; constructor.
  - unfold deleteBody. apply guarded_lift_bind; intros q Hq.
    apply guarded_lift_bind; intros ip Hip.
    apply guarded_await_bind; [under |]. intros stats _.
    destruct (isDirectory stats);
      (apply guarded_await_bind; [under |]; intros; constructor).
  - unfold createFolderBody. destruct (falsy n); [constructor |].
    destruct (Js.isEmpty _); [constructor |].
    apply guarded_lift_bind; intros fp Hfp.
    apply guarded_call_bind; [under |]. intros [|]; [constructor |].
    apply guarded_await_bind; [under |]. intros; constructor.
  - unfold renameBody. apply guarded_lift_bind; intros nn Hnn.
    apply guarded_lift_bind; intros oo Hoo.
    apply guarded_lift_bind; intros op Hop.
    apply guarded_lift_bind; intros np Hnp.
    apply guarded_await_bind; [under |]. intros; constructor.
Qed.

Lemma guarded_handle (req : request) : guarded (@answersNames) underRoot (handle req).
Proof.
  pose proof (guarded_body req) as Hb.
  destruct req; cbn [body handle] in *;
    (apply guarded_tryCatch; [exact Hb |]); intros e;
    unfold moveCatch, createFolderCatch;
    repeat match goal with |- context [if ?b then _ else _] => destruct b end;
    constructor.
Qed.

End ConfinedFacts.

(** X1. Whatever the request, every path a handler hands to a filesystem
    call begins with the storage root: provided the root is in normal
    form, [sanitize] gives a name or nothing, and the filesystem lists
    names (no separator, not [.] nor [..]) in every state it goes through. *)
Theorem handlers_call_only_under_root `{Host} {W : Type} (os : oracle W)
  (inv : W -> Prop) (req : request) (w : W) :
  normalizedRoot = true -> sanitizesToNames -> listsNames os inv -> inv w ->
  Forall entryUnderRoot (run os (handle req) w).2.
Proof.
  intros Hroot Hsan Hos Hw.
  pose proof (guarded_run (@answersNames) underRoot os inv (handle req) w Hos Hw
                (guarded_handle Hroot Hsan req)) as Hlog.
  eapply Forall_impl; [exact Hlog |]. by intros [X ev x].
Qed.

Lemma handlers_call_only_under_root_witness :
  Forall (entryUnderRoot (H := Demo.host))
    (run Fs.os
       (handle (H := Demo.host)
          (Op.Upload (Some "docs/../docs") [("../../etc/passwd", "x"); ("..", "y")]))
       Demo.world).2.
Proof.
  apply (handlers_call_only_under_root (H := Demo.host) Fs.os
           (fun w => keysPlain (Fs.tree w))).
  - vm_compute. reflexivity.
  - exact SanitizeFacts.sanitize_name.
  - exact TreeFacts.os_listsNames.
  - apply FsFacts.wf_keysPlain.
    apply (bool_decide_eq_true_1 (Fs.wf Demo.tree)). vm_compute. reflexivity.
Defined.

Section ReadOnly.
Context `{Host}.

Lemma reads_collectItems (cp : string) (names : list string)
  (items : list ItemInfo) :
  guarded anyAnswer reads (collectItems cp names items).
Proof.
  revert items. induction names as [| item rest IH]; intros items;
    [constructor |].
  cbn [collectItems]. apply guarded_bind; [| intros info; apply IH].
  unfold getItemInfo. apply guarded_await_bind; [reflexivity |].
  intros; constructor.
Qed.

Lemma reads_handle (req : request) :
  readOnly req = true -> guarded anyAnswer reads (handle req).
Proof.
  destruct req as [p | p files | p | p | s t | p | n p | o n];
    try discriminate; intros _; cbn [handle];
    (apply guarded_tryCatch; [| intros; constructor]).
  - unfold listBody. apply guarded_lift_bind; intros cp _.
    apply guarded_await_bind; [reflexivity |]. intros names _.
    apply guarded_bind; [apply reads_collectItems | intros; constructor].
  - unfold downloadBody. apply guarded_lift_bind; intros fp _.
    apply guarded_await_bind; [reflexivity |]. intros stats _.
    destruct (negb (isFile stats)); [constructor |].
    apply guarded_call_bind; [reflexivity |]. intros; constructor.
  - unfold previewBody. apply guarded_lift_bind; intros q _.
    apply guarded_lift_bind; intros fp _.
    apply guarded_await_bind; [reflexivity |]. intros stats _.
    destruct (negb (isFile stats)); [constructor |].
    destruct (_ && _).
    + apply guarded_await_bind; [reflexivity |]. intros; constructor.
    + apply guarded_call_bind; [reflexivity |]. intros; constructor.
Qed.

Lemma reads_log {W : Type} (os : oracle W) (req : request) (w : W) :
  readOnly req = true ->
  existsb entryMutates (run os (handle req) w).2 = false.
Proof.
  intros Hreq.
  pose proof (guarded_run anyAnswer reads os (fun _ => True) (handle req) w)
    as Hlog.
  apply not_true_iff_false. intros Hex.
  apply existsb_exists in Hex as ([X ev x] & Hin & Hmut).
  assert (Hall : Forall (fun e => match e with Entry ev _ => reads _ ev end)
                   (run os (handle req) w).2).
  { apply Hlog; [by intros ? ? ? _ | exact I | by apply reads_handle]. }
  rewrite Forall_forall in Hall. apply list_elem_of_In in Hin.
  specialize (Hall _ Hin). cbn in Hall, Hmut. unfold reads in Hall. congruence.
Qed.

End ReadOnly.

(** X2. Listing, download and preview only read: whatever the filesystem
    answers, none of the calls they make is one that changes it. *)
Theorem reading_requests_change_nothing `{Host} {W : Type} (os : oracle W)
  (req : request) (w : W) :
  readOnly req = true ->
  existsb entryMutates (run os (handle req) w).2 = false.
Proof. apply reads_log. Qed.

Lemma reading_requests_change_nothing_witness :
  existsb entryMutates
    (run Fs.os (handle (H := Demo.host) (Op.List (Some "docs"))) Demo.world).2
  = false.
Proof.
  apply (reading_requests_change_nothing (H := Demo.host)). reflexivity.
Defined.

(** ** Moving a subtree *)

Module MoveFacts.
Import Fs FsFacts PathFacts ResolverFacts ChildFacts TreeFacts.

Lemma retarget_under (ca cb d : list string) :
  retarget ca cb (ca ++ d) = cb ++ d.
Proof.
  unfold retarget. rewrite bool_decide_eq_true_2 by (by exists d).
  by rewrite drop_app_length.
Qed.

Lemma retarget_other (ca cb k : list string) :
  ~ ca `prefix_of` k -> retarget ca cb k = k.
Proof. intros Hk. unfold retarget. by rewrite bool_decide_eq_false_2. Qed.

Lemma retarget_cases (ca cb k : list string) :
  (exists d, k = ca ++ d /\ retarget ca cb k = cb ++ d) \/
  (~ ca `prefix_of` k /\ retarget ca cb k = k).
Proof.
  destruct (decide (ca `prefix_of` k)) as [[d ->] | Hk].
  - left. exists d. by rewrite retarget_under.
  - right. by rewrite retarget_other.
Qed.

Lemma retarget_inj (ca cb k1 k2 : list string) :
  ~ cb `prefix_of` k1 -> ~ cb `prefix_of` k2 ->
  retarget ca cb k1 = retarget ca cb k2 -> k1 = k2.
Proof.
  intros H1 H2.
  destruct (retarget_cases ca cb k1) as [(d1 & -> & ->) | [_ ->]],
           (retarget_cases ca cb k2) as [(d2 & -> & ->) | [_ ->]].
  - by intros ->%app_inv_head.
  - intros <-. destruct H2. by exists d1.
  - intros ->. destruct H1. by exists d2.
  - done.
Qed.

Lemma moved_lookup_Some (ca cb k : list string) (n : Node) (t : Tree) :
  moved ca cb t !! k = Some n <->
  exists k0, t !! k0 = Some n /\ ~ cb `prefix_of` k0 /\ k = retarget ca cb k0.
Proof.
  split; [apply moved_source |]. intros (k0 & Hk0 & Hnot & ->).
  unfold moved. apply elem_of_list_to_map_1.
  - rewrite <- list_fmap_compose.
    apply (NoDup_fmap_2_strong (fun kv : list string * Node => retarget ca cb kv.1)).
    + intros [ka na] [kb nb] Ha%elem_of_map_to_list Hb%elem_of_map_to_list Heq.
      cbn in Heq.
      apply map_lookup_filter_Some in Ha as [Ha Hna], Hb as [Hb Hnb].
      cbn in Hna, Hnb. apply retarget_inj in Heq; [| assumption..].
      subst kb. congruence.
    + apply NoDup_map_to_list.
  - apply list_elem_of_fmap. exists (k0, n). split; [reflexivity |].
    apply elem_of_map_to_list, map_lookup_filter_Some. auto.
Qed.

(** Where each key of the tree is after the move, when neither place is
    inside the other. *)
Lemma moved_lookup (ca cb k : list string) (t : Tree) :
  ~ ca `prefix_of` cb -> ~ cb `prefix_of` ca ->
  moved ca cb t !! k
  = if bool_decide (cb `prefix_of` k) then t !! (ca ++ drop (length cb) k)
    else if bool_decide (ca `prefix_of` k) then None
    else t !! k.
Proof.
  intros Hab Hba. apply option_eq. intros n. rewrite moved_lookup_Some.
  assert (Hfree : forall d, ~ cb `prefix_of` ca ++ d).
  { intros d [r Hr].
    destruct (prefix_weak_total ca cb (ca ++ d)) as [Hc | Hc];
      [by exists d | by exists r | tauto | tauto]. }
  destruct (bool_decide_reflect (cb `prefix_of` k)) as [[d ->] | Hk].
  - rewrite drop_app_length. split.
    + intros (k0 & Hk0 & Hnot & Heq).
      destruct (retarget_cases ca cb k0) as [(d0 & -> & Hr) | [_ Hr]];
        rewrite Hr in Heq.
      * by apply app_inv_head in Heq as ->.
      * subst k0. destruct Hnot. by exists d.
    + intros Hn. exists (ca ++ d). by rewrite retarget_under.
  - destruct (bool_decide_reflect (ca `prefix_of` k)) as [[d ->] | Hk'].
    + split; [| discriminate]. intros (k0 & Hk0 & Hnot & Heq).
      destruct (retarget_cases ca cb k0) as [(d0 & -> & Hr) | [Hno Hr]];
        rewrite Hr in Heq.
      * destruct Hk. rewrite Heq. by exists d0.
      * subst k0. destruct Hno. by exists d.
    + split.
      * intros (k0 & Hk0 & Hnot & Heq).
        destruct (retarget_cases ca cb k0) as [(d0 & -> & Hr) | [Hno Hr]];
          rewrite Hr in Heq.
        -- destruct Hk. rewrite Heq. by exists d0.
        -- by subst k0.
      * intros Hn. exists k. by rewrite retarget_other.
Qed.

Lemma basename_absOf (cs : list string) (x : string) :
  Forall (fun s => plain s = true) cs -> plain x = true ->
  Path.basename (absOf (cs ++ [x])) = x.
Proof.
  intros Hcs Hx. unfold Path.basename, absOf.
  change ("/" +:+ Js.join (cs ++ [x])) with (String "/" (Js.join (cs ++ [x]))).
  rewrite split_cons_slash, split_join.
  - cbn [rev]. rewrite rev_unit. cbn [app].
    pose proof (plain_nonempty x Hx) as Hne. apply isEmpty_false in Hne.
    rewrite filter_cons_True by (by rewrite Hne). reflexivity.
  - by destruct cs.
  - apply Forall_app. split.
    + eapply Forall_impl; [exact Hcs |]. intros s. apply plain_no_slash.
    + constructor; [by apply plain_no_slash | constructor].
Qed.

End MoveFacts.

Section Moving.
Context `{Host}.
Hypothesis Hroot : normalizedRoot = true.
Import Fs FsFacts PathFacts ResolverFacts ChildFacts TreeFacts MoveFacts.

Lemma accepted_last (ps : list string) (p : string) :
  safePath ps = Ok p -> walk p <> [] ->
  exists front x, walk p = front ++ [x] /\ plain x = true /\
                  Forall (fun s => plain s = true) front /\
                  Path.basename p = x.
Proof.
  intros Hp Hne. destruct (accepted_absOf Hroot _ _ Hp) as [Heq Hplain].
  destruct (exists_last Hne) as (front & x & Hw). exists front, x.
  rewrite Hw in Hplain. apply Forall_app in Hplain as [Hfront Hx].
  apply Forall_inv in Hx. repeat split; try assumption.
  rewrite Heq, Hw. by apply basename_absOf.
Qed.

(** A move that goes through, on the tree. *)
Lemma move_run (source target : string) (w : World) (sp td : string) (m : Z) :
  source <> EmptyString -> target <> EmptyString ->
  safePath [source] = Ok sp ->
  safePath [target] = Ok td ->
  walk sp <> [] ->
  is_Some (tree w !! walk sp) ->
  tree w !! walk td = Some (Dir m) ->
  tree w !! (walk td ++ [Path.basename sp]) = None ->
  ~ walk sp `prefix_of` walk td ->
  ~ walk sp `prefix_of` (walk td ++ [Path.basename sp]) /\
  Fs.plain (Path.basename sp) = true /\
  safePath [target; Path.basename sp]
  = Ok (absOf (walk td ++ [Path.basename sp])) /\
  exists log,
    run Fs.os (moveItem (Some source) (Some target)) w
    = (Ok (Send 200 "Item moved successfully"),
       {| tree := moved (walk sp) (walk td ++ [Path.basename sp]) (tree w);
          clock := clock w + 1 |}, log).
Proof.
  intros Hs Ht Hsp Htd Hne [na Hna] Hdir Hfree Hinto.
  destruct (accepted_last _ _ Hsp Hne) as (front & x & Hw & Hx & Hfront & Hbase).
  rewrite Hbase in *.
  set (ca := walk sp) in *. set (cb := walk td ++ [x]) in *.
  destruct (safePath_child Hroot target x td Htd Hx) as [Htp Hwalk].
  fold cb in Htp, Hwalk.
  assert (Hab : ~ ca `prefix_of` cb).
  { intros [r Hr]. destruct r as [| y r _] using rev_ind.
    - rewrite app_nil_r in Hr. rewrite <- Hr in Hna. congruence.
    - unfold cb in Hr. rewrite app_assoc in Hr.
      apply app_inj_tail in Hr as [Hr _]. apply Hinto. by exists r. }
  split; [exact Hab |]. split; [exact Hx |]. split; [exact Htp |].
  apply isEmpty_false in Hs, Ht. eexists.
  unfold moveItem, moveBody. cbn [falsy orEmpty]. rewrite Hs, Ht. cbn [orb].
  run_simpl. rewrite Hsp. run_simpl. cbn [Fs.os fst snd].
  unfold stat at 1. fold ca. rewrite Hna. run_simpl.
  rewrite Hbase, Htp. run_simpl. rewrite Htd. run_simpl.
  cbn [Fs.os fst snd]. unfold stat. rewrite Hdir.
  cbn [statsOf isDirectory negb]. run_simpl.
  cbn [Fs.os fst snd]. unfold existsSync. rewrite Hwalk, Hfree.
  rewrite bool_decide_eq_false_2 by (by intros [? ?]). run_simpl.
  cbn [Fs.os]. unfold renameTree. rewrite Hwalk. fold ca. rewrite Hna.
  rewrite bool_decide_eq_false_2 by (intros Heq; rewrite Heq in Hna; congruence).
  rewrite bool_decide_eq_false_2 by exact Hab.
  assert (Hparent : parentOf cb = Some (walk td, x)) by apply parentOf_snoc.
  rewrite Hparent, Hdir, Hfree.
  destruct na; reflexivity.
Qed.

(** Nothing of a well-formed tree is below a place that is free. *)
Lemma free_below (t : Tree) (c k : list string) :
  wf t -> t !! c = None -> c `prefix_of` k -> t !! k = None.
Proof.
  intros Hwf Hc [d ->]. destruct (t !! (c ++ d)) as [n |] eqn:Hn; [| reflexivity].
  destruct d as [| y d]; [rewrite app_nil_r in Hn; congruence |].
  destruct (wf_ancestors _ _ _ Hwf Hn (length c)) as [m Hm].
  - rewrite length_app. cbn. lia.
  - rewrite take_app_length in Hm. congruence.
Qed.

End Moving.





Section UploadFacts.
Context `{Host} {W : Type} (os : oracle W).

Lemma run_uploadFiles (targetDir : string) (files : list (string * string))
  (w : W) :
  ((run os (uploadFiles targetDir files) w).1.1 = Ok tt /\
   (run os (uploadFiles targetDir files) w).2
   = map (fun f => attempt targetDir f (Ok tt)) files) \/
  (exists n file e,
     files !! n = Some file /\
     (run os (uploadFiles targetDir files) w).1.1 = Err e /\
     (run os (uploadFiles targetDir files) w).2
     = map (fun f => attempt targetDir f (Ok tt)) (take n files)
       ++ [attempt targetDir file (Err e)]).
Proof.
  revert w. induction files as [| [fileName data] rest IH]; intros w.
  - left. auto.
  - cbn [uploadFiles]. rewrite run_bind, run_await.
    destruct (os _ (Mv data (Path.join [targetDir; sanitize fileName])) w)
      as [[[] | e] w1]; cbn [fst snd].
    + destruct (IH w1) as [[Hr Hlog] | (n & file & e & Hn & Hr & Hlog)];
        destruct (run os (uploadFiles targetDir rest) w1) as [[r w2] log];
        cbn [fst snd] in *; subst.
      * left. auto.
      * right. exists (S n), file, e. auto.
    + right. exists 0%nat, (fileName, data), e. auto.
Qed.

End UploadFacts.

(** X5. An upload writes the files one after the other and stops at the
    first write that fails: either every file was written and the answer
    is 200, or the answer is 500, the files before the failing one were
    written and stay so, and the ones after it were not tried. *)
Theorem upload_stops_at_the_first_failure `{Host} {W : Type} (os : oracle W)
  (queryPath : option string) (files : list (string * string)) (w : W)
  (targetDir : string) :
  files <> [] ->
  safePath [orEmpty queryPath] = Ok targetDir ->
  ((run os (upload queryPath files) w).1.1
   = Ok (Send 200 "Files uploaded successfully") /\
   (run os (upload queryPath files) w).2
   = map (fun f => attempt targetDir f (Ok tt)) files) \/
  (exists n file e,
     files !! n = Some file /\
     (run os (upload queryPath files) w).1.1
     = Ok (Send 500 "Error uploading files") /\
     (run os (upload queryPath files) w).2
     = map (fun f => attempt targetDir f (Ok tt)) (take n files)
       ++ [attempt targetDir file (Err e)]).
Proof.
  intros Hfiles Hdir. unfold upload, uploadBody.
  destruct files as [| f files]; [contradiction |].
  rewrite run_tryCatch, run_bind, run_lift, Hdir, run_bind.
  destruct (run_uploadFiles os targetDir (f :: files) w)
    as [[Hr Hlog] | (n & file & e & Hn & Hr & Hlog)];
    destruct (run os (uploadFiles targetDir (f :: files)) w) as [[r w1] log];
    cbn [fst snd] in Hr, Hlog; subst r log.
  - left. cbn [run mret prog_ret fst snd]. by rewrite app_nil_r.
  - right. exists n, file, e. cbn [run mret prog_ret fst snd app].
    by rewrite app_nil_r.
Qed.

Lemma upload_stops_at_the_first_failure_witness :
  ((run Fs.os (upload (H := Demo.host) (Some "docs")
                 [("new.txt", "one"); ("..", "two"); ("last.txt", "three")])
      Demo.world).1.1
   = Ok (Send 200 "Files uploaded successfully") /\
   (run Fs.os (upload (H := Demo.host) (Some "docs")
                 [("new.txt", "one"); ("..", "two"); ("last.txt", "three")])
      Demo.world).2
   = map (fun f => attempt (H := Demo.host) "/srv/storage/docs" f (Ok tt))
       [("new.txt", "one"); ("..", "two"); ("last.txt", "three")]) \/
  (exists n file e,
     [("new.txt", "one"); ("..", "two"); ("last.txt", "three")] !! n
     = Some file /\
     (run Fs.os (upload (H := Demo.host) (Some "docs")
                   [("new.txt", "one"); ("..", "two"); ("last.txt", "three")])
        Demo.world).1.1
     = Ok (Send 500 "Error uploading files") /\
     (run Fs.os (upload (H := Demo.host) (Some "docs")
                   [("new.txt", "one"); ("..", "two"); ("last.txt", "three")])
        Demo.world).2
     = map (fun f => attempt (H := Demo.host) "/srv/storage/docs" f (Ok tt))
         (take n [("new.txt", "one"); ("..", "two"); ("last.txt", "three")])
       ++ [attempt (H := Demo.host) "/srv/storage/docs" file (Err e)]).
Proof.
  apply (upload_stops_at_the_first_failure (H := Demo.host) Fs.os (Some "docs")
           [("new.txt", "one"); ("..", "two"); ("last.txt", "three")]
           Demo.world "/srv/storage/docs").
  - discriminate.
  - vm_compute. reflexivity.
Defined.

(** ** The relative path of an item *)

Module RelativeFacts.
Import Js Path PathFacts ResolverFacts ChildFacts JoinFacts.

Lemma resolve_absOf (cwd : string) (cs : list string) :
  Forall (fun s => Fs.plain s = true) cs -> resolve cwd [absOf cs] = absOf cs.
Proof.
  intros Hcs. unfold resolve. cbn [rev app resolveLoop].
  change (isEmpty (absOf cs)) with false. cbn iota.
  change (firstIsSlash (absOf cs)) with true. cbn iota.
  unfold normalizeString. change (absOf cs +:+ "/" +:+ "") with (absOf cs +:+ "/").
  rewrite split_trailing, normSegs_snoc_empty, split_absOf by assumption.
  by rewrite rev_involutive.
Qed.

Lemma segments_absOf (cs : list string) :
  Forall (fun s => Fs.plain s = true) cs -> segments (absOf cs) = cs.
Proof.
  intros Hcs. unfold absOf.
  change ("/" +:+ Js.join cs) with (String "/" (Js.join cs)). cbn [segments].
  destruct cs as [| c cs]; [reflexivity |].
  destruct (isEmpty (Js.join (c :: cs))) eqn:He.
  - apply isEmpty_true, join_empty in He; [discriminate |].
    eapply Forall_impl; [exact Hcs |]. intros s. apply plain_nonempty.
  - apply split_join; [discriminate |].
    eapply Forall_impl; [exact Hcs |]. intros s. apply plain_no_slash.
Qed.

Lemma stripCommon_spec (a b : list string) :
  exists common,
    a = common ++ (stripCommon a b).1 /\ b = common ++ (stripCommon a b).2.
Proof.
  revert b. induction a as [| x a IH]; intros b; [by exists [] |].
  destruct b as [| y b]; [by exists [] |]. cbn [stripCommon].
  destruct (String.eqb_spec x y) as [-> | Hne]; [| by exists []].
  destruct (IH b) as (common & Ha & Hb). exists (y :: common).
  cbn [app]. by rewrite <- Ha, <- Hb.
Qed.

Lemma dotdots_repeat (l : list string) :
  map (fun _ : string => "..") l = repeat ".." (length l).
Proof. induction l as [| x l IH]; [reflexivity |]. cbn. by rewrite IH. Qed.

Lemma step_back (x : string) (acc : list string) :
  x <> ".." -> step false (x :: acc) ".." = acc.
Proof.
  intros Hx. apply String.eqb_neq in Hx. unfold step.
  change (String.eqb ".." "" || String.eqb ".." ".") with false.
  change (String.eqb ".." "..") with true. cbn iota. by rewrite Hx.
Qed.

(** Stepping back once for every segment that was stepped into. *)
Lemma normSegs_back (fr acc : list string) :
  Forall (fun s => Fs.plain s = true) fr ->
  normSegs false (rev fr ++ acc) (map (fun _ : string => "..") fr) = acc.
Proof.
  rewrite dotdots_repeat.
  induction fr as [| x fr IH] using rev_ind; intros Hfr; [reflexivity |].
  apply Forall_app in Hfr as [Hfr Hx]. apply Forall_inv in Hx.
  rewrite rev_unit, length_app, Nat.add_comm. cbn [length Nat.add repeat app].
  rewrite normSegs_cons.
  apply plain_spec in Hx as (_ & _ & Hdd & _).
  rewrite step_back by assumption. by apply IH.
Qed.

Lemma dotdots_kept (fr tr : list string) :
  Forall (fun s => Fs.plain s = true) tr ->
  Forall kept (map (fun _ : string => "..") fr ++ tr).
Proof.
  intros Htr. apply Forall_app. split; [| by apply plain_kept].
  apply Forall_forall. intros s Hs. apply list_elem_of_fmap in Hs as (y & -> & _).
  by repeat split.
Qed.

End RelativeFacts.

Section LeadsBack.
Context `{Host}.
Hypothesis Hroot : normalizedRoot = true.
Import Js Path PathFacts ResolverFacts ChildFacts JoinFacts RelativeFacts.

(** A path in normal form that begins with the storage root: its path
    relative to the root resolves to it. *)
Lemma relative_leads_back (cs : list string) :
  Forall (fun s => Fs.plain s = true) cs ->
  startsWith (absOf cs) STORAGE_DIR = true ->
  safePath [Path.relative cwd STORAGE_DIR (absOf cs)] = Ok (absOf cs).
Proof.
  intros Hcs Hstart.
  pose proof (root_absOf Hroot) as HR. set (rc := Fs.walk STORAGE_DIR) in *.
  pose proof (walk_plain STORAGE_DIR) as Hrc. fold rc in Hrc.
  assert (Hsame : rc = cs -> safePath [EmptyString] = Ok (absOf cs)).
  { intros <-. rewrite (safePath_inside Hroot); unfold target; cbn [joined isEmpty];
      [reflexivity | done]. }
  unfold relative.
  destruct (String.eqb_spec STORAGE_DIR (absOf cs)) as [Heq | Hne].
  { apply Hsame. rewrite HR in Heq. apply (f_equal Fs.walk) in Heq.
    by rewrite !walk_absOf in Heq. }
  assert (Hres : resolve cwd [STORAGE_DIR] = absOf rc).
  { rewrite HR at 1. by apply resolve_absOf. }
  rewrite Hres, resolve_absOf by assumption.
  destruct (String.eqb_spec (absOf rc) (absOf cs)) as [Heq | Hne'].
  { apply Hsame. apply (f_equal Fs.walk) in Heq. by rewrite !walk_absOf in Heq. }
  rewrite !segments_absOf by assumption.
  destruct (stripCommon_spec rc cs) as (common & Ha & Hb).
  destruct (stripCommon rc cs) as [fr tr]. cbn [fst snd] in Ha, Hb.
  rewrite Ha in Hrc. rewrite Hb in Hcs.
  apply Forall_app in Hrc as [Hcommon Hfr]. apply Forall_app in Hcs as [_ Htr].
  set (l := map (fun _ : string => "..") fr ++ tr).
  pose proof (dotdots_kept fr tr Htr) as Hl. fold l in Hl.
  assert (Hlne : l <> []).
  { unfold l. intros Hnil. apply app_eq_nil in Hnil as [Hf ->].
    destruct fr; [| discriminate]. apply Hne'. by rewrite Ha, Hb. }
  assert (Hjoin : Js.join l <> EmptyString).
  { intros Hj. apply join_empty in Hj; [done | by apply kept_nonempty]. }
  assert (Htarget : target [Js.join l] = cs).
  { unfold target. cbn [joined]. apply isEmpty_false in Hjoin. rewrite Hjoin.
    unfold land. rewrite firstIsSlash_join by assumption.
    rewrite split_join by (done || by apply kept_no_slash).
    unfold l. fold rc. rewrite Ha at 1. rewrite rev_app_distr, normSegs_app.
    rewrite normSegs_back by assumption.
    rewrite normSegs_plain by assumption.
    by rewrite <- rev_app_distr, rev_involutive, <- Hb. }
  change (safePath [Js.join l] = Ok (absOf cs)).
  unfold safePath. rewrite (resolvedPath_target Hroot), Htarget, Hstart.
  reflexivity.
Qed.

End LeadsBack.

Section ListingFacts.
Context `{Host} {W : Type} (os : oracle W).

(** The path field of each item the loop adds. *)
Lemma collectItems_paths (currentPath : string) (names : list string) :
  forall (items : list ItemInfo) (w : W) out w' log,
    run os (collectItems currentPath names items) w = (Ok out, w', log) ->
    exists new,
      out = items ++ new /\
      map Item.name new = names /\
      Forall (fun i => Item.path i
                       = Path.relative cwd STORAGE_DIR
                           (Path.join [currentPath; Item.name i])) new.
Proof.
  induction names as [| item rest IH]; intros items w out w' log Hrun.
  - cbn in Hrun. injection Hrun as <- <- <-. exists [].
    rewrite app_nil_r. auto.
  - cbn [collectItems] in Hrun. rewrite run_bind, run_getItemInfo in Hrun.
    destruct (os _ (Stat (Path.join [currentPath; item])) w) as [[stats | e] w1]
      eqn:Hstat; cbn [fst snd] in Hrun; [| discriminate].
    destruct (run os (collectItems currentPath rest _) w1) as [[r2 w2] l2]
      eqn:Hrest.
    injection Hrun as -> <- <-.
    apply IH in Hrest as (new & -> & Hnames & Hpaths).
    eexists (_ :: new). rewrite <- app_assoc. split; [reflexivity |].
    split; [cbn; congruence |]. by constructor.
Qed.

Lemma list_paths (queryPath : option string) (w w' : W)
  (items : list ItemInfo) (current : string) (log : list entry) :
  run os (listDirectory queryPath) w = (Ok (Render items current), w', log) ->
  exists currentPath names,
    safePath [orEmpty queryPath] = Ok currentPath /\
    (os _ (Readdir currentPath) w).1 = Ok names /\
    current = Path.relative cwd STORAGE_DIR currentPath /\
    map Item.name items ≡ₚ names /\
    Forall (fun i => Item.path i
                     = Path.relative cwd STORAGE_DIR
                         (Path.join [currentPath; Item.name i])) items.
Proof.
  intros Hrun. unfold listDirectory in Hrun.
  rewrite run_tryCatch in Hrun. unfold listBody in Hrun.
  rewrite run_bind, run_lift in Hrun.
  destruct (safePath [orEmpty queryPath]) as [currentPath | e].
  2:{ cbn in Hrun. discriminate. }
  rewrite run_bind, run_await in Hrun.
  destruct (os _ (Readdir currentPath) w) as [[names | e] w1] eqn:Hread;
    cbn [fst snd] in Hrun.
  2:{ cbn in Hrun. discriminate. }
  rewrite run_bind in Hrun.
  destruct (run os (collectItems currentPath names []) w1)
    as [[[collected | e] w2] l2] eqn:Hloop.
  2:{ cbn in Hrun. discriminate. }
  cbn in Hrun. injection Hrun as <- <- <- <-.
  apply collectItems_paths in Hloop as (new & -> & Hnames & Hpaths).
  exists currentPath, names. cbn [app]. repeat split; try done.
  - by rewrite Hread.
  - by rewrite (sort_perm compareItems new), Hnames.
  - by rewrite (sort_perm compareItems new).
Qed.

End ListingFacts.

(** X6. A rendered listing has one item for each name the directory read
    answered, no name twice over and none left out. *)
Theorem listing_shows_every_name_once `{Host} {W : Type} (os : oracle W)
  (queryPath : option string) (w w' : W) (items : list ItemInfo)
  (current : string) (log : list entry) :
  run os (listDirectory queryPath) w = (Ok (Render items current), w', log) ->
  exists currentPath names,
    safePath [orEmpty queryPath] = Ok currentPath /\
    (os _ (Readdir currentPath) w).1 = Ok names /\
    map Item.name items ≡ₚ names.
Proof.
  intros Hrun.
  destruct (list_paths os _ _ _ _ _ _ Hrun)
    as (currentPath & names & Hcp & Hread & _ & Hperm & _).
  eauto.
Qed.

Lemma listing_shows_every_name_once_witness :
  exists currentPath names,
    safePath (H := Demo.host) [orEmpty (Some "docs")] = Ok currentPath /\
    (Fs.os _ (Readdir currentPath) Demo.world).1 = Ok names /\
    map Item.name
      (sort (compareItems (H := Demo.host))
         [{| Item.name := "a.txt"; Item.type := "file";
             Item.size := Some "6.0 B"; Item.modified := "4";
             Item.path := "docs/a.txt" |}])
    ≡ₚ names.
Proof.
  eapply (listing_shows_every_name_once (H := Demo.host) Fs.os (Some "docs")
            Demo.world).
  vm_compute. reflexivity.
Defined.

(** X7. The paths a listing gives lead back to what was listed: with the
    storage root in normal form and the directory read answering names,
    the path of every item, sent back as a request path, resolves to the
    very path the item was read at, and the listing's own current path
    resolves to the listed directory. *)
Theorem listing_paths_lead_back `{Host} {W : Type} (os : oracle W)
  (queryPath : option string) (w w' : W) (items : list ItemInfo)
  (current currentPath : string) (log : list entry) :
  normalizedRoot = true ->
  safePath [orEmpty queryPath] = Ok currentPath ->
  answersNames (Readdir currentPath) (os _ (Readdir currentPath) w).1 ->
  run os (listDirectory queryPath) w = (Ok (Render items current), w', log) ->
  safePath [current] = Ok currentPath /\
  Forall (fun i => safePath [Item.path i]
                   = Ok (Path.join [currentPath; Item.name i])) items.
Proof.
  intros Hroot Hcp Hans Hrun.
  destruct (list_paths os _ _ _ _ _ _ Hrun)
    as (cp & names & Hcp' & Hread & -> & Hperm & Hpaths).
  rewrite Hcp in Hcp'. injection Hcp' as <-.
  rewrite Hread in Hans. cbn in Hans.
  pose proof (accepted_start _ _ Hcp) as Hstart.
  destruct (accepted_absOf Hroot _ _ Hcp) as [Heq Hplain].
  split.
  - rewrite Heq. by apply relative_leads_back; [| | rewrite <- Heq].
  - rewrite Forall_forall in Hpaths |- *. intros i Hi.
    rewrite (Hpaths i Hi).
    assert (Hname : Fs.plain (Item.name i) = true).
    { rewrite Forall_forall in Hans. apply Hans. rewrite <- Hperm.
      apply list_elem_of_fmap. eauto. }
    rewrite Heq, JoinFacts.join_child by assumption.
    apply relative_leads_back; [assumption | |].
    + apply Forall_app. split; [assumption | by repeat constructor].
    + apply JoinFacts.startsWith_child. by rewrite <- Heq.
Qed.

Lemma listing_paths_lead_back_witness :
  safePath (H := Demo.host) [EmptyString] = Ok "/srv/storage" /\
  Forall (fun i => safePath (H := Demo.host) [Item.path i]
                   = Ok (Path.join ["/srv/storage"; Item.name i]))
    (sort (compareItems (H := Demo.host))
       [{| Item.name := "b.txt"; Item.type := "file";
           Item.size := Some "5.0 B"; Item.modified := "1";
           Item.path := "b.txt" |};
        {| Item.name := "docs"; Item.type := "directory";
           Item.size := None; Item.modified := "2"; Item.path := "docs" |};
        {| Item.name := "a.txt"; Item.type := "file";
           Item.size := Some "2.0 B"; Item.modified := "3";
           Item.path := "a.txt" |};
        {| Item.name := "Zed"; Item.type := "directory";
           Item.size := None; Item.modified := "5"; Item.path := "Zed" |}]).
Proof.
  eapply (listing_paths_lead_back (H := Demo.host) Fs.os None Demo.world).
  - vm_compute. reflexivity.
  - vm_compute. reflexivity.
  - vm_compute. repeat constructor.
  - vm_compute. reflexivity.
Defined.

(** ** The directory of a request path *)

Module DirnameFacts.
Import Js Path PathFacts ResolverFacts ChildFacts.

Lemma chars_app (a b : string) :
  list_ascii_of_string (a +:+ b)
  = list_ascii_of_string a ++ list_ascii_of_string b.
Proof.
  induction a as [| c a IH]; [reflexivity |].
  rewrite append_cons. cbn. by rewrite IH.
Qed.

Lemma chars_no_slash (x : string) :
  has_slash x = false ->
  Forall (fun c => is_slash c = false) (list_ascii_of_string x).
Proof.
  induction x as [| c x IH]; [constructor |]. rewrite has_slash_cons.
  intros [Hc Hx]%orb_false_iff. constructor; auto.
Qed.

Lemma dropWhile_all (f : ascii -> bool) (l rest : list ascii) :
  Forall (fun c => f c = true) l ->
  dropWhile f (l ++ rest) = dropWhile f rest.
Proof.
  induction 1 as [| c l Hc _ IH]; [reflexivity |]. cbn. by rewrite Hc.
Qed.

Lemma dropWhile_none (f : ascii -> bool) (c : ascii) (l : list ascii) :
  f c = false -> dropWhile f (c :: l) = c :: l.
Proof. intros Hc. cbn. by rewrite Hc. Qed.

(** The directory of [d/x] is [d], for a name [x] and a [d] that is not
    the root. *)
Lemma dirname_child (c0 : ascii) (d x : string) :
  is_slash c0 = false -> Fs.plain x = true ->
  dirname (String c0 d +:+ "/" +:+ x) = String c0 d.
Proof.
  intros Hc0 Hx. rewrite append_cons. cbn [dirname]. rewrite Hc0.
  rewrite chars_app. change (list_ascii_of_string ("/" +:+ x))
    with ("/"%char :: list_ascii_of_string x).
  rewrite rev_app_distr. cbn [rev]. rewrite <- app_assoc. cbn [app].
  pose proof (chars_no_slash x (plain_no_slash x Hx)) as Hchars.
  apply Forall_rev in Hchars.
  pose proof (plain_nonempty x Hx) as Hne.
  destruct (rev (list_ascii_of_string x)) as [| y ys] eqn:Hrev.
  { apply (f_equal (@rev ascii)) in Hrev. rewrite rev_involutive in Hrev.
    destruct x; [contradiction | discriminate]. }
  apply Forall_cons in Hchars as Hy. destruct Hy as [Hy _].
  cbn [app]. rewrite dropWhile_none by exact Hy.
  change (y :: ys ++ "/"%char :: rev (list_ascii_of_string d))
    with ((y :: ys) ++ "/"%char :: rev (list_ascii_of_string d)).
  rewrite dropWhile_all.
  2:{ eapply Forall_impl; [exact Hchars |]. intros c Hc. cbn. by rewrite Hc. }
  cbn [dropWhile is_slash]. change (negb (is_slash "/")) with false. cbn iota.
  destruct (rev (list_ascii_of_string d)) as [| z zs] eqn:Hd.
  - apply (f_equal (@rev ascii)) in Hd. rewrite rev_involutive in Hd.
    destruct d; [reflexivity | discriminate].
  - rewrite <- Hd, rev_involutive. by rewrite string_of_list_ascii_of_string.
Qed.

(** A bare name has the directory [.]. *)
Lemma dirname_name (x : string) : Fs.plain x = true -> dirname x = ".".
Proof.
  intros Hx. pose proof (chars_no_slash x (plain_no_slash x Hx)) as Hchars.
  destruct x as [| c0 tail]; [reflexivity |]. cbn [dirname].
  cbn [list_ascii_of_string] in Hchars. apply Forall_cons in Hchars as [Hc0 Htail].
  rewrite Hc0. apply Forall_rev in Htail.
  assert (Hskip : forall l, Forall (fun c => is_slash c = false) l ->
            dropWhile (fun c => negb (is_slash c)) (dropWhile is_slash l) = []).
  { intros l Hl. destruct Hl as [| c l Hc Hl]; [reflexivity |].
    rewrite dropWhile_none by exact Hc.
    rewrite <- (app_nil_r (c :: l)). rewrite dropWhile_all; [reflexivity |].
    constructor; [by rewrite Hc |].
    eapply Forall_impl; [exact Hl |]. intros a Ha. by rewrite Ha. }
  by rewrite Hskip.
Qed.

Lemma join_snoc (init : list string) (x : string) :
  init <> [] -> Js.join (init ++ [x]) = Js.join init +:+ "/" +:+ x.
Proof. intros Hi. by rewrite join_app. Qed.

Lemma join_head (init : list string) :
  init <> [] -> Forall (fun s => Fs.plain s = true) init ->
  exists c0 d, Js.join init = String c0 d /\ is_slash c0 = false.
Proof.
  intros Hne Hinit. destruct init as [| s init]; [contradiction |].
  apply Forall_cons in Hinit as [Hs _].
  pose proof (plain_nonempty s Hs) as Hsne.
  pose proof (plain_no_slash s Hs) as Hslash.
  destruct s as [| c0 s]; [contradiction |].
  rewrite has_slash_cons in Hslash. apply orb_false_iff in Hslash as [Hc0 _].
  destruct init as [| y init].
  - by exists c0, s.
  - change (Js.join (String c0 s :: y :: init))
      with (String c0 s +:+ "/" +:+ Js.join (y :: init)).
    rewrite append_cons. eauto.
Qed.

(** The directory of a request path made of names. *)
Lemma dirname_join (init : list string) (x : string) :
  Forall (fun s => Fs.plain s = true) init -> Fs.plain x = true ->
  dirname (Js.join (init ++ [x]))
  = match init with [] => "." | _ => Js.join init end.
Proof.
  intros Hinit Hx. destruct init as [| s init]; [by apply dirname_name |].
  rewrite join_snoc by discriminate.
  destruct (join_head (s :: init)) as (c0 & d & Hj & Hc0);
    [discriminate | assumption |].
  rewrite Hj. rewrite dirname_child by assumption. reflexivity.
Qed.

End DirnameFacts.

Section Renaming.
Context `{Host}.
Hypothesis Hroot : normalizedRoot = true.
Import Js Path Fs PathFacts ResolverFacts ChildFacts DirnameFacts.

(** A request path made of names leads below the storage root. *)
Lemma target_names (l : list string) :
  Forall (fun s => plain s = true) l ->
  target [match l with [] => "." | _ => Js.join l end] = walk STORAGE_DIR ++ l.
Proof.
  intros Hl. unfold target. destruct l as [| s l].
  - cbn [joined isEmpty]. unfold land. cbn. by rewrite rev_involutive, app_nil_r.
  - assert (Hne : Js.join (s :: l) <> EmptyString).
    { intros Hj. apply join_empty in Hj; [discriminate |].
      by apply kept_nonempty, plain_kept. }
    cbn [joined]. apply isEmpty_false in Hne. rewrite Hne.
    unfold land. rewrite firstIsSlash_join by (by apply plain_kept).
    rewrite split_join by (discriminate || by apply kept_no_slash, plain_kept).
    rewrite normSegs_plain by assumption.
    by rewrite <- rev_app_distr, rev_involutive.
Qed.

Lemma safePath_names (l : list string) :
  Forall (fun s => plain s = true) l -> l <> [] ->
  safePath [Js.join l] = Ok (absOf (walk STORAGE_DIR ++ l)) /\
  walk (absOf (walk STORAGE_DIR ++ l)) = walk STORAGE_DIR ++ l.
Proof.
  intros Hl Hne. pose proof (target_names l Hl) as Ht.
  destruct l as [| s l]; [contradiction |].
  split.
  - rewrite (safePath_inside Hroot); rewrite Ht; [reflexivity | by exists (s :: l)].
  - apply walk_absOf, Forall_app. split; [apply walk_plain | assumption].
Qed.

Lemma safePath_sibling (init : list string) (x n : string) :
  Forall (fun s => plain s = true) init -> plain x = true -> plain n = true ->
  safePath [dirname (Js.join (init ++ [x])); n]
  = Ok (absOf (walk STORAGE_DIR ++ init ++ [n])) /\
  walk (absOf (walk STORAGE_DIR ++ init ++ [n])) = walk STORAGE_DIR ++ init ++ [n].
Proof.
  intros Hinit Hx Hn. rewrite dirname_join by assumption. split.
  - rewrite (safePath_inside Hroot); rewrite (target_child _ _ Hn), target_names
      by assumption; rewrite <- app_assoc; [reflexivity | by eexists].
  - apply walk_absOf. rewrite !Forall_app. repeat split;
      [apply walk_plain | assumption | by repeat constructor].
Qed.

End Renaming.



(** X9. Upload does not look whether the sanitized file name is empty:
    for a file whose name sanitizes to nothing the write aims at the target
    directory itself and fails, the answer is 500 and the tree is as it
    was. *)
Theorem upload_of_a_name_sanitized_away `{Host} (queryPath : option string)
  (fileName data : string) (w : Fs.World) (targetDir : string) (m : Z) :
  normalizedRoot = true ->
  Fs.wf (Fs.tree w) ->
  safePath [orEmpty queryPath] = Ok targetDir ->
  Fs.tree w !! Fs.walk targetDir = Some (Fs.Dir m) ->
  sanitize fileName = EmptyString ->
  run Fs.os (upload queryPath [(fileName, data)]) w
  = (Ok (Send 500 "Error uploading files"), w,
     [attempt targetDir (fileName, data)
        (Err (SystemError EISDIR "open" targetDir None))]).
Proof.
  intros Hroot Hwf Hdir Htree Hsan.
  destruct (accepted_absOf Hroot _ _ Hdir) as [Heq Hplain].
  assert (Hdest : Path.join [targetDir; sanitize fileName] = targetDir).
  { rewrite Hsan, Heq. by rewrite JoinFacts.join_nothing, <- Heq. }
  unfold upload, uploadBody, attempt, destination. cbn [fst snd].
  run_simpl. rewrite Hdir. cbn [uploadFiles]. cbv zeta. rewrite Hdest.
  run_simpl. cbn [Fs.os]. unfold Fs.mvTree.
  destruct (Fs.parentOf (Fs.walk targetDir)) as [[pc x] |] eqn:Hparent;
    [| reflexivity].
  apply FsFacts.parentOf_Some in Hparent.
  rewrite Hparent in Htree.
  destruct (FsFacts.wf_parent _ _ _ _ Hwf Htree) as [m' Hpc].
  unfold Fs.isFileAt. rewrite Hpc.
  rewrite FsFacts.underFile_false.
  2:{ intros k Hk. eapply FsFacts.wf_ancestors; [exact Hwf | exact Hpc | exact Hk]. }
  cbn [orb]. rewrite FsFacts.addDirs_lookup, Hparent, Htree. reflexivity.
Qed.

Lemma upload_of_a_name_sanitized_away_witness :
  run Fs.os (upload (H := Demo.host) (Some "docs") [("..", "data")]) Demo.world
  = (Ok (Send 500 "Error uploading files"), Demo.world,
     [attempt (H := Demo.host) "/srv/storage/docs" ("..", "data")
        (Err (SystemError EISDIR "open" "/srv/storage/docs" None))]).
Proof.
  apply (upload_of_a_name_sanitized_away (H := Demo.host) (Some "docs") ".."
           "data" Demo.world "/srv/storage/docs" 2).
  - vm_compute. reflexivity.
  - apply (bool_decide_eq_true_1 (Fs.wf Demo.tree)). vm_compute. reflexivity.
  - vm_compute. reflexivity.
  - vm_compute. reflexivity.
  - vm_compute. reflexivity.
Defined.

(** ** The announced address *)

Module NetFacts.
Import Net.

Lemma scanAddresses_find (ifaces : list Iface) :
  scanAddresses ifaces = option_map address (List.find external ifaces).
Proof.
  induction ifaces as [| i rest IH]; [reflexivity |]. cbn.
  by destruct (external i).
Qed.

Lemma find_app {A : Type} (f : A -> bool) (l1 l2 : list A) :
  List.find f (l1 ++ l2)
  = match List.find f l1 with Some x => Some x | None => List.find f l2 end.
Proof.
  induction l1 as [| x l1 IH]; [reflexivity |]. cbn. by destruct (f x).
Qed.

Lemma scanInterfaces_find (interfaces : Interfaces) :
  scanInterfaces interfaces
  = option_map address (List.find external (addresses interfaces)).
Proof.
  induction interfaces as [| [name ifaces] rest IH]; [reflexivity |].
  cbn [scanInterfaces]. unfold addresses. cbn [map concat snd].
  rewrite find_app, scanAddresses_find.
  destruct (List.find external ifaces); [reflexivity | exact IH].
Qed.

End NetFacts.

(** X10. Both address look-ups return the address of the first interface
    entry, in the order the loops visit them, that is IPv4 and not
    internal; with no such entry [getNetworkIP] falls back to localhost and
    [getLocalIPv4] to the loopback address. *)
Theorem first_external_address (interfaces : Net.Interfaces) :
  Net.getNetworkIP interfaces
  = match List.find Net.external (Net.addresses interfaces) with
    | Some iface => Net.address iface
    | None => "localhost"
    end /\
  Net.getLocalIPv4 interfaces
  = match List.find Net.external (Net.addresses interfaces) with
    | Some iface => Net.address iface
    | None => "127.0.0.1"
    end.
Proof.
  unfold Net.getNetworkIP, Net.getLocalIPv4.
  rewrite NetFacts.scanInterfaces_find.
  by destruct (List.find Net.external (Net.addresses interfaces)).
Qed.

(** ** Escaping *)

Module XmlFacts.
Import Advertise.

Lemma each_append (f : ascii -> string) (a b : string) :
  each f (a +:+ b) = each f a +:+ each f b.
Proof.
  induction a as [| c a IH]; [reflexivity |].
  rewrite append_cons. cbn [each]. by rewrite IH, append_assoc.
Qed.

Lemma each_each (f g : ascii -> string) (s : string) :
  each f (each g s) = each (fun a => each f (g a)) s.
Proof.
  induction s as [| a s IH]; [reflexivity |]. cbn [each].
  by rewrite each_append, IH.
Qed.

Lemma each_ext (f g : ascii -> string) (s : string) :
  (forall a, f a = g a) -> each f s = each g s.
Proof.
  intros Hfg. induction s as [| a s IH]; [reflexivity |]. cbn [each].
  by rewrite Hfg, IH.
Qed.

Lemma replaceAll_each (c : ascii) (by_ s : string) :
  replaceAll c by_ s
  = each (fun a => if Ascii.eqb a c then by_ else String a EmptyString) s.
Proof.
  induction s as [| a s IH]; [reflexivity |]. cbn [replaceAll each].
  rewrite IH. by destruct (Ascii.eqb a c).
Qed.

Lemma occurs_append (c : ascii) (a b : string) :
  occurs c (a +:+ b) = occurs c a || occurs c b.
Proof.
  induction a as [| x a IH]; [reflexivity |].
  rewrite append_cons. cbn [occurs]. by rewrite IH, orb_assoc.
Qed.

Lemma occurs_each (c : ascii) (f : ascii -> string) (s : string) :
  (forall a, occurs c (f a) = false) -> occurs c (each f s) = false.
Proof.
  intros Hf. induction s as [| a s IH]; [reflexivity |]. cbn [each].
  by rewrite occurs_append, Hf, IH.
Qed.

Lemma escapeXml_each (s : string) : escapeXml s = each escaped s.
Proof.
  unfold escapeXml. rewrite !replaceAll_each, !each_each.
  apply each_ext. intros [[] [] [] [] [] [] [] []]; vm_compute; reflexivity.
Qed.

Lemma escaped_clean (c : ascii) :
  In c ["<"%char; ">"%char; quot; apos] ->
  forall a, occurs c (escaped a) = false.
Proof.
  intros Hc [[] [] [] [] [] [] [] []];
    repeat (destruct Hc as [<- | Hc]; [vm_compute; reflexivity |]);
    destruct Hc.
Qed.

End XmlFacts.

(** X11. [escapeXml] escapes every character once and none twice: the
    result is the input with each of the five special characters replaced
    by its entity, the ampersands of the entities themselves left alone;
    no angle bracket, double quote or apostrophe is left in it. *)
Theorem escapeXml_escapes_each_character_once (s : string) :
  Advertise.escapeXml s = each Advertise.escaped s /\
  Advertise.occurs "<" (Advertise.escapeXml s) = false /\
  Advertise.occurs ">" (Advertise.escapeXml s) = false /\
  Advertise.occurs Advertise.quot (Advertise.escapeXml s) = false /\
  Advertise.occurs Advertise.apos (Advertise.escapeXml s) = false.
Proof.
  rewrite XmlFacts.escapeXml_each.
  repeat split; apply XmlFacts.occurs_each, XmlFacts.escaped_clean; cbn; auto.
Qed.

(** ** Binding the helper server *)

Module ListenFacts.
Import Advertise.

(** What one run of [attempt] comes to, [attempts] ports having been found
    in use before it. *)
Lemma attempt_spec (listen : Z -> bound) (startPort maxTries : Z) (fuel : nat)
  (attempts : Z) :
  (0 <= attempts)%Z ->
  (attempts < tries maxTries)%Z ->
  (tries maxTries - attempts <= Z.of_nat fuel)%Z ->
  (forall j, (0 <= j < attempts)%Z -> listen (startPort + j)%Z = AddressInUse) ->
  exists r,
    attempt listen maxTries fuel attempts (startPort + attempts)%Z = Some r /\
    match r with
    | Advertising port =>
        exists k addressPort,
          (0 <= k < tries maxTries)%Z /\
          (forall j, (0 <= j < k)%Z -> listen (startPort + j)%Z = AddressInUse) /\
          listen (startPort + k)%Z = Listening addressPort /\
          port = match addressPort with
                 | Some p => if (p =? 0)%Z then (startPort + k)%Z else p
                 | None => (startPort + k)%Z
                 end
    | Exit code =>
        code = 1%Z /\
        ((forall j, (0 <= j < tries maxTries)%Z ->
                    listen (startPort + j)%Z = AddressInUse) \/
         (exists k,
            (0 <= k < tries maxTries)%Z /\
            (forall j, (0 <= j < k)%Z -> listen (startPort + j)%Z = AddressInUse) /\
            listen (startPort + k)%Z = Failed))
    end.
Proof.
  revert attempts. induction fuel as [| fuel IH]; intros attempts H0 Hlt Hfuel Hused.
  { cbn in Hfuel. lia. }
  cbn [attempt]. destruct (listen (startPort + attempts)%Z) as [addr | |] eqn:Hl.
  - eexists. split; [reflexivity |]. exists attempts, addr. auto.
  - assert (Hused' : forall j, (0 <= j < attempts + 1)%Z ->
                               listen (startPort + j)%Z = AddressInUse).
    { intros j Hj. destruct (decide (j = attempts)) as [-> | Hne]; [exact Hl |].
      apply Hused. lia. }
    destruct (Z.ltb_spec (attempts + 1) maxTries) as [Hmore | Hlast].
    + rewrite <- Z.add_assoc. apply IH; unfold tries in *; try lia. exact Hused'.
    + eexists. split; [reflexivity |]. split; [reflexivity |]. left.
      intros j Hj. apply Hused'. unfold tries in *. lia.
  - eexists. split; [reflexivity |]. split; [reflexivity |]. right.
    exists attempts. auto.
Qed.

End ListenFacts.

(** X12. [tryListen] always comes to an end, after at most [maxTries]
    attempts (one, if [maxTries] is below one), each on the port after the
    last: it advertises on the first port that is not in use, with the port
    the server reports for it if it reports one; it exits with code 1 when
    all the ports tried are in use, or at the first port whose [listen]
    fails in another way. *)
Theorem tryListen_binds_the_first_free_port (listen : Z -> Advertise.bound)
  (startPort maxTries : Z) :
  exists r,
    Advertise.tryListen listen startPort maxTries = Some r /\
    match r with
    | Advertise.Advertising port =>
        exists k addressPort,
          (0 <= k < Advertise.tries maxTries)%Z /\
          (forall j, (0 <= j < k)%Z ->
                     listen (startPort + j)%Z = Advertise.AddressInUse) /\
          listen (startPort + k)%Z = Advertise.Listening addressPort /\
          port = match addressPort with
                 | Some p => if (p =? 0)%Z then (startPort + k)%Z else p
                 | None => (startPort + k)%Z
                 end
    | Advertise.Exit code =>
        code = 1%Z /\
        ((forall j, (0 <= j < Advertise.tries maxTries)%Z ->
                    listen (startPort + j)%Z = Advertise.AddressInUse) \/
         (exists k,
            (0 <= k < Advertise.tries maxTries)%Z /\
            (forall j, (0 <= j < k)%Z ->
                       listen (startPort + j)%Z = Advertise.AddressInUse) /\
            listen (startPort + k)%Z = Advertise.Failed))
    end.
Proof.
  unfold Advertise.tryListen.
  destruct (ListenFacts.attempt_spec listen startPort maxTries
              (S (Z.to_nat maxTries)) 0) as (r & Hr & Hspec);
    unfold Advertise.tries; try lia.
  rewrite Z.add_0_r in Hr. eauto.
Qed.

(** ** The theme *)

Module ThemeFacts.
Import Theme.

Lemma elem_of_removeTokens (a b t : string) (classes : list string) :
  t ∈ removeTokens a b classes <-> t ∈ classes /\ t <> a /\ t <> b.
Proof. unfold removeTokens. rewrite list_elem_of_filter. tauto. Qed.

Lemma applyTheme_valid (theme : string) (page : Page) :
  Js.isEmpty theme = false -> hasWhitespace theme = false ->
  exists page',
    applyTheme theme page = (setItemThrows page STORAGE_KEY theme, page') /\
    localStorage page'
    = match setItemThrows page STORAGE_KEY theme with
      | Some _ => localStorage page
      | None => <[STORAGE_KEY := theme]> (localStorage page)
      end /\
    prefersLight page' = prefersLight page /\
    forall t, t ∈ classList page' <->
              t = theme \/ (t ∈ classList page /\ t <> LIGHT_THEME /\ t <> DARK_THEME).
Proof.
  intros Hne Hws. unfold applyTheme, addToken, setItem. rewrite Hne, Hws.
  assert (Hadded : forall t,
    t ∈ (if bool_decide
              (theme ∈ removeTokens LIGHT_THEME DARK_THEME (classList page))
         then removeTokens LIGHT_THEME DARK_THEME (classList page)
         else removeTokens LIGHT_THEME DARK_THEME (classList page) ++ [theme])
    <-> t = theme \/ (t ∈ classList page /\ t <> LIGHT_THEME /\ t <> DARK_THEME)).
  { intros t.
    destruct (bool_decide_reflect
                (theme ∈ removeTokens LIGHT_THEME DARK_THEME (classList page)))
      as [Hin | Hout].
    - rewrite elem_of_removeTokens. split; [tauto |].
      intros [-> | ?]; [| assumption]. by apply elem_of_removeTokens.
    - rewrite elem_of_app, elem_of_removeTokens, list_elem_of_singleton. tauto. }
  destruct (setItemThrows page STORAGE_KEY theme) as [e |];
    (eexists; split; [reflexivity |]);
    cbn [classList localStorage prefersLight]; auto.
Qed.

End ThemeFacts.

(** X13. A toggle flips the class whatever becomes of the storage: the
    page then carries the other theme's class (light if it had no light
    class) and not the one it turned from, and its other classes are as
    they were.  The write to the storage comes last and nothing catches
    what it throws: if [localStorage.setItem] takes the new theme, the
    toggle ends without an exception and [getPreferredTheme] gives the new
    theme at the next load; if it throws, the toggle ends with that
    exception, after the class was changed, the storage is as it was, and
    [getPreferredTheme] gives what it gave before. *)
Theorem toggleTheme_flips_the_class (page : Theme.Page) :
  exists page',
    Theme.toggleTheme page
    = (Theme.setItemThrows page Theme.STORAGE_KEY (toggled page), page') /\
    toggled page ∈ Theme.classList page' /\
    (toggled page' ∉ Theme.classList page') /\
    toggled page' <> toggled page /\
    (forall t, t <> Theme.LIGHT_THEME -> t <> Theme.DARK_THEME ->
               (t ∈ Theme.classList page' <-> t ∈ Theme.classList page)) /\
    match Theme.setItemThrows page Theme.STORAGE_KEY (toggled page) with
    | None => Theme.getPreferredTheme page' = toggled page
    | Some _ =>
        Theme.localStorage page' = Theme.localStorage page /\
        Theme.getPreferredTheme page' = Theme.getPreferredTheme page
    end.
Proof.
  unfold Theme.toggleTheme. fold (toggled page).
  assert (Hnew : (if String.eqb
                       (if bool_decide (Theme.LIGHT_THEME ∈ Theme.classList page)
                        then Theme.LIGHT_THEME else Theme.DARK_THEME)
                       Theme.LIGHT_THEME
                  then Theme.DARK_THEME else Theme.LIGHT_THEME) = toggled page).
  { unfold toggled. by destruct (bool_decide _). }
  rewrite Hnew.
  assert (Hvalid : Js.isEmpty (toggled page) = false /\
                   Theme.hasWhitespace (toggled page) = false /\
                   (toggled page = Theme.LIGHT_THEME \/
                    toggled page = Theme.DARK_THEME)).
  { unfold toggled. destruct (bool_decide _); vm_compute; auto. }
  destruct Hvalid as (Hne & Hws & Hcases).
  destruct (ThemeFacts.applyTheme_valid (toggled page) page Hne Hws)
    as (page' & Happly & Hstore & Hprefers & Hclasses).
  exists page'. split; [exact Happly |].
  assert (Hin : toggled page ∈ Theme.classList page') by (apply Hclasses; auto).
  assert (Hother : toggled page' <> toggled page /\
                   (toggled page' ∉ Theme.classList page')).
  { unfold toggled at 1 3.
    destruct (bool_decide_reflect (Theme.LIGHT_THEME ∈ Theme.classList page'))
      as [Hl | Hl].
    - apply Hclasses in Hl as [Hl | (_ & Hl & _)]; [| done].
      rewrite <- Hl. split; [discriminate |].
      rewrite Hclasses. intros [Hd | (_ & _ & Hd)]; [| done].
      rewrite <- Hl in Hd. discriminate.
    - destruct Hcases as [Hc | Hc]; [by rewrite Hc in Hin |].
      rewrite Hc. split; [discriminate | exact Hl]. }
  destruct Hother as [Hdiff Hout].
  split; [exact Hin |]. split; [exact Hout |]. split; [exact Hdiff |]. split.
  - intros t Hl Hd. split.
    + intros Ht. apply Hclasses in Ht as [-> | (Ht & _)]; [| exact Ht].
      destruct Hcases; congruence.
    + intros Ht. apply Hclasses. auto.
  - destruct (Theme.setItemThrows page Theme.STORAGE_KEY (toggled page)).
    + split; [exact Hstore |].
      unfold Theme.getPreferredTheme. by rewrite Hstore, Hprefers.
    + unfold Theme.getPreferredTheme. rewrite Hstore, lookup_insert_eq.
      by rewrite Hne.
Qed.

(** The write that is refused: with the quota used up, the toggle of a
    dark page ends with the exception of [setItem]; the page is light by
    then, and dark is still what the storage holds for the next load. *)
Example toggle_with_the_quota_used_up :
  Theme.toggleTheme
    {| Theme.classList := ["dark"];
       Theme.localStorage := {[ Theme.STORAGE_KEY := "dark" ]};
       Theme.prefersLight := None;
       Theme.setItemThrows := fun _ _ => Some Theme.QuotaExceededError |}
  = (Some Theme.QuotaExceededError,
     {| Theme.classList := ["light"];
        Theme.localStorage := {[ Theme.STORAGE_KEY := "dark" ]};
        Theme.prefersLight := None;
        Theme.setItemThrows := fun _ _ => Some Theme.QuotaExceededError |}).
Proof. reflexivity. Qed.

(** X16. The stored theme is applied as it is found: when it holds
    whitespace the initial [applyTheme] throws from [classList.add], after
    the light and dark classes were removed; the page is left with neither
    and the storage as it was. *)
Theorem stored_theme_with_whitespace_breaks_the_load (page : Theme.Page)
  (savedTheme : string) :
  Theme.localStorage page !! Theme.STORAGE_KEY = Some savedTheme ->
  Theme.hasWhitespace savedTheme = true ->
  exists page',
    Theme.applyInitialTheme page = (Some Theme.InvalidCharacterError, page') /\
    (Theme.LIGHT_THEME ∉ Theme.classList page') /\
    (Theme.DARK_THEME ∉ Theme.classList page') /\
    Theme.localStorage page' = Theme.localStorage page.
Proof.
  intros Hsaved Hws.
  assert (Hne : Js.isEmpty savedTheme = false) by (by destruct savedTheme).
  unfold Theme.applyInitialTheme, Theme.getPreferredTheme. rewrite Hsaved, Hne.
  cbn [negb]. unfold Theme.applyTheme, Theme.addToken. rewrite Hne, Hws.
  eexists. split; [reflexivity |]. cbn [Theme.classList Theme.localStorage].
  rewrite !ThemeFacts.elem_of_removeTokens. tauto.
Qed.

Lemma stored_theme_with_whitespace_breaks_the_load_witness :
  exists page',
    Theme.applyInitialTheme
      {| Theme.classList := ["wide"; "dark"];
         Theme.localStorage := {[ Theme.STORAGE_KEY := "solarized dark" ]};
         Theme.prefersLight := None;
         Theme.setItemThrows := fun _ _ => None |}
    = (Some Theme.InvalidCharacterError, page') /\
    (Theme.LIGHT_THEME ∉ Theme.classList page') /\
    (Theme.DARK_THEME ∉ Theme.classList page') /\
    Theme.localStorage page'
    = Theme.localStorage
        {| Theme.classList := ["wide"; "dark"];
           Theme.localStorage := {[ Theme.STORAGE_KEY := "solarized dark" ]};
           Theme.prefersLight := None;
         Theme.setItemThrows := fun _ _ => None |}.
Proof.
  apply (stored_theme_with_whitespace_breaks_the_load
           {| Theme.classList := ["wide"; "dark"];
              Theme.localStorage := {[ Theme.STORAGE_KEY := "solarized dark" ]};
              Theme.prefersLight := None;
         Theme.setItemThrows := fun _ _ => None |} "solarized dark").
  - apply lookup_singleton_eq.
  - vm_compute. reflexivity.
Defined.

(** ** The terminal *)

Section TerminalFacts.
Context `{Host} {W : Type} (sys : Terminal.oracle W).
Import Terminal.

Ltac step :=
  cbn [run tryCatch bind mbind mret sh_bind sh_ret lift sync call needString
         firstArg orEmpty falsy head fst snd negb entryPath callPath];
  match goal with
  | |- context [needString _ ?o] => is_var o; destruct o
  | |- context [firstArg ?o] => is_var o; destruct o
  | |- context [head ?l] => is_var l; destruct l
  | |- context [String.eqb ?a ?b] =>
      let Hc := fresh "Hc" in destruct (String.eqb a b) eqn:Hc
  | |- context [Js.isEmpty ?a] => destruct (Js.isEmpty a)
  | |- context [safePath ?ps] =>
      let Hp := fresh "Hp" in destruct (safePath ps) eqn:Hp
  | |- context [sys ?X ?ev ?w] =>
      let Hs := fresh "Hs" in destruct (sys X ev w) as [? ?] eqn:Hs
  | |- context [match ?r with Ok _ => _ | Err _ => _ end] =>
      is_var r; destruct r
  | |- context [if ?b then _ else _] => is_var b; destruct b
  | |- context [if negb ?b then _ else _] => is_var b; destruct b
  | |- context [if negb (isDirectory ?s) then _ else _] =>
      let Hd := fresh "Hd" in destruct (isDirectory s) eqn:Hd
  end.

Lemma run_terminal (command : option string) (args : option (list string))
  (currentPath : option string) (w : W) :
  exists j,
    (run sys (terminal command args currentPath) w).1.1 = inr j /\
    Forall (fun e => accepted (entryPath e))
      (run sys (terminal command args currentPath) w).2 /\
    forall out current,
      j = Response out current ->
      exists q,
        safePath [current] = Ok q /\
        (currentPath = Some current \/
         entered q (run sys (terminal command args currentPath) w).2).
Proof.
  unfold terminal, terminalBody, cd, onName.
  repeat step.
  all: cbn [run tryCatch bind mbind mret sh_bind sh_ret lift sync call fst snd].
  all: eexists; (split; [reflexivity |]).
  all: split; [repeat constructor; cbn; unfold accepted; eauto |].
  all: try discriminate.
  all: intros out current [= <- <-]; eauto.
  all: eexists; (split; [eassumption |]); right; cbn; eexists; eauto.
Qed.

(** The stream of [touch] is the one thing whose failure the route does
    not see. *)
Lemma uncaught_terminal (command : option string) (args : option (list string))
  (currentPath : option string) (w : W) (error : exn) :
  error ∈ uncaught (run sys (terminal command args currentPath) w).2 ->
  exists c name current p,
    command = Some c /\ toLowerCase c = "touch" /\
    currentPath = Some current /\
    safePath [current; name] = Ok p /\
    (run sys (terminal command args currentPath) w).2
    = [Entry (CreateWriteStream p) (Some error)] /\
    (run sys (terminal command args currentPath) w).1.1
    = inr (Response ("Created file: " +:+ name) current).
Proof.
  unfold terminal, terminalBody, cd, onName.
  repeat step.
  all: cbn [run tryCatch bind mbind mret sh_bind sh_ret lift sync call fst snd
              uncaught omap list_omap streamError].
  all: try (intros Hin; by apply elem_of_nil in Hin).
  all: match goal with
       | |- context [match ?o with Some _ => _ | None => _ end] => destruct o
       end.
  all: try (intros Hin; by apply elem_of_nil in Hin).
  all: intros ->%list_elem_of_singleton.
  all: match goal with
       | Hc : String.eqb (toLowerCase _) "touch" = true |- _ =>
           apply String.eqb_eq in Hc
       end.
  all: eexists _, _, _, _; repeat split; try eassumption; reflexivity.
Qed.

End TerminalFacts.

(** X14. Whatever is sent to the terminal and whatever the filesystem
    answers, the route ends with a body of its own: what is thrown inside
    its [try] is caught and answered as an error.  Every path it hands to
    a filesystem call ([ls], [cd], [mkdir], [rm], [touch]) is one
    [safePath] returned, so it begins with the storage root.  What the
    route does not catch is the ['error'] event of the stream that [touch]
    opens: it has no listener and ends the process.  That happens for no
    other command, and only with the open of the stream failed, the one
    call of the request; the route has answered "Created file" by then. *)
Theorem terminal_calls_only_under_root `{Host} {W : Type}
  (sys : Terminal.oracle W) (command : option string)
  (args : option (list string)) (currentPath : option string) (w : W) :
  (exists j,
     (Terminal.run sys (Terminal.terminal command args currentPath) w).1.1
     = inr j) /\
  Forall (fun e => Js.startsWith (Terminal.entryPath e) STORAGE_DIR = true)
    (Terminal.run sys (Terminal.terminal command args currentPath) w).2 /\
  forall error,
    error ∈ Terminal.uncaught
              (Terminal.run sys (Terminal.terminal command args currentPath) w).2 ->
    exists c name current p,
      command = Some c /\ Terminal.toLowerCase c = "touch" /\
      currentPath = Some current /\
      safePath [current; name] = Ok p /\
      (Terminal.run sys (Terminal.terminal command args currentPath) w).2
      = [Terminal.Entry (Terminal.CreateWriteStream p) (Some error)] /\
      (Terminal.run sys (Terminal.terminal command args currentPath) w).1.1
      = inr (Terminal.Response ("Created file: " +:+ name) current).
Proof.
  destruct (run_terminal sys command args currentPath w) as (j & Hj & Hlog & _).
  split; [eauto |]. split; [| apply uncaught_terminal].
  eapply Forall_impl; [exact Hlog |].
  intros e [ps Hps]. by apply safePath_Ok in Hps as [_ Hstart].
Qed.

(** The stream that fails: [touch nodir/x.txt] where there is no
    directory [nodir].  The route answers that the file was created; the
    open of the stream fails after that, and its error is not caught. *)
Example touch_in_a_missing_directory :
  Terminal.run Terminal.os
    (Terminal.terminal (H := Demo.host) (Some "touch") (Some ["nodir/x.txt"])
       (Some EmptyString)) Demo.world
  = (inr (Terminal.Response "Created file: nodir/x.txt" EmptyString),
     Demo.world,
     [Terminal.Entry (Terminal.CreateWriteStream "/srv/storage/nodir/x.txt")
        (Some (SystemError ENOENT "open" "/srv/storage/nodir/x.txt" None))]) /\
  Terminal.uncaught
    (Terminal.run Terminal.os
       (Terminal.terminal (H := Demo.host) (Some "touch") (Some ["nodir/x.txt"])
          (Some EmptyString)) Demo.world).2
  = [SystemError ENOENT "open" "/srv/storage/nodir/x.txt" None].
Proof. split; vm_compute; reflexivity. Qed.

(** X15. The current path the terminal hands back is one [safePath]
    accepts: it is the one that was sent, or, after a [cd], a path whose
    resolution the filesystem said exists and is a directory. *)
Theorem terminal_hands_back_an_accepted_path `{Host} {W : Type}
  (sys : Terminal.oracle W) (command : option string)
  (args : option (list string)) (currentPath : option string) (w : W)
  (output current : string) :
  (Terminal.run sys (Terminal.terminal command args currentPath) w).1.1
  = inr (Terminal.Response output current) ->
  exists q,
    safePath [current] = Ok q /\
    (currentPath = Some current \/
     Terminal.entered q
       (Terminal.run sys (Terminal.terminal command args currentPath) w).2).
Proof.
  intros Hrun.
  destruct (run_terminal sys command args currentPath w) as (j & Hj & _ & Hcur).
  rewrite Hj in Hrun. injection Hrun as ->. exact (Hcur _ _ eq_refl).
Qed.

Lemma terminal_hands_back_an_accepted_path_witness :
  exists q,
    safePath (H := Demo.host) ["docs"] = Ok q /\
    (Some EmptyString = Some "docs" \/
     Terminal.entered q
       (Terminal.run Terminal.os
          (Terminal.terminal (H := Demo.host) (Some "CD") (Some ["docs"])
             (Some EmptyString)) Demo.world).2).
Proof.
  apply (terminal_hands_back_an_accepted_path (H := Demo.host) Terminal.os
           (Some "CD") (Some ["docs"]) (Some EmptyString) Demo.world
           EmptyString "docs").
  vm_compute. reflexivity.
Defined.

(** ** The upload of a folder *)

Module NestedFacts.
Import Js Path PathFacts ResolverFacts ChildFacts JoinFacts DirnameFacts.

Lemma part_no_slash (parts : list string) :
  Forall part parts -> Forall (fun s => has_slash s = false) parts.
Proof.
  intros Hp. eapply Forall_impl; [exact Hp |].
  intros s [-> | Hs]; [reflexivity | by apply plain_no_slash].
Qed.

Lemma names_plain (parts : list string) :
  Forall part parts ->
  Forall (fun s => Fs.plain s = true) (filter (fun s => s <> EmptyString) parts).
Proof.
  intros Hp. apply Forall_forall. intros s [Hne Hin]%list_elem_of_filter.
  rewrite Forall_forall in Hp. by destruct (Hp s Hin).
Qed.

Lemma normSegs_parts (b : bool) (acc parts : list string) :
  Forall part parts ->
  normSegs b acc parts = rev (filter (fun s => s <> EmptyString) parts) ++ acc.
Proof.
  intros Hp. revert acc. induction Hp as [| s parts Hs _ IH]; intros acc;
    [reflexivity |].
  rewrite normSegs_cons. destruct Hs as [-> | Hs].
  - rewrite filter_cons_False by (by intros ?). apply IH.
  - rewrite (step_plain _ _ _ Hs), IH.
    rewrite filter_cons_True by (by apply plain_nonempty).
    cbn [rev]. by rewrite <- app_assoc.
Qed.

Lemma join_parts_empty (parts : list string) :
  parts <> [] -> Js.join parts = EmptyString ->
  filter (fun s => s <> EmptyString) parts = [].
Proof.
  destruct parts as [| x [| y rest]]; [done | |].
  - change (Js.join [x]) with x. intros _ ->.
    by rewrite filter_cons_False by (by intros ?).
  - change (Js.join (x :: y :: rest)) with (x +:+ "/" +:+ Js.join (y :: rest)).
    intros _ Hj. destruct x; discriminate.
Qed.

Lemma walk_trailing (l : list string) (t : string) :
  Forall (fun s => Fs.plain s = true) l -> t = EmptyString \/ t = "/" ->
  Fs.walk (absOf l +:+ t) = l.
Proof.
  intros Hl [-> | ->].
  - rewrite append_nil_r. by apply walk_absOf.
  - unfold Fs.walk. rewrite split_trailing, normSegs_snoc_empty.
    by apply walk_absOf.
Qed.

(** Where a path of sanitized segments leads from a directory in normal
    form: to the names among the segments, with a separator at the end or
    without. *)
Lemma join_parts (cs parts : list string) :
  Forall (fun s => Fs.plain s = true) cs -> Forall part parts -> parts <> [] ->
  exists t,
    (t = EmptyString \/ t = "/") /\
    Path.join [absOf cs; Js.join parts]
    = absOf (cs ++ filter (fun s => s <> EmptyString) parts) +:+ t.
Proof.
  intros Hcs Hparts Hne. set (names := filter _ parts).
  destruct (isEmpty (Js.join parts)) eqn:He.
  - apply isEmpty_true in He. exists EmptyString. split; [by left |].
    unfold names. rewrite (join_parts_empty parts Hne He), He, app_nil_r.
    rewrite append_nil_r. by apply join_nothing.
  - unfold Path.join. cbn [joined]. change (isEmpty (absOf cs)) with false.
    cbn iota. rewrite He.
    set (j := absOf cs +:+ "/" +:+ Js.join parts).
    assert (Hstack : stack j = rev (cs ++ names)).
    { unfold stack, j. change (firstIsSlash (absOf cs +:+ "/" +:+ Js.join parts))
        with true. cbn [negb].
      rewrite split_app_slash, normSegs_app, split_absOf by assumption.
      rewrite split_join by (done || by apply part_no_slash).
      rewrite normSegs_parts by assumption. by rewrite rev_app_distr. }
    assert (Hfirst : firstIsSlash j = true) by reflexivity.
    destruct (normalize_cases j) as [[Hs ->] | [Hs ->]]; [discriminate | |].
    + rewrite Hfirst. exists EmptyString. split; [by left |].
      rewrite Hstack in Hs. apply (f_equal (@rev string)) in Hs.
      rewrite rev_involutive in Hs. cbn in Hs. by rewrite Hs.
    + rewrite Hfirst, Hstack, rev_involutive.
      exists (if lastIsSlash j then "/" else EmptyString).
      split; [destruct (lastIsSlash j); auto | reflexivity].
Qed.

(** The directory of an absolute path in normal form, with a separator at
    its end or without. *)
Lemma dirname_absOf (l : list string) (x t : string) :
  Forall (fun s => Fs.plain s = true) l -> Fs.plain x = true ->
  t = EmptyString \/ t = "/" ->
  dirname (absOf (l ++ [x]) +:+ t) = absOf l.
Proof.
  intros Hl Hx Ht. unfold absOf.
  replace (("/" +:+ Js.join (l ++ [x])) +:+ t)
    with (String "/" (Js.join (l ++ [x]) +:+ t)) by reflexivity.
  cbn [dirname]. change (is_slash "/") with true. cbn iota.
  rewrite chars_app, rev_app_distr.
  pose proof (chars_no_slash x (plain_no_slash x Hx)) as Hchars.
  apply Forall_rev in Hchars.
  pose proof (plain_nonempty x Hx) as Hne.
  destruct (rev (list_ascii_of_string x)) as [| y ys] eqn:Hrev.
  { apply (f_equal (@rev ascii)) in Hrev. rewrite rev_involutive in Hrev.
    destruct x; [contradiction | discriminate]. }
  apply Forall_cons in Hchars as Hy. destruct Hy as [Hy _].
  assert (Hskip : forall rest,
            dropWhile (fun c => negb (is_slash c))
              (dropWhile is_slash (rev (list_ascii_of_string t) ++ (y :: ys) ++ rest))
            = dropWhile (fun c => negb (is_slash c)) rest).
  { intros rest.
    assert (Hbody : dropWhile (fun c => negb (is_slash c))
                      (dropWhile is_slash ((y :: ys) ++ rest))
                    = dropWhile (fun c => negb (is_slash c)) rest).
    { cbn [app]. rewrite dropWhile_none by exact Hy.
      change (y :: ys ++ rest) with ((y :: ys) ++ rest).
      apply dropWhile_all. eapply Forall_impl; [exact Hchars |].
      intros c Hc. cbn. by rewrite Hc. }
    destruct Ht as [-> | ->]; [exact Hbody |].
    change (rev (list_ascii_of_string "/")) with ["/"%char].
    change (dropWhile is_slash (["/"%char] ++ (y :: ys) ++ rest))
      with (dropWhile is_slash ((y :: ys) ++ rest)).
    exact Hbody. }
  destruct l as [| s l].
  - cbn [app Js.join]. rewrite Hrev, <- (app_nil_r (y :: ys)), Hskip.
    reflexivity.
  - rewrite join_snoc by discriminate. rewrite chars_app.
    change (list_ascii_of_string ("/" +:+ x))
      with ("/"%char :: list_ascii_of_string x).
    rewrite rev_app_distr. cbn [rev]. rewrite <- app_assoc. cbn [app].
    rewrite Hrev, Hskip. cbn [dropWhile].
    change (is_slash "/") with true. cbn [negb]. cbn iota.
    destruct (join_head (s :: l)) as (c0 & d & Hj & Hc0);
      [discriminate | assumption |].
    rewrite Hj. cbn [list_ascii_of_string rev].
    destruct (rev (list_ascii_of_string d) ++ [c0]) as [| z zs] eqn:Hd.
    { by destruct (rev (list_ascii_of_string d)). }
    rewrite <- Hd, rev_app_distr, rev_involutive.
    cbn [rev app string_of_list_ascii].
    by rewrite string_of_list_ascii_of_string.
Qed.

End NestedFacts.

Section NestedUpload.
Context `{Host}.
Hypothesis Hroot : normalizedRoot = true.
Hypothesis Hsan : sanitizesToNames.
Import Js Path PathFacts ResolverFacts ChildFacts JoinFacts DirnameFacts
  NestedFacts.

Lemma sanitized_parts (filePath : string) :
  Forall part (map sanitize (Js.split filePath)) /\
  map sanitize (Js.split filePath) <> [].
Proof.
  split.
  - apply Forall_forall. intros s (y & -> & _)%list_elem_of_fmap. apply Hsan.
  - pose proof (split_nonempty filePath). by destruct (Js.split filePath).
Qed.

(** Where a file with a path that keeps a name is written, and the
    directory that is made for it. *)
Lemma nested_target (cs : list string) (filePath : string) :
  Forall (fun s => Fs.plain s = true) cs ->
  namesOf filePath <> [] ->
  Fs.walk (Path.join [absOf cs; sanitizedPath filePath])
  = cs ++ namesOf filePath /\
  Fs.walk (Path.dirname (Path.join [absOf cs; sanitizedPath filePath]))
  = cs ++ removelast (namesOf filePath).
Proof.
  intros Hcs Hnames. destruct (sanitized_parts filePath) as [Hparts Hne].
  destruct (join_parts cs _ Hcs Hparts Hne) as (t & Ht & Hjoin).
  unfold sanitizedPath. rewrite Hjoin. fold (namesOf filePath).
  pose proof (names_plain _ Hparts) as Hplain. fold (namesOf filePath) in Hplain.
  split.
  - apply walk_trailing; [| exact Ht]. by apply Forall_app.
  - destruct (exists_last Hnames) as (front & x & Hlast). rewrite Hlast in *.
    rewrite removelast_last, app_assoc.
    apply Forall_app in Hplain as [Hfront Hx]. apply Forall_inv in Hx.
    rewrite dirname_absOf; [| by apply Forall_app | assumption | assumption].
    apply walk_absOf. by apply Forall_app.
Qed.

Lemma guarded_uploadNested (targetDir : string)
  (files : list (string * string)) (paths : list string) (i : nat) (ps : list string) :
  safePath ps = Ok targetDir ->
  Forall (fun p => namesOf p <> []) paths ->
  guarded anyAnswer (below targetDir) (uploadNested targetDir files paths i).
Proof.
  intros Hdir Hpaths. destruct (accepted_absOf Hroot _ _ Hdir) as [Heq Hcs].
  revert i. induction files as [| file rest IH]; intros i; [constructor |].
  cbn [uploadNested]. destruct (paths !! i) as [filePath |] eqn:Hi;
    [| constructor]. cbn [needString].
  apply guarded_lift_bind. intros p [= <-].
  assert (Hkeeps : namesOf filePath <> []).
  { rewrite Forall_forall in Hpaths. apply Hpaths. by eapply list_elem_of_lookup_2. }
  destruct (nested_target (Fs.walk targetDir) filePath Hcs Hkeeps) as [Ht Hd].
  rewrite <- Heq in Ht, Hd.
  assert (Hparent : below targetDir _ (ExistsSync (Path.dirname
            (Path.join [targetDir; sanitizedPath filePath])))).
  { repeat constructor. rewrite Hd. by eexists. }
  apply guarded_call_bind; [exact Hparent |]. intros found.
  apply guarded_bind.
  - destruct found; [constructor |]. apply guarded_await. exact Hparent.
  - intros _. apply guarded_await_bind; [| intros; apply IH].
    repeat constructor. rewrite Ht. by eexists.
Qed.

Lemma guarded_uploadFolder (currentPath : option string)
  (files : list (string * string)) (paths : list string) (targetDir : string) :
  safePath [orEmpty currentPath] = Ok targetDir ->
  Forall (fun p => namesOf p <> []) paths ->
  guarded anyAnswer (below targetDir) (uploadFolder currentPath files paths).
Proof.
  intros Hdir Hpaths. unfold uploadFolder.
  destruct files as [| f files]; [constructor |].
  apply guarded_tryCatch; [| intros; constructor].
  apply guarded_lift_bind. intros dir Hdir'. rewrite Hdir in Hdir'.
  injection Hdir' as <-.
  apply guarded_tryCatch; [| intros; constructor].
  apply guarded_bind; [by eapply guarded_uploadNested | intros; constructor].
Qed.

End NestedUpload.

(** X17. The upload of a folder stays below its target directory: with the
    storage root in normal form and [sanitize] returning names, and every
    path of the request holding a segment that survives [sanitize], every
    call the handler makes ([existsSync] and [mkdirSync] for the parent,
    [mv] for the file) is on a path at or below the resolved target
    directory, whatever the filesystem answers. *)
Theorem folder_upload_stays_below_the_target `{Host} {W : Type}
  (os : oracle W) (currentPath : option string)
  (files : list (string * string)) (paths : list string) (w : W)
  (targetDir : string) :
  normalizedRoot = true -> sanitizesToNames ->
  safePath [orEmpty currentPath] = Ok targetDir ->
  Forall (fun p => namesOf p <> []) paths ->
  Forall (entryBelow targetDir)
    (run os (uploadFolder currentPath files paths) w).2.
Proof.
  intros Hroot Hsan Hdir Hpaths.
  pose proof (guarded_run anyAnswer (below targetDir) os (fun _ => True)
                (uploadFolder currentPath files paths) w) as Hlog.
  eapply Forall_impl.
  - apply Hlog; [by intros ? ? ? _ | exact I |].
    by apply guarded_uploadFolder.
  - by intros [X ev x].
Qed.

Lemma folder_upload_stays_below_the_target_witness :
  Forall (entryBelow "/srv/storage/docs")
    (run Fs.os
       (uploadFolder (H := Demo.host) (Some "docs")
          [("a.js", "one"); ("b.txt", "two")]
          ["photos/../2024/a.js"; "/etc/b.txt"]) Demo.world).2.
Proof.
  apply (folder_upload_stays_below_the_target (H := Demo.host) Fs.os
           (Some "docs") [("a.js", "one"); ("b.txt", "two")]
           ["photos/../2024/a.js"; "/etc/b.txt"] Demo.world "/srv/storage/docs").
  - vm_compute. reflexivity.
  - exact SanitizeFacts.sanitize_name.
  - vm_compute. reflexivity.
  - repeat constructor; vm_compute; discriminate.
Defined.

(** ** All or nothing *)

Section AllOrNothing.
Context `{Host} {W : Type} (os : oracle W).

Lemma succeeded_mutates (log : list entry) :
  existsb entryMutates log = false -> existsb succeeded log = false.
Proof.
  induction log as [| [X ev x] log IH]; [reflexivity |]. cbn [existsb].
  intros [Hev Hlog]%orb_false_iff. rewrite (IH Hlog), orb_false_r.
  cbn in Hev |- *. by destruct ev.
Qed.

Ltac walk_handler :=
  repeat
    (cbn [run tryCatch bind mbind mret prog_bind prog_ret lift await call
            needString orEmpty falsy fst snd negb orb existsb succeeded app];
     match goal with
     | |- context [needString _ ?o] => is_var o; destruct o
     | |- context [falsy ?o] => is_var o; destruct o
     | |- context [Js.isEmpty ?a] => destruct (Js.isEmpty a)
     | |- context [safePath ?ps] => destruct (safePath ps)
     | |- context [os ?X ?ev ?w] => destruct (os X ev w) as [? ?]
     | |- context [match ?r with Ok _ => _ | Err _ => _ end] =>
         is_var r; destruct r
     | |- context [if ?b then _ else _] => is_var b; destruct b
     | |- context [if negb (isDirectory ?s) then _ else _] =>
         destruct (isDirectory s)
     | |- context [if isDirectory ?s then _ else _] => destruct (isDirectory s)
     | |- context [if Js.includes ?a ?b then _ else _] =>
         destruct (Js.includes a b)
     | |- context [if bool_decide ?P then _ else _] => destruct (bool_decide P)
     | u : unit |- _ => destruct u
     end).

Lemma single_step (req : request) (w : W) :
  singleStep req = true ->
  existsb succeeded (run os (handle req) w).2 = true ->
  exists body, (run os (handle req) w).1.1 = Ok (Send 200 body).
Proof.
  destruct req as [p | p files | p | p | s t | p | n p | o n]; intros Hreq Hlog;
    try discriminate.
  1-3: rewrite succeeded_mutates in Hlog;
    [discriminate | by apply reads_log].
  all: revert Hlog; cbn [handle];
    unfold moveItem, moveBody, moveCatch, deleteItem, deleteBody, createFolder,
      createFolderBody, createFolderCatch, renameItem, renameBody;
    walk_handler; try discriminate; eauto.
Qed.

End AllOrNothing.

(** X18. Apart from upload, a handler does not answer with an error once
    a change has gone through: whatever the filesystem answers, when one
    of its calls that change the filesystem ([rename], [mkdir], [rm],
    [unlink]) was answered without an error, the response is a 200.  Read
    the other way: with any other response, a 400, 403, 409 or 500, every
    such call of the request was answered with an error.  What a call that
    was answered with an error had done before it failed is not stated. *)
Theorem a_change_means_success `{Host} {W : Type} (os : oracle W)
  (req : request) (w : W) :
  singleStep req = true ->
  existsb succeeded (run os (handle req) w).2 = true ->
  exists body, (run os (handle req) w).1.1 = Ok (Send 200 body).
Proof. apply single_step. Qed.

Lemma a_change_means_success_witness :
  exists body,
    (run Fs.os (handle (H := Demo.host) (Op.Move (Some "docs") (Some "Zed")))
       Demo.world).1.1
    = Ok (Send 200 body).
Proof.
  apply (a_change_means_success (H := Demo.host) Fs.os
           (Op.Move (Some "docs") (Some "Zed")) Demo.world).
  - reflexivity.
  - vm_compute. reflexivity.
Defined.





(** X21. Rounding can carry a size to 1024.0 of its unit: from 0.05 of a
    unit below the next unit on, a size in KB, MB or GB is printed as
    1024.0 of that unit and not as 1.0 of the next one. *)
Theorem formatSize_prints_1024_below_the_next_unit (bytes : N) (k : nat) :
  (1 <= k <= 3)%nat ->
  (20479 * 1024 ^ N.of_nat k <= 20 * bytes)%N ->
  (bytes < 1024 ^ N.of_nat (S k))%N ->
  formatSize bytes = "1024.0 " +:+ nth k units EmptyString.
Proof.
  intros Hk Hlow Hhigh.
  destruct (formatSize_general bytes) as (k' & Hk' & Hup & Hlo & ->).
  assert (Hsame : k' = k).
  { assert (Hcases : (k = 1 \/ k = 2 \/ k = 3)%nat) by lia.
    assert (Hcases' : (k' = 0 \/ k' = 1 \/ k' = 2 \/ k' = 3 \/ k' = 4)%nat) by lia.
    destruct Hcases as [-> | [-> | ->]];
      destruct Hcases' as [-> | [-> | [-> | [-> | ->]]]];
      try reflexivity; exfalso; revert Hlow Hhigh Hup Hlo; eval_pow;
      intros Hlow Hhigh [Hup | Hup] [Hlo | Hlo]; try discriminate;
      revert Hup Hlo; eval_pow; lia. }
  subst k'.
  assert (Htenths : tenths bytes k = 10240%N).
  { unfold tenths. assert (Hcases : (k = 1 \/ k = 2 \/ k = 3)%nat) by lia.
    destruct Hcases as [-> | [-> | ->]]; revert Hlow Hhigh; eval_pow;
      intros Hlow Hhigh;
      match goal with
      | |- ((20 * bytes + ?U) / (2 * ?U))%N = _ =>
          symmetry;
          apply (N.div_unique _ _ _ (20 * bytes + U - 10240 * (2 * U))%N); lia
      end. }
  rewrite Htenths. reflexivity.
Qed.

Lemma formatSize_prints_1024_below_the_next_unit_witness :
  formatSize 1048575 = "1024.0 " +:+ nth 1 units EmptyString.
Proof.
  apply (formatSize_prints_1024_below_the_next_unit 1048575 1); [lia | | ];
    vm_compute; congruence.
Defined.

(** ** The port of the launcher *)

Module PortFacts.
Import StartAll.

(** The loop returns at the first argument it can return at. *)
Lemma parsePortFromArgs_first (toInteger : string -> option Z)
  (argv : list string) :
  match parsePortFromArgs toInteger argv with
  | Some n =>
      exists before a after,
        argv = before ++ a :: after /\
        (forall b k, b ∈ before -> ~ portArgument toInteger b k) /\
        portArgument toInteger a n
  | None => forall b k, b ∈ argv -> ~ portArgument toInteger b k
  end.
Proof.
  induction argv as [| a rest IH]; cbn [parsePortFromArgs].
  { intros b k Hb. by apply elem_of_nil in Hb. }
  assert (Hskip : (forall k, ~ portArgument toInteger a k) ->
    match parsePortFromArgs toInteger rest with
    | Some n =>
        exists before a0 after,
          a :: rest = before ++ a0 :: after /\
          (forall b k, b ∈ before -> ~ portArgument toInteger b k) /\
          portArgument toInteger a0 n
    | None => forall b k, b ∈ a :: rest -> ~ portArgument toInteger b k
    end).
  { intros Ha. destruct (parsePortFromArgs toInteger rest) as [n |].
    - destruct IH as (before & a0 & after & -> & Hbefore & Ha0).
      exists (a :: before), a0, after. split; [reflexivity |].
      split; [| exact Ha0].
      intros b k [-> | Hb]%elem_of_cons; [apply Ha | by apply Hbefore].
    - intros b k [-> | Hb]%elem_of_cons; [apply Ha | by apply IH]. }
  destruct (String.eqb_spec a "--dev") as [Hdev | Hdev].
  { apply Hskip. intros k (Hne & _). contradiction. }
  destruct (String.eqb_spec a "-d") as [Hd | Hd].
  { apply Hskip. intros k (_ & Hne & _). contradiction. }
  cbn [orb].
  destruct (toInteger a) as [n |] eqn:Ha.
  - destruct (Z.ltb_spec 0 n) as [H0 | H0].
    + destruct (Z.leb_spec n 65535) as [H1 | H1].
      * cbn [andb]. exists [], a, rest. split; [reflexivity |].
        split; [intros b k Hb; by apply elem_of_nil in Hb |].
        repeat split; (assumption || lia).
      * cbn [andb]. apply Hskip. intros k (_ & _ & Hk & Hrange).
        rewrite Ha in Hk. injection Hk as <-. lia.
    + cbn [andb]. apply Hskip. intros k (_ & _ & Hk & Hrange).
      rewrite Ha in Hk. injection Hk as <-. lia.
  - apply Hskip. intros k (_ & _ & Hk & _). rewrite Ha in Hk. discriminate.
Qed.

End PortFacts.

(** X22. The port comes from [ADVERTISE_PORT] if that is set, not empty
    and holds an integer, else from [PORT] if that does, and these are
    taken as they are; only without them is the port checked: it is then
    the number of the first command line argument that is not [--dev] or
    [-d] and is an integer from 1 to 65535, no argument before it being
    one; and it is 3000 when no argument is one. *)
Theorem choosePort_checks_only_the_command_line
  (toInteger : string -> option Z) (envAdvertisePort envPort : option string)
  (argv : list string) :
  StartAll.integerOf toInteger envAdvertisePort
  = Some (StartAll.choosePort toInteger envAdvertisePort envPort argv) \/
  (StartAll.integerOf toInteger envAdvertisePort = None /\
   StartAll.integerOf toInteger envPort
   = Some (StartAll.choosePort toInteger envAdvertisePort envPort argv)) \/
  (StartAll.integerOf toInteger envAdvertisePort = None /\
   StartAll.integerOf toInteger envPort = None /\
   ((exists before a after,
       argv = before ++ a :: after /\
       (forall b k, b ∈ before -> ~ StartAll.portArgument toInteger b k) /\
       StartAll.portArgument toInteger a
         (StartAll.choosePort toInteger envAdvertisePort envPort argv)) \/
    ((forall b k, b ∈ argv -> ~ StartAll.portArgument toInteger b k) /\
     StartAll.choosePort toInteger envAdvertisePort envPort argv = 3000%Z))).
Proof.
  unfold StartAll.choosePort.
  destruct (StartAll.integerOf toInteger envAdvertisePort) as [n |]; [by left |].
  destruct (StartAll.integerOf toInteger envPort) as [n |]; [by right; left |].
  right; right. split; [reflexivity |]. split; [reflexivity |].
  pose proof (PortFacts.parsePortFromArgs_first toInteger argv) as Hfirst.
  destruct (StartAll.parsePortFromArgs toInteger argv) as [n |].
  - by left.
  - right. split; [exact Hfirst | reflexivity].
Qed.

(** The arguments before the first one that counts are passed over, and
    those after it are not looked at. *)
Example choosePort_takes_the_first_port_of_the_command_line :
  StartAll.choosePort
    (fun a => if String.eqb a "0" then Some 0%Z
              else if String.eqb a "8080" then Some 8080%Z
              else if String.eqb a "4000" then Some 4000%Z
              else if String.eqb a "70000" then Some 70000%Z
              else None)
    None (Some EmptyString) ["--dev"; "0"; "70000"; "x"; "8080"; "4000"]
  = 8080%Z.
Proof. reflexivity. Qed.

(** ** A folder upload on the tree *)

Module TreeUploadFacts.
Import Fs FsFacts.

Lemma extends_refl (t : Tree) (pc : list string) : extends t pc t.
Proof. intros key. by left. Qed.

Lemma extends_addDirs (t T : Tree) (pc : list string) (now : Z) :
  extends t pc T -> extends t pc (addDirs now pc T).
Proof.
  intros HT key. rewrite addDirs_lookup.
  destruct (HT key) as [Heq | (Hnone & Hne & Hpre & now' & Hdir)].
  - destruct (T !! key) as [n |] eqn:Hk; [by left |].
    destruct (bool_decide_reflect (key <> [] /\ key `prefix_of` pc))
      as [[Hne Hpre] | _]; [| by left].
    right. repeat split; eauto.
  - rewrite Hdir. right. repeat split; eauto.
Qed.

Section Above.
Context (t T : Tree) (pc : list string) (x : string).
Hypothesis Hext : extends t pc T.
Hypothesis Hnofile :
  forall k content mt, (k <= length pc)%nat ->
                       t !! take k pc <> Some (File content mt).

Lemma extends_no_file (k : nat) :
  (k <= length pc)%nat -> isFileAt T (take k pc) = false.
Proof.
  intros Hk. unfold isFileAt.
  destruct (Hext (take k pc)) as [-> | (_ & _ & _ & now & ->)]; [| reflexivity].
  destruct (t !! take k pc) as [[content mt | mt] |] eqn:Hn; try reflexivity.
  by destruct (Hnofile k content mt Hk).
Qed.

Lemma extends_clear : isFileAt T pc = false /\ underFile T pc = false.
Proof.
  split.
  - rewrite <- (firstn_all pc). by apply extends_no_file.
  - unfold underFile. apply not_true_is_false. intros Hex.
    apply existsb_exists in Hex as (k & Hin & Hfile). apply in_seq in Hin.
    rewrite extends_no_file in Hfile by lia. discriminate.
Qed.

Lemma extends_target : T !! (pc ++ [x]) = t !! (pc ++ [x]).
Proof.
  destruct (Hext (pc ++ [x])) as [Heq | (_ & _ & [r Hr] & _)]; [exact Heq |].
  apply (f_equal length) in Hr. rewrite !length_app in Hr. cbn in Hr. lia.
Qed.

End Above.

End TreeUploadFacts.





(** Back into the root: it is named by [.]; named by the empty path, the
    move is answered with the request for a target, and the item stays
    where the first move put it. *)
Example move_back_into_the_root :
  let there := run Fs.os (moveItem (H := Demo.host) (Some "a.txt") (Some "Zed"))
                 Demo.world in
  there.1.1 = Ok (Send 200 "Item moved successfully") /\
  (let back := run Fs.os (moveItem (H := Demo.host) (Some "Zed/a.txt") (Some "."))
                 there.1.2 in
   back.1.1 = Ok (Send 200 "Item moved successfully") /\
   Fs.tree back.1.2 = Fs.tree Demo.world) /\
  run Fs.os (moveItem (H := Demo.host) (Some "Zed/a.txt") (Some EmptyString))
    there.1.2
  = (Ok (Send 400 "Source and target paths are required"), there.1.2, []).
Proof. repeat split; vm_compute; reflexivity. Qed.
